(** * BusTrackr+ : trip lifecycle, GPS ingestion and live bus view

    A shallow embedding of the tracking core of the application:

    - [Db]        the Postgres schema of the migration (tables [buses],
                  [routes], [profiles], [trips], [gps_updates], their
                  constraints and row-level-security policies) and the
                  queries the components issue against it;
    - [Driver]    the [DriverDashboard] component: [handleStartTrip],
                  [handleEndTrip], [sendGPSUpdate], the GPS tracking effect
                  and its interval timer;
    - [BusMap]    the [BusMap] component: [fetchBusLocations] and the
                  [gps-updates] realtime handler with its [setBusLocations]
                  updater;
    - [Passenger] the [PassengerDashboard] component: [fetchActiveBuses]
                  and its [trips] realtime subscription;
    - [Fixture]   one bus, one route, two drivers and a few samples, for
                  the examples.

    The properties follow the definitions: the view of the live map, the
    ingest of a position, the sampling scheduler, the trip lifecycle, and
    what passengers see when a trip ends.

    Numbers.  Coordinates are stored in [NUMERIC(p, s)] columns, i.e. as
    fixed-point decimals.  A coordinate is modelled by the integer the column
    holds once scaled by [10^s]: latitude and longitude in units of [10^-8]
    degree, speed, heading and accuracy in units of [10^-2].  Timestamps are
    integers (milliseconds).  Identifiers (UUIDs) are strings. *)

From Stdlib Require Import ZArith Lia Sorted.
From stdpp Require Import base option list strings.

Local Open Scope string_scope.
Local Open Scope list_scope.
Local Open Scope Z_scope.

(** ** JavaScript helpers *)

(** [a === b] on strings. *)
Definition str_eq (a b : string) : bool := String.eqb a b.

(** [!s] on a string: only the empty string is falsy. *)
Definition str_falsy (s : string) : bool := str_eq s EmptyString.

(** [s || fallback] where [s] comes from an optional chain [o?.field]:
  [undefined] and the empty string both select the fallback. *)
Definition str_or (o : option string) (fallback : string) : string :=
match o with
| Some s => if str_falsy s then fallback else s
| None => fallback
end.

(** A nullable JavaScript number as the Geolocation API reports it:
  [null], [NaN] or a finite value. *)
Inductive jsnum : Type :=
| JNull
| JNaN
| JNum (v : Z).

(** [x || 0]: [null], [NaN] and [0] are falsy. *)
Definition or_zero (x : jsnum) : Z :=
match x with
| JNum v => if v =? 0 then 0 else v
| JNull | JNaN => 0
end.

(** [Array.prototype.findIndex]: index of the first element satisfying [p],
  [-1] when there is none. *)
Fixpoint findIndex_from {A} (p : A → bool) (i : Z) (l : list A) : Z :=
match l with
| [] => -1
| x :: l' => if p x then i else findIndex_from p (i + 1) l'
end.

Definition findIndex {A} (p : A → bool) (l : list A) : Z := findIndex_from p 0 l.

(** ** The database *)

Module Db.

(** [status TEXT CHECK (status IN ('active', 'completed', 'cancelled'))]. *)
Inductive Status : Type := active | completed | cancelled.

Definition status_eqb (a b : Status) : bool :=
  match a, b with
  | active, active | completed, completed | cancelled, cancelled => true
  | _, _ => false
  end.

Record BusRow : Type := mkBus {
  bus_id : string;
  bus_number : string;
  license_plate : string;
  bus_is_active : bool }.

Record RouteRow : Type := mkRoute {
  route_id : string;
  route_name : string;
  route_is_active : bool }.

Record TripRow : Type := mkTrip {
  trip_id : string;
  trip_bus_id : string;
  trip_route_id : string;
  trip_driver_id : string;
  trip_status : Status;
  started_at : Z;
  completed_at : option Z }.

Record GpsRow : Type := mkGps {
  gps_id : string;
  gps_trip_id : string;
  latitude : Z;
  longitude : Z;
  speed : option Z;
  heading : option Z;
  accuracy : option Z;
  created_at : Z }.

Record t : Type := mkDb {
  buses : list BusRow;
  routes : list RouteRow;
  profiles : list string;
  trips : list TripRow;
  gps_updates : list GpsRow }.

(** Errors a request can come back with. *)
Inductive PgError : Type :=
  | Unreachable          (* the request did not reach the server *)
  | RlsViolation         (* row violates row-level security policy *)
  | UniqueViolation      (* duplicate primary key *)
  | ForeignKeyViolation
  | NumericOverflow      (* value does not fit NUMERIC(p, s) *)
  | NotSingle.           (* [.single()] on zero or several rows *)

Inductive Reply (A : Type) : Type :=
  | Ok (data : A)
  | Err (error : PgError).
Arguments Ok {A} data.
Arguments Err {A} error.

(** What accompanies a request besides the caller: whether it reaches the
    server, the server clock ([NOW()]) and the value [gen_random_uuid()]
    draws for a new row. *)
Record Env : Type := mkEnv {
  reachable : bool;
  clock : Z;
  fresh_uuid : string }.

(** [.single()]. *)
Definition single {A} (rows : list A) : Reply A :=
  match rows with
  | [row] => Ok row
  | _ => Err NotSingle
  end.

(** The embedded resources [buses (bus_number)] and [routes (name)] of a
    trip row.  The joins are subject to the SELECT policies
    "Anyone can view active buses" and "Anyone can view active routes". *)
Record TripJoined : Type := mkJoined {
  j_id : string;
  j_bus_id : string;
  j_started_at : Z;
  j_buses : option string;
  j_routes : option string }.

Definition visible_bus (db : t) (bid : string) : option string :=
  bus_number <$> List.find (λ b, str_eq (bus_id b) bid && bus_is_active b) (buses db).

Definition visible_route (db : t) (rid : string) : option string :=
  route_name <$> List.find (λ r, str_eq (route_id r) rid && route_is_active r) (routes db).

Definition join (db : t) (tr : TripRow) : TripJoined :=
  {| j_id := trip_id tr;
     j_bus_id := trip_bus_id tr;
     j_started_at := started_at tr;
     j_buses := visible_bus db (trip_bus_id tr);
     j_routes := visible_route db (trip_route_id tr) |}.

(** [from('trips').select(..., buses (..), routes (..))] restricted by the
    [.eq] filters [p]; policy "Anyone can view trips" is [USING (true)]. *)
Definition select_trips (env : Env) (p : TripRow → bool) (db : t)
  : Reply (list TripJoined) :=
  if reachable env then Ok (join db <$> filter (λ tr, p tr = true) (trips db))
  else Err Unreachable.

(** The filter [.eq('id', tid)]. *)
Definition by_id (tid : string) (tr : TripRow) : bool := str_eq (trip_id tr) tid.

Definition select_trip_single (env : Env) (p : TripRow → bool) (db : t)
  : Reply TripJoined :=
  match select_trips env p db with
  | Ok rows => single rows
  | Err e => Err e
  end.

(** A [NUMERIC(p, s)] column holds the values whose scaled integer has at
    most [p] digits; anything else is a numeric field overflow. *)
Definition numeric_fits (p : Z) (scaled : Z) : bool := Z.abs scaled <? 10 ^ p.

Definition has_trip (db : t) (tid : string) : bool :=
  existsb (λ tr, str_eq (trip_id tr) tid) (trips db).

Definition is_caller (caller : option string) (who : string) : bool :=
  match caller with
  | Some u => str_eq u who
  | None => false
  end.

Definition set_trips (db : t) (trs : list TripRow) : t :=
  {| buses := buses db; routes := routes db; profiles := profiles db;
     trips := trs; gps_updates := gps_updates db |}.

Definition set_gps_updates (db : t) (gs : list GpsRow) : t :=
  {| buses := buses db; routes := routes db; profiles := profiles db;
     trips := trips db; gps_updates := gs |}.

(** [INSERT INTO trips (bus_id, route_id, driver_id, status)] followed by
    [.select(...)]: policy "Drivers can create trips"
    ([auth.uid() = driver_id]), the primary key, and the three foreign
    keys.  [started_at] defaults to [NOW()], [completed_at] to NULL.
    Nothing in the table relates the new row to the other trips of its
    driver. *)
Definition insert_trip (caller : option string) (env : Env)
    (bus route driver : string) (st : Status) (db : t) : Reply (TripJoined * t) :=
  if negb (reachable env) then Err Unreachable
  else if negb (is_caller caller driver) then Err RlsViolation
  else if has_trip db (fresh_uuid env) then Err UniqueViolation
  else if negb (existsb (λ b, str_eq (bus_id b) bus) (buses db)
                && existsb (λ r, str_eq (route_id r) route) (routes db)
                && existsb (str_eq driver) (profiles db))
  then Err ForeignKeyViolation
  else
    let row := mkTrip (fresh_uuid env) bus route driver st (clock env) None in
    let db' := set_trips db (trips db ++ [row]) in
    Ok (join db' row, db').

(** [UPDATE trips SET status = .., completed_at = .. WHERE id = tid]:
    policy "Drivers can update own trips" ([auth.uid() = driver_id])
    silently leaves the rows of other drivers alone; an update that
    touches no row is not an error. *)
Definition update_trip (caller : option string) (env : Env) (tid : string)
    (st : Status) (completed : Z) (db : t) : Reply t :=
  if negb (reachable env) then Err Unreachable
  else
    Ok (set_trips db
          ((λ tr, if str_eq (trip_id tr) tid && is_caller caller (trip_driver_id tr)
                  then mkTrip (trip_id tr) (trip_bus_id tr) (trip_route_id tr)
                         (trip_driver_id tr) st (started_at tr) (Some completed)
                  else tr) <$> trips db)).

(** [INSERT INTO gps_updates (trip_id, latitude, longitude, speed, heading,
    accuracy)]: the column types [NUMERIC(10, 8)], [NUMERIC(11, 8)],
    [NUMERIC(5, 2)], [NUMERIC(5, 2)], [NUMERIC(6, 2)], then policy
    "Drivers can create gps updates for own trips"
    ([EXISTS (SELECT 1 FROM trips WHERE trips.id = trip_id AND
    trips.driver_id = auth.uid())]), then the primary key.  [created_at]
    defaults to [NOW()].  The policy does not look at the trip's status and
    no column has a range check. *)
Definition insert_gps (caller : option string) (env : Env) (tid : string)
    (lat lng spd hdg acc : Z) (db : t) : Reply t :=
  if negb (reachable env) then Err Unreachable
  else if negb (numeric_fits 10 lat && numeric_fits 11 lng && numeric_fits 5 spd
                && numeric_fits 5 hdg && numeric_fits 6 acc)
  then Err NumericOverflow
  else if negb (existsb (λ tr, str_eq (trip_id tr) tid
                               && is_caller caller (trip_driver_id tr)) (trips db))
  then Err RlsViolation
  else if existsb (λ g, str_eq (gps_id g) (fresh_uuid env)) (gps_updates db)
  then Err UniqueViolation
  else
    Ok (set_gps_updates db
          (gps_updates db
           ++ [mkGps (fresh_uuid env) tid lat lng (Some spd) (Some hdg) (Some acc)
                 (clock env)])).

(** The row [ORDER BY created_at DESC LIMIT 1] keeps: a row with the
    greatest [created_at]; among equal timestamps the first in table order
    is kept. *)
Fixpoint latest (rows : list GpsRow) : option GpsRow :=
  match rows with
  | [] => None
  | g :: rows' =>
      match latest rows' with
      | Some g' => if created_at g <? created_at g' then Some g' else Some g
      | None => Some g
      end
  end.

(** [from('gps_updates').select('latitude, longitude, created_at')
    .eq('trip_id', tid).order('created_at', { ascending: false })
    .limit(1).single()]. *)
Definition latest_gps (env : Env) (tid : string) (db : t) : Reply GpsRow :=
  if reachable env then
    match latest (filter (λ g, str_eq (gps_trip_id g) tid = true) (gps_updates db)) with
    | Some g => Ok g
    | None => Err NotSingle
    end
  else Err Unreachable.

(** The realtime publication [supabase_realtime] carries the changes of
    [gps_updates] and [trips]. *)
Inductive Change : Type :=
  | GpsInserted (new : GpsRow)
  | TripInserted (new : TripRow)
  | TripUpdated (old new : TripRow).

(** What the primary key of [trips] and the foreign key
    [gps_updates.trip_id REFERENCES trips(id)] keep true. *)
Definition wf (db : t) : Prop :=
  NoDup (trip_id <$> trips db)
  ∧ ∀ g, g ∈ gps_updates db → has_trip db (gps_trip_id g) = true.

End Db.

(** ** The driver dashboard *)

Module Driver.

Record ActiveTrip : Type := mkActive {
  id : string;
  bus_number : string;
  route_name : string;
  started_at : Z }.

(** The component's [useState] cells. *)
Record State : Type := mkState {
  selectedBus : string;
  selectedRoute : string;
  activeTrip : option ActiveTrip;
  gpsInterval : option Z;
  gpsUpdateCount : Z }.

Definition setActiveTrip (a : option ActiveTrip) (st : State) : State :=
  mkState (selectedBus st) (selectedRoute st) a (gpsInterval st) (gpsUpdateCount st).

Definition setGpsInterval (i : option Z) (st : State) : State :=
  mkState (selectedBus st) (selectedRoute st) (activeTrip st) i (gpsUpdateCount st).

Definition setGpsUpdateCount (f : Z → Z) (st : State) : State :=
  mkState (selectedBus st) (selectedRoute st) (activeTrip st) (gpsInterval st)
    (f (gpsUpdateCount st)).

Definition setSelectedBus (b : string) (st : State) : State :=
  mkState b (selectedRoute st) (activeTrip st) (gpsInterval st) (gpsUpdateCount st).

Definition setSelectedRoute (r : string) (st : State) : State :=
  mkState (selectedBus st) r (activeTrip st) (gpsInterval st) (gpsUpdateCount st).

Record Toast : Type := mkToast {
  title : string;
  description : string;
  destructive : bool }.

Record PositionOptions : Type := mkOptions {
  enableHighAccuracy : bool;
  timeout : Z;
  maximumAge : Z }.

(** [position.coords]. *)
Record Coords : Type := mkCoords {
  latitude : Z;
  longitude : Z;
  speed : jsnum;
  heading : jsnum;
  accuracy : jsnum }.

(** What a handler does besides changing the component state and the
    database.  A position request remembers the trip its callbacks
    closed over. *)
Inductive Output : Type :=
  | toast (t : Toast)
  | console_log (msg : string)
  | console_error (msg : string)
  | getCurrentPosition (trip : ActiveTrip) (options : PositionOptions).

Definition toast_missing_information : Toast :=
  mkToast "Missing Information" "Please select both a bus and a route." true.
Definition toast_start_error : Toast :=
  mkToast "Error" "Could not start trip. Please try again." true.
Definition toast_trip_started : Toast :=
  mkToast "Trip Started!" "GPS tracking is now active." false.
Definition toast_end_error : Toast :=
  mkToast "Error" "Could not end trip. Please try again." true.
Definition toast_trip_completed : Toast :=
  mkToast "Trip Completed!" "GPS tracking has been stopped." false.
Definition toast_location_error : Toast :=
  mkToast "Location Error"
    "Could not get your location. Please enable location services." true.
Definition toast_location_not_supported : Toast :=
  mkToast "Location Not Supported"
    "Your device doesn't support location tracking." true.

Definition toActiveTrip (data : Db.TripJoined) : ActiveTrip :=
  {| id := Db.j_id data;
     bus_number := str_or (Db.j_buses data) "Unknown";
     route_name := str_or (Db.j_routes data) "Unknown";
     started_at := Db.j_started_at data |}.

(** The two conditional blocks of the render: the trip card with its
    "End Trip" button, and the "Start a New Trip" form. *)
Definition end_button_rendered (st : State) : bool :=
  match activeTrip st with Some _ => true | None => false end.

Definition start_form_rendered (st : State) : bool :=
  match activeTrip st with Some _ => false | None => true end.

(** [disabled={!selectedBus || !selectedRoute}] on the "Start Trip" button. *)
Definition start_disabled (st : State) : bool :=
  str_falsy (selectedBus st) || str_falsy (selectedRoute st).

(** [checkActiveTrip], run once on mount: the trip it passes to
    [setActiveTrip], if it gets that far. *)
Definition checkActiveTrip (user : option string) (env : Db.Env) (db : Db.t)
  : option ActiveTrip :=
  match user with
  | None => None
  | Some u =>
      match Db.select_trip_single env
              (λ tr, str_eq (Db.trip_driver_id tr) u
                     && Db.status_eqb (Db.trip_status tr) Db.active) db with
      | Db.Ok data => Some (toActiveTrip data)
      | Db.Err _ => None
      end
  end.

(** [sendGPSUpdate] as a closure over [activeTrip]; [geolocation] tells
    whether [navigator.geolocation] exists. *)
Definition geo_options : PositionOptions :=
  {| enableHighAccuracy := true; timeout := 5000; maximumAge := 0 |}.

Definition sendGPSUpdate (activeTrip : option ActiveTrip) (geolocation : bool)
  : list Output :=
  match activeTrip with
  | None => []
  | Some trip =>
      if geolocation then [getCurrentPosition trip geo_options]
      else [toast toast_location_not_supported]
  end.

(** The success callback of [getCurrentPosition]. *)
Definition on_position (trip : ActiveTrip) (coords : Coords)
    (user : option string) (env : Db.Env) (st : State) (db : Db.t)
  : State * Db.t * list Output :=
  match Db.insert_gps user env (id trip) (latitude coords) (longitude coords)
          (or_zero (speed coords)) (or_zero (heading coords))
          (or_zero (accuracy coords)) db with
  | Db.Err _ =>
      (st, db, [console_log "📡 Sending GPS update:";
                console_error "❌ Error sending GPS update:"])
  | Db.Ok db' =>
      (setGpsUpdateCount (λ prev, prev + 1) st, db',
       [console_log "📡 Sending GPS update:";
        console_log "✅ GPS update sent successfully"])
  end.

(** The error callback of [getCurrentPosition]. *)
Definition on_position_error (st : State) : State * list Output :=
  (st, [console_error "❌ Geolocation error:"; toast toast_location_error]).

Definition handleStartTrip (user : option string) (env : Db.Env) (st : State) (db : Db.t)
  : State * Db.t * list Output :=
  if str_falsy (selectedBus st) || str_falsy (selectedRoute st) then
    (st, db, [toast toast_missing_information])
  else
    match user with
    | None => (st, db, [])
    | Some u =>
        match Db.insert_trip user env (selectedBus st) (selectedRoute st) u
                Db.active db with
        | Db.Err _ =>
            (st, db, [console_log "🚀 Starting new trip...";
                      console_error "❌ Error starting trip:";
                      toast toast_start_error])
        | Db.Ok (data, db') =>
            (setActiveTrip (Some (toActiveTrip data)) st, db',
             [console_log "🚀 Starting new trip..."; toast toast_trip_started])
        end
    end.

(** [today] is the client clock read by [new Date().toISOString()]. *)
Definition handleEndTrip (user : option string) (env : Db.Env) (today : Z)
    (st : State) (db : Db.t) : State * Db.t * list Output :=
  match activeTrip st with
  | None => (st, db, [])
  | Some trip =>
      match Db.update_trip user env (id trip) Db.completed today db with
      | Db.Err _ =>
          (st, db, [console_log "🛑 Ending trip...";
                    console_error "❌ Error ending trip:";
                    toast toast_end_error])
      | Db.Ok db' =>
          (setGpsUpdateCount (λ _, 0) (setActiveTrip None st), db',
           [console_log "🛑 Ending trip..."; toast toast_trip_completed])
      end
  end.

(** *** The mounted component and the browser around it

    The browser side the component relies on: the clock, the interval
    timers ([setInterval] fires its callback every [period] milliseconds,
    first one period after the call, until [clearInterval]), and the
    position requests that are still waiting for one of their callbacks. *)

Record Timer : Type := mkTimer {
  timer_id : Z;
  period : Z;
  due : Z;
  captured : option ActiveTrip }.   (* the [activeTrip] the callback closed over *)

Record World : Type := mkWorld {
  now : Z;
  user : option string;             (* the signed-in user *)
  geolocation : bool;               (* [navigator.geolocation] *)
  db : Db.t;
  state : State;
  timers : list Timer;
  next_timer_id : Z;
  cleanup : option Z;               (* [interval] held by the effect's cleanup *)
  inflight : list ActiveTrip }.

Definition set_state (st : State) (w : World) : World :=
  mkWorld (now w) (user w) (geolocation w) (db w) st (timers w) (next_timer_id w)
    (cleanup w) (inflight w).

Definition set_db (d : Db.t) (w : World) : World :=
  mkWorld (now w) (user w) (geolocation w) d (state w) (timers w) (next_timer_id w)
    (cleanup w) (inflight w).

Definition set_timers (ts : list Timer) (w : World) : World :=
  mkWorld (now w) (user w) (geolocation w) (db w) (state w) ts (next_timer_id w)
    (cleanup w) (inflight w).

Definition set_cleanup (c : option Z) (w : World) : World :=
  mkWorld (now w) (user w) (geolocation w) (db w) (state w) (timers w) (next_timer_id w)
    c (inflight w).

Definition set_inflight (l : list ActiveTrip) (w : World) : World :=
  mkWorld (now w) (user w) (geolocation w) (db w) (state w) (timers w) (next_timer_id w)
    (cleanup w) l.

Definition set_now (n : Z) (w : World) : World :=
  mkWorld n (user w) (geolocation w) (db w) (state w) (timers w) (next_timer_id w)
    (cleanup w) (inflight w).

(** [setInterval(callback, period)]: returns the new timer's id. *)
Definition setInterval (trip : option ActiveTrip) (ms : Z) (w : World) : Z * World :=
  let i := next_timer_id w in
  (i, mkWorld (now w) (user w) (geolocation w) (db w) (state w)
        (timers w ++ [mkTimer i ms (now w + ms) trip]) (i + 1)
        (cleanup w) (inflight w)).

Definition clearInterval (i : Z) (w : World) : World :=
  set_timers (filter (λ tm, timer_id tm ≠ i) (timers w)) w.

(** A handler's position requests join the pending ones. *)
Definition requested (outs : list Output) : list ActiveTrip :=
  omap (λ o, match o with getCurrentPosition trip _ => Some trip | _ => None end) outs.

Definition emit (outs : list Output) (w : World) : World :=
  set_inflight (inflight w ++ requested outs) w.

(** [if (interval)] on a timer id. *)
Definition truthy (i : Z) : bool := negb (i =? 0).

(** The effect [useEffect(..., [activeTrip])]: React first runs the
    cleanup the previous run returned, then the body. *)
Definition tracking_effect (w : World) : World * list Output :=
  let w1 := match cleanup w with
            | Some interval => if truthy interval then clearInterval interval w else w
            | None => w
            end in
  match activeTrip (state w1) with
  | None =>
      let w2 := match gpsInterval (state w1) with
                | Some g =>
                    if truthy g
                    then set_state (setGpsInterval None (state w1)) (clearInterval g w1)
                    else w1
                | None => w1
                end in
      (set_cleanup None w2, [])
  | Some trip =>
      let '(interval, w2) := setInterval (Some trip) 5000 w1 in
      let w3 := set_state (setGpsInterval (Some interval) (state w2)) w2 in
      let outs := console_log "📍 Starting GPS tracking..."
                  :: sendGPSUpdate (Some trip) (geolocation w3) in
      (set_cleanup (Some interval) (emit outs w3), outs)
  end.

(** The effect runs again when [activeTrip] was set; every [setActiveTrip]
    of the component passes either a new object or, from a trip, [null]. *)
Definition after_setActiveTrip (w : World) (outs : list Output) : World * list Output :=
  let '(w', outs') := tracking_effect w in (w', outs ++ outs').

Inductive Event : Type :=
  | Mounted (env : Db.Env)                 (* [checkActiveTrip] has answered *)
  | SelectBus (bus : string)
  | SelectRoute (route : string)
  | ClickStart (env : Db.Env)
  | ClickEnd (env : Db.Env) (today : Z)
  | Elapse (ms : Z)
  | TimerFires
  | PositionArrives (k : nat) (coords : Coords) (env : Db.Env)
  | PositionFails (k : nat).

(** One turn of the event loop; [None] when the event cannot happen in
    [w]: a button that is not rendered or is disabled, time that would run
    past a due timer, a timer that is not due, a request that is not
    pending. *)
Definition step (ev : Event) (w : World) : option (World * list Output) :=
  match ev with
  | Mounted env =>
      match checkActiveTrip (user w) env (db w) with
      | Some trip =>
          Some (after_setActiveTrip (set_state (setActiveTrip (Some trip) (state w)) w) [])
      | None => Some (w, [])
      end
  | SelectBus bus => Some (set_state (setSelectedBus bus (state w)) w, [])
  | SelectRoute route => Some (set_state (setSelectedRoute route (state w)) w, [])
  | ClickStart env =>
      if start_form_rendered (state w) && negb (start_disabled (state w)) then
        let '(st', db', outs) := handleStartTrip (user w) env (state w) (db w) in
        let w' := set_db db' (set_state st' w) in
        match activeTrip st' with
        | Some _ => Some (after_setActiveTrip w' outs)
        | None => Some (w', outs)
        end
      else None
  | ClickEnd env today =>
      if end_button_rendered (state w) then
        let '(st', db', outs) := handleEndTrip (user w) env today (state w) (db w) in
        let w' := set_db db' (set_state st' w) in
        match activeTrip st' with
        | None => Some (after_setActiveTrip w' outs)
        | Some _ => Some (w', outs)
        end
      else None
  | Elapse ms =>
      if (0 <=? ms) && forallb (λ tm, now w + ms <=? due tm) (timers w)
      then Some (set_now (now w + ms) w, [])
      else None
  | TimerFires =>
      match List.find (λ tm, due tm =? now w) (timers w) with
      | Some tm =>
          let outs := sendGPSUpdate (captured tm) (geolocation w) in
          let ts := (λ tm', if timer_id tm' =? timer_id tm
                            then mkTimer (timer_id tm') (period tm')
                                   (due tm' + period tm') (captured tm')
                            else tm') <$> timers w in
          Some (emit outs (set_timers ts w), outs)
      | None => None
      end
  | PositionArrives k coords env =>
      match inflight w !! k with
      | Some trip =>
          let '(st', db', outs) :=
            on_position trip coords (user w) env (state w) (db w) in
          Some (set_inflight (delete k (inflight w)) (set_db db' (set_state st' w)), outs)
      | None => None
      end
  | PositionFails k =>
      match inflight w !! k with
      | Some _ =>
          let '(st', outs) := on_position_error (state w) in
          Some (set_inflight (delete k (inflight w)) (set_state st' w), outs)
      | None => None
      end
  end.

(** A run of the event loop, each output stamped with the time it was
    produced at. *)
Fixpoint run (evs : list Event) (w : World) : option (World * list (Z * Output)) :=
  match evs with
  | [] => Some (w, [])
  | ev :: evs' =>
      match step ev w with
      | Some (w', outs) =>
          match run evs' w' with
          | Some (w'', tr) => Some (w'', ((λ o, (now w', o)) <$> outs) ++ tr)
          | None => None
          end
      | None => None
      end
  end.

(** *** Shapes of the world

    [idle]: no trip in the component, no timer.  [tracking w trip d]: the
    component holds [trip] and the one timer of the tracking effect, whose
    callback closed over [trip], fires next at [d]. *)
Definition idle (w : World) : Prop :=
  activeTrip (state w) = None ∧ timers w = [] ∧ 0 < next_timer_id w.

Definition tracking (w : World) (trip : ActiveTrip) (d : Z) : Prop :=
  activeTrip (state w) = Some trip
  ∧ now w ≤ d
  ∧ ∃ i, 0 < i < next_timer_id w
         ∧ timers w = [mkTimer i 5000 d (Some trip)]
         ∧ cleanup w = Some i
         ∧ gpsInterval (state w) = Some i.

(** Events that neither start nor end a trip nor remount the component. *)
Definition quiet (ev : Event) : Prop :=
  match ev with
  | Mounted _ | ClickStart _ | ClickEnd _ _ => False
  | _ => True
  end.

(** The position requests of a trace, with their times. *)
Definition requests (tr : list (Z * Output)) : list (Z * ActiveTrip * PositionOptions) :=
  omap (λ e, match e with
             | (at_, getCurrentPosition trip options) => Some (at_, trip, options)
             | _ => None
             end) tr.

(** The times [d, d + p, ..., d + (n - 1) p]. *)
Fixpoint every (p : Z) (d : Z) (n : nat) : list Z :=
  match n with
  | O => []
  | S n' => d :: every p (d + p) n'
  end.

(** [n] periods of the timer, each followed by its tick. *)
Fixpoint ticks (n : nat) : list Event :=
  match n with
  | O => []
  | S n' => Elapse 5000 :: TimerFires :: ticks n'
  end.

(** A mounted dashboard with nothing selected and no trip. *)
Definition mount (user : option string) (geolocation : bool) (db : Db.t) (now : Z) : World :=
  mkWorld now user geolocation db (mkState EmptyString EmptyString None None 0) [] 1 None [].

(** The driver's active trips. *)
Definition active_trips_of (u : string) (db : Db.t) : list Db.TripRow :=
  filter (λ tr, str_eq (Db.trip_driver_id tr) u
                && Db.status_eqb (Db.trip_status tr) Db.active = true) (Db.trips db).

(** What one dashboard session keeps true of its driver [u] when it is the
    only writer of the driver's trips and handles one event at a time:
    either it is idle and the driver has no active trip, or it tracks the
    driver's only active trip. *)
Definition session_inv (u : string) (w : World) : Prop :=
  user w = Some u
  ∧ NoDup (Db.trip_id <$> Db.trips (db w))
  ∧ ((idle w ∧ active_trips_of u (db w) = [])
     ∨ (∃ trip d row, tracking w trip d
                      ∧ active_trips_of u (db w) = [row]
                      ∧ Db.trip_id row = id trip)).

(** What [handleStartTrip] needs to succeed for driver [u]: a bus and a
    route are selected, the request reaches the server, the drawn id is new
    and the three foreign keys exist.  The driver's other trips play no
    part. *)
Definition can_start (env : Db.Env) (u : string) (st : State) (db : Db.t) : Prop :=
  selectedBus st ≠ EmptyString
  ∧ selectedRoute st ≠ EmptyString
  ∧ Db.reachable env = true
  ∧ Db.has_trip db (Db.fresh_uuid env) = false
  ∧ existsb (λ b, str_eq (Db.bus_id b) (selectedBus st)) (Db.buses db) = true
  ∧ existsb (λ r, str_eq (Db.route_id r) (selectedRoute st)) (Db.routes db) = true
  ∧ existsb (str_eq u) (Db.profiles db) = true.

(** The row [handleStartTrip] inserts. *)
Definition started_row (env : Db.Env) (u : string) (st : State) : Db.TripRow :=
  Db.mkTrip (Db.fresh_uuid env) (selectedBus st) (selectedRoute st) u Db.active
    (Db.clock env) None.

End Driver.

(** ** The live map *)

Module BusMap.

Record BusLocation : Type := mkLoc {
  id : string;
  bus_number : string;
  latitude : Z;
  longitude : Z;
  trip_id : string;
  route_name : string }.

(** [newLocation] as the realtime handler builds it from [payload.new] and
    the trip it looked up. *)
Definition newLocation (payload : Db.GpsRow) (tripData : Db.TripJoined) : BusLocation :=
  {| id := Db.gps_trip_id payload;
     bus_number := str_or (Db.j_buses tripData) "Unknown";
     latitude := Db.latitude payload;
     longitude := Db.longitude payload;
     trip_id := Db.gps_trip_id payload;
     route_name := str_or (Db.j_routes tripData) "Unknown Route" |}.

(** The updater passed to [setBusLocations]: replace existing or add new. *)
Definition setBusLocations_update (newLoc : BusLocation) (prev : list BusLocation)
  : list BusLocation :=
  let index := findIndex (λ loc, str_eq (id loc) (id newLoc)) prev in
  if 0 <=? index then <[Z.to_nat index := newLoc]> prev
  else prev ++ [newLoc].

(** The [postgres_changes] handler of channel [gps-updates]: look the trip
    up, return when there is no [tripData], otherwise update the view. *)
Definition on_gps_insert (env : Db.Env) (db : Db.t) (payload : Db.GpsRow)
    (prev : list BusLocation) : list BusLocation :=
  match Db.select_trip_single env (Db.by_id (Db.gps_trip_id payload)) db with
  | Db.Ok tripData => setBusLocations_update (newLocation payload tripData) prev
  | Db.Err _ => prev
  end.

(** [fetchBusLocations]: the latest position of each active trip.  The
    view is left as it is when the trips query fails or finds no active
    trip; a trip without a readable position is skipped.  [gps_env] is the
    environment of the position query of each trip. *)
Definition fetchBusLocations (env : Db.Env) (gps_env : string → Db.Env) (db : Db.t)
    (prev : list BusLocation) : list BusLocation :=
  match Db.select_trips env (λ tr, Db.status_eqb (Db.trip_status tr) Db.active) db with
  | Db.Err _ => prev
  | Db.Ok trips =>
      if Z.of_nat (length trips) =? 0 then prev
      else
        omap (λ trip,
                match Db.latest_gps (gps_env (Db.j_id trip)) (Db.j_id trip) db with
                | Db.Ok gpsData =>
                    Some {| id := Db.j_id trip;
                            bus_number := str_or (Db.j_buses trip) "Unknown";
                            latitude := Db.latitude gpsData;
                            longitude := Db.longitude gpsData;
                            trip_id := Db.j_id trip;
                            route_name := str_or (Db.j_routes trip) "Unknown Route" |}
                | Db.Err _ => None
                end) trips
  end.

(** The component's only subscription is
    [{ event: 'INSERT', schema: 'public', table: 'gps_updates' }]: no other
    change of the publication reaches it. *)
Definition on_change (env : Db.Env) (db : Db.t) (change : Db.Change)
    (prev : list BusLocation) : list BusLocation :=
  match change with
  | Db.GpsInserted payload => on_gps_insert env db payload prev
  | Db.TripInserted _ | Db.TripUpdated _ _ => prev
  end.

(** The view after a sequence of deliveries, each handled against the
    database as it is when its trip is looked up. *)
Fixpoint deliver (evs : list (Db.Env * Db.t * Db.Change)) (view : list BusLocation)
  : list BusLocation :=
  match evs with
  | [] => view
  | (env, db, change) :: evs' => deliver evs' (on_change env db change view)
  end.

(** The entry the view holds for a trip. *)
Definition entry (tid : string) (view : list BusLocation) : option BusLocation :=
  List.find (λ loc, str_eq (id loc) tid) view.

(** The updater, by recursion on the view. *)
Fixpoint upsert (newLoc : BusLocation) (prev : list BusLocation) : list BusLocation :=
  match prev with
  | [] => [newLoc]
  | loc :: rest =>
      if str_eq (id loc) (id newLoc) then newLoc :: rest
      else loc :: upsert newLoc rest
  end.

(** The samples of trip [tid] among a sequence of deliveries, in the order
    they are delivered. *)
Definition sample_for (tid : string) (ev : Db.Env * Db.t * Db.Change) : option Db.GpsRow :=
  match ev with
  | (_, _, Db.GpsInserted g) => if str_eq (Db.gps_trip_id g) tid then Some g else None
  | _ => None
  end.

Definition samples_of (tid : string) (evs : list (Db.Env * Db.t * Db.Change))
  : list Db.GpsRow :=
  omap (sample_for tid) evs.

(** The handler applies a delivered sample when it finds the sample's trip. *)
Definition applied (ev : Db.Env * Db.t * Db.Change) : Prop :=
  match ev with
  | (env, db, Db.GpsInserted g) =>
      ∃ tripData, Db.select_trip_single env (Db.by_id (Db.gps_trip_id g)) db = Db.Ok tripData
  | _ => True
  end.

(** A change of the publication as it reaches a subscriber: the request
    for the trip gets through and the database, consistent with its keys,
    holds the inserted sample. *)
Definition delivered (ev : Db.Env * Db.t * Db.Change) : Prop :=
  match ev with
  | (env, db, Db.GpsInserted g) =>
      Db.reachable env = true ∧ Db.wf db ∧ g ∈ Db.gps_updates db
  | _ => True
  end.

(** The location built from the last applied sample of trip [tid]. *)
Fixpoint last_location (tid : string) (evs : list (Db.Env * Db.t * Db.Change))
  : option BusLocation :=
  match evs with
  | [] => None
  | ev :: evs' =>
      match last_location tid evs' with
      | Some loc => Some loc
      | None =>
          match ev with
          | (env, db, Db.GpsInserted g) =>
              if str_eq (Db.gps_trip_id g) tid then
                match Db.select_trip_single env (Db.by_id (Db.gps_trip_id g)) db with
                | Db.Ok tripData => Some (newLocation g tripData)
                | Db.Err _ => None
                end
              else None
          | _ => None
          end
      end
  end.

End BusMap.

(** ** The passenger dashboard *)

Module Passenger.

Record ActiveBus : Type := mkBus {
  bus_number : string;
  route_name : string;
  trip_id : string }.

(** [fetchActiveBuses]: the active trips of the selected route; on error
    the list is left as it is. *)
Definition fetchActiveBuses (env : Db.Env) (selectedRoute : string) (db : Db.t)
    (prev : list ActiveBus) : list ActiveBus :=
  match Db.select_trips env
          (λ tr, str_eq (Db.trip_route_id tr) selectedRoute
                 && Db.status_eqb (Db.trip_status tr) Db.active) db with
  | Db.Err _ => prev
  | Db.Ok data =>
      (λ trip, {| bus_number := str_or (Db.j_buses trip) "Unknown";
                  route_name := str_or (Db.j_routes trip) "Unknown Route";
                  trip_id := Db.j_id trip |}) <$> data
  end.

(** The subscription
    [{ event: '*', table: 'trips', filter: `route_id=eq.${selectedRoute}` }],
    set up only while a route is selected: any such change refetches. *)
Definition on_change (env : Db.Env) (selectedRoute : string) (db : Db.t)
    (change : Db.Change) (prev : list ActiveBus) : list ActiveBus :=
  if str_falsy selectedRoute then prev
  else
    match change with
    | Db.TripInserted new | Db.TripUpdated _ new =>
        if str_eq (Db.trip_route_id new) selectedRoute
        then fetchActiveBuses env selectedRoute db prev
        else prev
    | Db.GpsInserted _ => prev
    end.

End Passenger.

(** ** Concrete data used by the examples *)

Module Fixture.

Definition env (uuid : string) (clock : Z) : Db.Env := Db.mkEnv true clock uuid.

Definition db0 : Db.t :=
  {| Db.buses := [Db.mkBus "bus-12" "12" "KA-01-F-1234" true];
     Db.routes := [Db.mkRoute "route-1" "Downtown Loop" true];
     Db.profiles := ["driver-1"; "driver-2"];
     Db.trips := [];
     Db.gps_updates := [] |}.

Definition trip1 : Db.TripRow :=
  Db.mkTrip "trip-1" "bus-12" "route-1" "driver-1" Db.active 1000 None.

(** Driver [driver-1] has the active trip [trip-1]. *)
Definition db1 : Db.t := Db.set_trips db0 [trip1].

(** Two samples of [trip-1]: (40.0, -75.0) accepted at 2000 and
    (39.9, -74.9) accepted earlier, at 1500. *)
Definition newer : Db.GpsRow :=
  Db.mkGps "gps-2" "trip-1" 4000000000 (-7500000000) (Some 0) (Some 0) (Some 0) 2000.

Definition older : Db.GpsRow :=
  Db.mkGps "gps-1" "trip-1" 3990000000 (-7490000000) (Some 0) (Some 0) (Some 0) 1500.

(** A second trip, of another driver, and one of its samples. *)
Definition trip2 : Db.TripRow :=
  Db.mkTrip "trip-2" "bus-12" "route-1" "driver-2" Db.active 1200 None.

Definition db2 : Db.t := Db.set_trips db0 [trip1; trip2].

Definition other : Db.GpsRow :=
  Db.mkGps "gps-3" "trip-2" 4100000000 (-7600000000) (Some 0) (Some 0) (Some 0) 1800.

(** [older] and [newer] delivered in order, a sample of [trip-2] between
    them. *)
Definition deliveries : list (Db.Env * Db.t * Db.Change) :=
  [(env "none" 0, db2, Db.GpsInserted older);
   (env "none" 0, db2, Db.GpsInserted other);
   (env "none" 0, db2, Db.GpsInserted newer)].

(** What the dashboard of [driver-1] holds for [trip-1]. *)
Definition active1 : Driver.ActiveTrip := Driver.toActiveTrip (Db.join db1 trip1).

Definition st1 : Driver.State :=
  Driver.mkState "bus-12" "route-1" (Some active1) (Some 1) 0.

(** A fix at (40.0, -75.0) without speed and heading, 5 m accuracy; and one
    at latitude 95 degrees. *)
Definition fix1 : Driver.Coords :=
  Driver.mkCoords 4000000000 (-7500000000) JNull JNull (JNum 500).

Definition fix95 : Driver.Coords :=
  Driver.mkCoords 9500000000 0 JNull JNull (JNum 500).

(** The dashboard of [driver-1], mounted at time 1000 on a device with
    geolocation, bus 12 and route "Downtown Loop" selected. *)
Definition w_idle : Driver.World :=
  Driver.mkWorld 1000 (Some "driver-1") true db0
    (Driver.mkState "bus-12" "route-1" None None 0) [] 1 None [].

Definition after (evs : list Driver.Event) (w : Driver.World) : Driver.World :=
  match Driver.run evs w with
  | Some (w', _) => w'
  | None => w
  end.

(** ... after "Start Trip" was pressed: [trip-1] is active and the first
    position request is pending. *)
Definition w_started : Driver.World := after [Driver.ClickStart (env "trip-1" 1000)] w_idle.

(** ... after the first fix was stored, the tick at 6000 requested the
    next one, and "End Trip" was pressed while that request was pending. *)
Definition w_ended : Driver.World :=
  after [Driver.PositionArrives 0 fix1 (env "gps-1" 1100);
         Driver.Elapse 5000;
         Driver.TimerFires;
         Driver.ClickEnd (env "none" 6100) 6100] w_started.

(** A second dashboard of [driver-1], opened at 2000 while [trip-1] is
    active, bus and route selected; [checkActiveTrip] has not answered. *)
Definition w_second : Driver.World :=
  Driver.mkWorld 2000 (Some "driver-1") true db1
    (Driver.mkState "bus-12" "route-1" None None 0) [] 1 None [].

(** [trip-1] once its driver has ended it at 6100, and the map view and
    the route list of a passenger who saw it at (40.0, -75.0). *)
Definition ended1 : Db.TripRow :=
  Db.mkTrip "trip-1" "bus-12" "route-1" "driver-1" Db.completed 1000 (Some 6100).

Definition view1 : list BusMap.BusLocation :=
  [BusMap.mkLoc "trip-1" "12" 4000000000 (-7500000000) "trip-1" "Downtown Loop"].

Definition list1 : list Passenger.ActiveBus :=
  [Passenger.mkBus "12" "Downtown Loop" "trip-1"].

Definition fix2 : Driver.Coords :=
  Driver.mkCoords 4001000000 (-7501000000) (JNum 1250) (JNum 9000) (JNum 500).

End Fixture.

(** ** What a session may touch *)

Module Session.

(** The trips of drivers other than [u]. *)
Definition others (u : string) (db : Db.t) : list Db.TripRow :=
  filter (λ tr, str_eq (Db.trip_driver_id tr) u = false) (Db.trips db).

(** Trip [tid] exists and belongs to [u]. *)
Definition owns (u : string) (db : Db.t) (tid : string) : bool :=
  existsb (λ tr, str_eq (Db.trip_id tr) tid && str_eq (Db.trip_driver_id tr) u)
    (Db.trips db).

(** Every event but a press on "End Trip". *)
Definition not_end (ev : Driver.Event) : Prop :=
  match ev with
  | Driver.ClickEnd _ _ => False
  | _ => True
  end.

(** The component holds a trip exactly when its one interval is set, and
    that interval's callback closed over the trip. *)
Definition one_interval (w : Driver.World) : Prop :=
  (Driver.activeTrip (Driver.state w) = None ∧ Driver.timers w = [])
  ∨ (∃ i d, Driver.timers w
            = [Driver.mkTimer i 5000 d (Driver.activeTrip (Driver.state w))]
            ∧ is_Some (Driver.activeTrip (Driver.state w))
            ∧ Driver.now w ≤ d ≤ Driver.now w + 5000).

End Session.

(** ** Accounts: the role enum, profiles and the signup trigger *)

Module Accounts.

(** [CREATE TYPE public.user_role AS ENUM ('passenger', 'driver', 'admin')]. *)
Inductive user_role : Type := passenger | driver | admin.

Definition role_label (r : user_role) : string :=
  match r with
  | passenger => "passenger"
  | driver => "driver"
  | admin => "admin"
  end.


Record Profile : Type := mkProfile {
  id : string;
  email : string;
  full_name : option string;
  phone : option string;
  role : user_role }.





(** [from('profiles').select('role').eq('id', uid).single()] under policy
    "Users can view own profile" ([auth.uid() = id]). *)
Definition select_role (caller : option string) (env : Db.Env) (uid : string)
    (profiles : list Profile) : Db.Reply string :=
  if Db.reachable env then
    Db.single
      ((λ p, role_label (role p))
         <$> filter (λ p, Db.is_caller caller (id p) && str_eq (id p) uid = true) profiles)
  else Db.Err Db.Unreachable.

End Accounts.

(** ** The authentication page *)

Module Auth.

(** [haystack.includes(needle)]. *)
Fixpoint includes (needle haystack : string) : bool :=
  if String.prefix needle haystack then true
  else match haystack with
       | EmptyString => false
       | String _ rest => includes needle rest
       end.

Record State : Type := mkState {
  loading : bool;
  loginEmail : string;
  loginPassword : string;
  signupEmail : string;
  signupPassword : string;
  signupFullName : string;
  signupRole : string }.

Definition setLoading (b : bool) (st : State) : State :=
  mkState b (loginEmail st) (loginPassword st) (signupEmail st) (signupPassword st)
    (signupFullName st) (signupRole st).

(** What a call of the authentication service comes back with: it throws,
    it returns an error with a message, or it succeeds. *)
Inductive Reply : Type :=
  | Threw
  | Failed (message : string)
  | Succeeded.

Inductive Output : Type :=
  | toast (t : Driver.Toast)
  | console_log (msg : string)
  | console_error (msg : string)
  | navigate (path : string)
  | signInWithPassword (email password : string)
  | signUp (email password full_name role emailRedirectTo : string).

Definition toast_login_missing : Driver.Toast :=
  Driver.mkToast "Missing Information" "Please enter both email and password." true.
Definition toast_login_invalid : Driver.Toast :=
  Driver.mkToast "Login Failed" "Invalid email or password. Please try again." true.
Definition toast_welcome_back : Driver.Toast :=
  Driver.mkToast "Welcome back!" "You have been successfully logged in." false.
Definition toast_unexpected : Driver.Toast :=
  Driver.mkToast "Error" "An unexpected error occurred. Please try again." true.

(** [handleLogin]; [reply] is what [signInWithPassword] comes back with. *)
Definition handleLogin (reply : Reply) (st : State) : State * list Output :=
  if str_falsy (loginEmail st) || str_falsy (loginPassword st) then
    (st, [toast toast_login_missing])
  else
    (setLoading false st,
     [console_log "🔐 Attempting login for:";
      signInWithPassword (loginEmail st) (loginPassword st)]
     ++ match reply with
        | Failed message =>
            [console_error "❌ Login error:";
             toast (if includes "Invalid login credentials" message
                    then toast_login_invalid
                    else Driver.mkToast "Login Failed" message true)]
        | Succeeded =>
            [console_log "✅ Login successful!"; toast toast_welcome_back;
             navigate "/dashboard"]
        | Threw =>
            [console_error "❌ Unexpected error:"; toast toast_unexpected]
        end).



(** The calls of the authentication service among the outputs. *)
Definition calls (outs : list Output) : list Output :=
  omap (λ o, match o with
             | signInWithPassword _ _ | signUp _ _ _ _ _ => Some o
             | _ => None
             end) outs.

End Auth.

(** ** The dashboard page *)

Module Dashboard.

(** [session.user]. *)
Record Session : Type := mkSession {
  user_id : string;
  user_email : option string }.

Record State : Type := mkState {
  loading : bool;
  userRole : option string;
  userEmail : option string }.

Definition initial : State := mkState true None None.

Inductive Output : Type :=
  | toast (t : Driver.Toast)
  | console_log (msg : string)
  | console_error (msg : string)
  | navigate (path : string).

Definition toast_profile_error : Driver.Toast :=
  Driver.mkToast "Error" "Could not load your profile. Please try again." true.
Definition toast_logout_error : Driver.Toast :=
  Driver.mkToast "Error" "Could not log out. Please try again." true.
Definition toast_logged_out : Driver.Toast :=
  Driver.mkToast "Logged out" "You have been successfully logged out." false.

(** [x || null] on an optional string. *)
Definition or_null (x : option string) : option string :=
  match x with
  | Some s => if str_falsy s then None else Some s
  | None => None
  end.

(** [checkAuth]; the profile query runs as the user of the session. *)
Definition checkAuth (session : option Session) (env : Db.Env)
    (profiles : list Accounts.Profile) (st : State) : State * list Output :=
  match session with
  | None =>
      (st, [console_log "🔐 Checking authentication...";
            console_log "❌ No session found, redirecting to auth...";
            navigate "/auth"])
  | Some s =>
      let st1 := mkState (loading st) (userRole st) (or_null (user_email s)) in
      match Accounts.select_role (Some (user_id s)) env (user_id s) profiles with
      | Db.Err _ =>
          (st1, [console_log "🔐 Checking authentication...";
                 console_log "✅ Session found for user:";
                 console_error "❌ Error fetching profile:";
                 toast toast_profile_error])
      | Db.Ok role =>
          (mkState false (Some role) (userEmail st1),
           [console_log "🔐 Checking authentication...";
            console_log "✅ Session found for user:";
            console_log "✅ User role:"])
      end
  end.

(** [handleLogout]; [signed_out] tells whether [signOut] returned without
    an error. *)
Definition handleLogout (signed_out : bool) : list Output :=
  if signed_out then
    [console_log "👋 Logging out..."; toast toast_logged_out; navigate "/auth"]
  else
    [console_log "👋 Logging out..."; console_error "❌ Logout error:";
     toast toast_logout_error].

(** What the page shows: the spinner while loading, else the header and,
    in [main], the dashboard of the role, the note "Unable to determine user
    role" for a missing role, or nothing. *)
Inductive View : Type :=
  | Spinner
  | PassengerDashboard
  | DriverDashboard
  | AdminDashboard
  | Undetermined
  | Blank.

Definition render (st : State) : View :=
  if loading st then Spinner
  else
    match userRole st with
    | None => Undetermined
    | Some role =>
        if str_eq role "passenger" then PassengerDashboard
        else if str_eq role "driver" then DriverDashboard
        else if str_eq role "admin" then AdminDashboard
        else if str_falsy role then Undetermined
        else Blank
    end.

Definition view_of (r : Accounts.user_role) : View :=
  match r with
  | Accounts.passenger => PassengerDashboard
  | Accounts.driver => DriverDashboard
  | Accounts.admin => AdminDashboard
  end.

End Dashboard.

(** * Properties *)

(** ** [findIndex] *)

Section FindIndex.
Context {A : Type} (p : A → bool).

Lemma findIndex_from_shift (l : list A) (i : Z) :
  findIndex_from p i l
  = if findIndex_from p 0 l <? 0 then -1 else i + findIndex_from p 0 l.
Proof.
  revert i. induction l as [|x l IH]; intros i; simpl.
  - reflexivity.
  - destruct (p x); simpl.
    + f_equal. lia.
    + rewrite (IH (i + 1)), (IH (0 + 1)).
      destruct (findIndex_from p 0 l <? 0) eqn:E; simpl; [reflexivity|].
      apply Z.ltb_ge in E.
      destruct (0 + 1 + findIndex_from p 0 l <? 0) eqn:E'; [apply Z.ltb_lt in E'; lia|].
      lia.
Qed.

Lemma findIndex_range (l : list A) :
  findIndex p l = -1 ∨ 0 ≤ findIndex p l < Z.of_nat (length l).
Proof.
  unfold findIndex. induction l as [|x l IH]; simpl.
  - by left.
  - destruct (p x); [right; lia|].
    rewrite findIndex_from_shift.
    destruct (findIndex_from p 0 l <? 0) eqn:E; [by left|].
    apply Z.ltb_ge in E. right. lia.
Qed.

Lemma findIndex_cons (x : A) (l : list A) :
  findIndex p (x :: l)
  = if p x then 0 else if findIndex p l <? 0 then -1 else 1 + findIndex p l.
Proof.
  unfold findIndex. simpl. destruct (p x); [reflexivity|].
  apply findIndex_from_shift.
Qed.

End FindIndex.

(** ** The live map: replace existing or add new *)

Section BusMapView.
Import BusMap.

Lemma setBusLocations_update_upsert newLoc prev :
  setBusLocations_update newLoc prev = upsert newLoc prev.
Proof.
  unfold setBusLocations_update.
  induction prev as [|loc rest IH]; [reflexivity|].
  rewrite findIndex_cons. simpl.
  destruct (str_eq (id loc) (id newLoc)); [reflexivity|].
  destruct (findIndex_range (λ loc0, str_eq (id loc0) (id newLoc)) rest) as [E|E].
  - rewrite E in *. simpl in *. by rewrite <- IH.
  - destruct (_ <? 0) eqn:E'; [apply Z.ltb_lt in E'; lia|].
    destruct (0 <=? _) eqn:E1 in IH; [|apply Z.leb_gt in E1; lia].
    destruct (0 <=? 1 + _) eqn:E2; [|apply Z.leb_gt in E2; lia].
    rewrite <- IH.
    replace (Z.to_nat (1 + findIndex (λ loc0, str_eq (id loc0) (id newLoc)) rest))
      with (S (Z.to_nat (findIndex (λ loc0, str_eq (id loc0) (id newLoc)) rest))) by lia.
    reflexivity.
Qed.

Lemma str_eq_true a b : str_eq a b = true ↔ a = b.
Proof. apply String.eqb_eq. Qed.

Lemma str_eq_false a b : str_eq a b = false ↔ a ≠ b.
Proof. apply String.eqb_neq. Qed.

Lemma str_eq_refl a : str_eq a a = true.
Proof. by apply str_eq_true. Qed.

Lemma entry_upsert_same newLoc prev :
  entry (id newLoc) (upsert newLoc prev) = Some newLoc.
Proof.
  unfold entry. induction prev as [|loc rest IH]; simpl.
  - by rewrite str_eq_refl.
  - destruct (str_eq (id loc) (id newLoc)) eqn:E; simpl.
    + by rewrite str_eq_refl.
    + by rewrite E.
Qed.

Lemma entry_upsert_other tid newLoc prev :
  id newLoc ≠ tid → entry tid (upsert newLoc prev) = entry tid prev.
Proof.
  intros Hne. unfold entry. induction prev as [|loc rest IH]; simpl.
  - apply str_eq_false in Hne. by rewrite Hne.
  - destruct (str_eq (id loc) (id newLoc)) eqn:E; simpl.
    + apply str_eq_true in E. rewrite E.
      apply str_eq_false in Hne. by rewrite Hne.
    + by rewrite IH.
Qed.

Lemma upsert_shape newLoc prev :
  (∃ k old, prev !! k = Some old ∧ id old = id newLoc
            ∧ upsert newLoc prev = <[k := newLoc]> prev)
  ∨ ((id newLoc ∉ id <$> prev) ∧ upsert newLoc prev = prev ++ [newLoc]).
Proof.
  induction prev as [|loc rest IH]; simpl.
  - right. split; [apply not_elem_of_nil | reflexivity].
  - destruct (str_eq (id loc) (id newLoc)) eqn:E.
    + apply str_eq_true in E. left. by exists 0%nat, loc.
    + apply str_eq_false in E.
      destruct IH as [(k & old & Hk & Hid & ->)|[Hnot ->]].
      * left. by exists (S k), old.
      * right. split; [|reflexivity].
        rewrite not_elem_of_cons. split; [congruence | done].
Qed.

Lemma upsert_ids_NoDup newLoc prev :
  NoDup (id <$> prev) → NoDup (id <$> upsert newLoc prev).
Proof.
  intros Hnd.
  destruct (upsert_shape newLoc prev) as [(k & old & Hk & Hid & ->)|[Hnot ->]].
  - rewrite list_fmap_insert, list_insert_id; [done|].
    by rewrite list_lookup_fmap, Hk, <- Hid.
  - rewrite fmap_app. apply NoDup_app. split; [done|]. split.
    + intros x Hx Hx'. apply list_elem_of_singleton in Hx'. simpl in Hx'. by subst.
    + apply NoDup_singleton.
Qed.

End BusMapView.

Section BusMapClaims.
Import BusMap.

Lemma entry_None tid view : entry tid view = None ↔ tid ∉ id <$> view.
Proof.
  unfold entry. induction view as [|loc rest IH]; simpl.
  - split; [intros _; apply not_elem_of_nil | done].
  - rewrite not_elem_of_cons. destruct (str_eq (id loc) tid) eqn:E.
    + apply str_eq_true in E. split; [done | intros [? _]; congruence].
    + apply str_eq_false in E. rewrite IH. split; [intros ?; split; [congruence | done] | tauto].
Qed.

Lemma on_gps_insert_found env db payload tripData prev :
  Db.select_trip_single env (Db.by_id (Db.gps_trip_id payload)) db = Db.Ok tripData →
  on_gps_insert env db payload prev = upsert (newLocation payload tripData) prev.
Proof.
  intros H. unfold on_gps_insert. rewrite H. apply setBusLocations_update_upsert.
Qed.

(** C3, as the spec states it, fails: with (40.0, -75.0) of time 2000
    stored for [trip-1], the handler applied to the sample (39.9, -74.9) of
    the earlier time 1500 stores the earlier sample. *)
Lemma older_sample_replaces_stored :
  Db.created_at Fixture.older < Db.created_at Fixture.newer
  ∧ entry "trip-1" (on_gps_insert (Fixture.env "none" 0) Fixture.db1 Fixture.newer [])
    = Some (mkLoc "trip-1" "12" 4000000000 (-7500000000) "trip-1" "Downtown Loop")
  ∧ entry "trip-1"
      (on_gps_insert (Fixture.env "none" 0) Fixture.db1 Fixture.older
         (on_gps_insert (Fixture.env "none" 0) Fixture.db1 Fixture.newer []))
    = Some (mkLoc "trip-1" "12" 3990000000 (-7490000000) "trip-1" "Downtown Loop").
Proof. split; [reflexivity|]. split; vm_compute; reflexivity. Qed.

(** C3, amended: the view keeps no timestamp and the handler compares none.
    For a trip present in the view, an applied sample replaces the stored
    location in place by the incoming one whatever its [created_at]; the
    view keeps its length and the entries of the other trips. *)
Theorem applied_sample_replaces_stored env db payload tripData prev :
  Db.select_trip_single env (Db.by_id (Db.gps_trip_id payload)) db = Db.Ok tripData →
  is_Some (entry (Db.gps_trip_id payload) prev) →
  entry (Db.gps_trip_id payload) (on_gps_insert env db payload prev)
  = Some (newLocation payload tripData)
  ∧ length (on_gps_insert env db payload prev) = length prev
  ∧ ∀ tid, tid ≠ Db.gps_trip_id payload →
           entry tid (on_gps_insert env db payload prev) = entry tid prev.
Proof.
  intros Hfound Hin. rewrite (on_gps_insert_found _ _ _ _ _ Hfound).
  split; [apply (entry_upsert_same (newLocation payload tripData))|]. split.
  - destruct (upsert_shape (newLocation payload tripData) prev)
      as [(k & old & Hk & Hid & ->)|[Hnot _]].
    + apply length_insert.
    + apply entry_None in Hnot. simpl in Hnot. rewrite Hnot in Hin. by destruct Hin.
  - intros tid Hne. apply entry_upsert_other. simpl. congruence.
Qed.

Lemma applied_sample_replaces_stored_witness :
  let stored := mkLoc "trip-1" "12" 4000000000 (-7500000000) "trip-1" "Downtown Loop" in
  Db.select_trip_single (Fixture.env "none" 0) (Db.by_id "trip-1") Fixture.db1
  = Db.Ok (Db.join Fixture.db1 Fixture.trip1)
  ∧ is_Some (entry "trip-1" [stored])
  ∧ entry "trip-1" (on_gps_insert (Fixture.env "none" 0) Fixture.db1 Fixture.older [stored])
    = Some (mkLoc "trip-1" "12" 3990000000 (-7490000000) "trip-1" "Downtown Loop").
Proof.
  intros stored.
  assert (H1 : Db.select_trip_single (Fixture.env "none" 0)
                 (Db.by_id (Db.gps_trip_id Fixture.older)) Fixture.db1
               = Db.Ok (Db.join Fixture.db1 Fixture.trip1)) by reflexivity.
  assert (H2 : is_Some (entry (Db.gps_trip_id Fixture.older) [stored]))
    by (eexists; reflexivity).
  split; [exact H1|]. split; [exact H2|].
  exact (proj1 (applied_sample_replaces_stored _ _ _ _ _ H1 H2)).
Defined.

(** ** Keys of the database *)

Lemma filter_by_id_single tid (l : list Db.TripRow) :
  NoDup (Db.trip_id <$> l) →
  existsb (λ tr, str_eq (Db.trip_id tr) tid) l = true →
  ∃ row, filter (λ tr, Db.by_id tid tr = true) l = [row] ∧ Db.trip_id row = tid.
Proof.
  induction l as [|tr l IH]; [done|]. rewrite fmap_cons. intros Hnd Hex.
  apply NoDup_cons in Hnd as [Hnotin Hnd]. simpl in Hex.
  rewrite filter_cons. case_decide as E.
  - apply str_eq_true in E.
    exists tr. split; [|done]. f_equal.
    destruct (filter _ l) as [|x rest] eqn:Ef; [done|]. exfalso.
    assert (Hx : x ∈ filter (λ tr0, Db.by_id tid tr0 = true) l)
      by (rewrite Ef; apply list_elem_of_here).
    apply list_elem_of_filter in Hx as [Hp Hx]. apply str_eq_true in Hp.
    apply Hnotin, list_elem_of_fmap. exists x. split; [congruence | done].
  - apply IH; [done|]. unfold Db.by_id in E.
    by destruct (str_eq (Db.trip_id tr) tid).
Qed.

(** With the keys in place, the trip of every stored sample is found. *)
Lemma delivered_applied ev : delivered ev → applied ev.
Proof.
  destruct ev as [[env db] [g| |]]; simpl; try done.
  intros (Hre & (Hpk & Hfk) & Hin).
  destruct (filter_by_id_single (Db.gps_trip_id g) (Db.trips db) Hpk (Hfk g Hin))
    as (row & Hrow & _).
  exists (Db.join db row).
  unfold Db.select_trip_single, Db.select_trips. by rewrite Hre, Hrow.
Qed.

Lemma insert_trip_wf caller env bus route driver st db data db' :
  Db.wf db →
  Db.insert_trip caller env bus route driver st db = Db.Ok (data, db') →
  Db.wf db'.
Proof.
  intros [Hpk Hfk] H. unfold Db.insert_trip in H.
  destruct (negb (Db.reachable env)); [done|].
  destruct (negb (Db.is_caller caller driver)); [done|].
  destruct (Db.has_trip db (Db.fresh_uuid env)) eqn:Hfresh; [done|].
  destruct (negb _); [done|]. inversion H; subst; clear H. split; simpl.
  - rewrite fmap_app. apply NoDup_app. split; [done|]. split; [|apply NoDup_singleton].
    intros x Hx Hx'. apply list_elem_of_singleton in Hx'. simpl in Hx'. subst x.
    unfold Db.has_trip in Hfresh.
    apply list_elem_of_fmap in Hx as (tr & Hid & Hin).
    assert (existsb (λ tr0, str_eq (Db.trip_id tr0) (Db.fresh_uuid env)) (Db.trips db)
            = true); [|congruence].
    apply existsb_exists. exists tr.
    split; [by apply list_elem_of_In | by apply str_eq_true].
  - intros g Hg. unfold Db.has_trip. simpl. rewrite existsb_app.
    apply orb_true_iff. left. by apply Hfk.
Qed.

Lemma update_trip_wf caller env tid st today db db' :
  Db.wf db → Db.update_trip caller env tid st today db = Db.Ok db' → Db.wf db'.
Proof.
  intros [Hpk Hfk] H. unfold Db.update_trip in H.
  destruct (negb (Db.reachable env)); [done|]. inversion H; subst; clear H.
  assert (Hids : ∀ l : list Db.TripRow,
             Db.trip_id
               <$> ((λ tr, if str_eq (Db.trip_id tr) tid
                              && Db.is_caller caller (Db.trip_driver_id tr)
                           then Db.mkTrip (Db.trip_id tr) (Db.trip_bus_id tr)
                                  (Db.trip_route_id tr) (Db.trip_driver_id tr) st
                                  (Db.started_at tr) (Some today)
                           else tr) <$> l)
             = Db.trip_id <$> l).
  { intros l. rewrite <- list_fmap_compose. apply list_fmap_ext. intros k tr _. simpl.
    by destruct (_ && _). }
  split; simpl.
  - by rewrite Hids.
  - intros g Hg. specialize (Hfk g Hg). unfold Db.has_trip in *. simpl.
    apply existsb_exists in Hfk as (tr & Hin & Hid).
    apply existsb_exists.
    eexists. split; [apply in_map, Hin|]. simpl.
    by destruct (_ && _).
Qed.

Lemma insert_gps_wf caller env tid lat lng spd hdg acc db db' :
  Db.wf db → Db.insert_gps caller env tid lat lng spd hdg acc db = Db.Ok db' → Db.wf db'.
Proof.
  intros [Hpk Hfk] H. unfold Db.insert_gps in H.
  destruct (negb (Db.reachable env)); [done|].
  destruct (negb (_ && _ && _ && _ && _)); [done|].
  destruct (negb (existsb _ (Db.trips db))) eqn:Hown; [done|].
  destruct (existsb _ (Db.gps_updates db)); [done|].
  inversion H; subst; clear H. split; simpl; [done|].
  intros g Hg. apply elem_of_app in Hg as [Hg|Hg]; [by apply Hfk|].
  apply list_elem_of_singleton in Hg. subst g. simpl. unfold Db.has_trip.
  apply negb_false_iff, existsb_exists in Hown as (tr & Hin & Htr).
  apply existsb_exists. exists tr. split; [done|]. by apply andb_prop in Htr as [? _].
Qed.

(** The entry of a trip after a sequence of deliveries is the location of
    its last applied sample, or the entry it had when none was applied. *)
Lemma deliver_entry tid evs view :
  entry tid (deliver evs view)
  = match last_location tid evs with
    | Some loc => Some loc
    | None => entry tid view
    end.
Proof.
  revert view. induction evs as [|[[env db] change] evs IH]; intros view; simpl.
  - reflexivity.
  - rewrite IH. destruct (last_location tid evs) as [loc|]; [reflexivity|].
    destruct change as [g| |]; simpl; try reflexivity.
    unfold on_gps_insert.
    destruct (str_eq (Db.gps_trip_id g) tid) eqn:E.
    + apply str_eq_true in E.
      destruct (Db.select_trip_single env (Db.by_id (Db.gps_trip_id g)) db) as [td|];
        [|reflexivity].
      rewrite setBusLocations_update_upsert. subst tid.
      apply (entry_upsert_same (newLocation g td)).
    + apply str_eq_false in E.
      destruct (Db.select_trip_single env (Db.by_id (Db.gps_trip_id g)) db) as [td|];
        [|reflexivity].
      rewrite setBusLocations_update_upsert. by apply entry_upsert_other.
Qed.

Lemma samples_of_cons tid ev evs :
  samples_of tid (ev :: evs)
  = match sample_for tid ev with
    | Some g => g :: samples_of tid evs
    | None => samples_of tid evs
    end.
Proof. reflexivity. Qed.

Lemma last_location_None tid evs :
  samples_of tid evs = [] → last_location tid evs = None.
Proof.
  induction evs as [|[[env db] change] evs IH]; [done|].
  rewrite samples_of_cons. simpl.
  destruct change as [g| |]; simpl.
  - destruct (str_eq (Db.gps_trip_id g) tid); [done|]. intros H. by rewrite IH.
  - intros H. by rewrite IH.
  - intros H. by rewrite IH.
Qed.

Lemma last_location_last tid evs sN :
  Forall applied evs →
  last (samples_of tid evs) = Some sN →
  ∃ tripData, last_location tid evs = Some (newLocation sN tripData).
Proof.
  induction evs as [|[[env db] change] evs IH]; intros Happ Hlast; [done|].
  apply Forall_cons in Happ as [Hev Happ].
  rewrite samples_of_cons in Hlast. simpl.
  destruct change as [g| |]; simpl in Hlast.
  - destruct (str_eq (Db.gps_trip_id g) tid) eqn:E.
    + rewrite last_cons in Hlast.
      destruct (last (samples_of tid evs)) as [s|] eqn:El.
      * destruct (IH Happ Hlast) as [td ->]. by exists td.
      * inversion Hlast; subst g.
        rewrite last_location_None; [|by apply last_None].
        destruct Hev as [td ->]. by exists td.
    + destruct (IH Happ Hlast) as [td ->]. by exists td.
  - destruct (IH Happ Hlast) as [td ->]. by exists td.
  - destruct (IH Happ Hlast) as [td ->]. by exists td.
Qed.

(** C6.  Samples [s1 .. sN] of one trip, accepted at increasing times, are
    delivered in that order, interleaved in any way with the changes of
    other trips, and each delivery is applied.  The view then holds for the
    trip the location of [sN]. *)
Theorem in_order_samples_end_at_last tid evs view sN :
  Sorted (λ a b, Db.created_at a < Db.created_at b) (samples_of tid evs) →
  last (samples_of tid evs) = Some sN →
  Forall applied evs →
  ∃ loc, entry tid (deliver evs view) = Some loc
         ∧ trip_id loc = tid
         ∧ latitude loc = Db.latitude sN
         ∧ longitude loc = Db.longitude sN.
Proof.
  intros _ Hlast Happ.
  destruct (last_location_last tid evs sN Happ Hlast) as [td Hloc].
  exists (newLocation sN td). rewrite deliver_entry, Hloc.
  split; [reflexivity|]. split; [|done]. simpl.
  assert (Hin : sN ∈ samples_of tid evs).
  { by apply last_Some_elem_of. }
  unfold samples_of in Hin. apply list_elem_of_omap in Hin as ([[env db] ch] & _ & Hs).
  destruct ch as [g| |]; simpl in Hs; try done.
  destruct (str_eq (Db.gps_trip_id g) tid) eqn:E; [|done].
  apply str_eq_true in E. by inversion Hs; subst.
Qed.

Lemma in_order_samples_end_at_last_witness :
  Sorted (λ a b, Db.created_at a < Db.created_at b)
    (samples_of "trip-1" Fixture.deliveries)
  ∧ last (samples_of "trip-1" Fixture.deliveries) = Some Fixture.newer
  ∧ Forall applied Fixture.deliveries
  ∧ ∃ loc, entry "trip-1" (deliver Fixture.deliveries []) = Some loc
           ∧ trip_id loc = "trip-1"
           ∧ latitude loc = 4000000000
           ∧ longitude loc = -7500000000.
Proof.
  assert (H1 : Sorted (λ a b, Db.created_at a < Db.created_at b)
                 (samples_of "trip-1" Fixture.deliveries)).
  { repeat constructor. }
  assert (H2 : last (samples_of "trip-1" Fixture.deliveries) = Some Fixture.newer)
    by reflexivity.
  assert (H3 : Forall applied Fixture.deliveries).
  { repeat constructor; eexists; reflexivity. }
  split; [exact H1|]. split; [exact H2|]. split; [exact H3|].
  exact (in_order_samples_end_at_last "trip-1" Fixture.deliveries [] Fixture.newer H1 H2 H3).
Defined.

Lemma on_change_ids_NoDup env db change prev :
  NoDup (id <$> prev) → NoDup (id <$> on_change env db change prev).
Proof.
  intros Hnd. destruct change as [g| |]; simpl; try done.
  unfold on_gps_insert.
  destruct (Db.select_trip_single env (Db.by_id (Db.gps_trip_id g)) db); [|done].
  rewrite setBusLocations_update_upsert. by apply upsert_ids_NoDup.
Qed.

Lemma deliver_ids_NoDup evs view :
  NoDup (id <$> view) → NoDup (id <$> deliver evs view).
Proof.
  revert view. induction evs as [|[[env db] change] evs IH]; intros view Hnd; [done|].
  simpl. apply IH. by apply on_change_ids_NoDup.
Qed.

Lemma NoDup_omap_ids {X Y K : Type} (f : X → option Y) (g : X → K) (h : Y → K) (l : list X) :
  (∀ x y, f x = Some y → h y = g x) →
  NoDup (g <$> l) → NoDup (h <$> omap f l).
Proof.
  intros Hfg. induction l as [|x l IH]; simpl; [done|].
  intros Hnd. apply NoDup_cons in Hnd as [Hx Hnd].
  destruct (f x) as [y|] eqn:E; simpl; [|by apply IH].
  apply NoDup_cons. split; [|by apply IH].
  intros Hin. apply Hx.
  apply list_elem_of_fmap in Hin as (y' & Hy' & Hin).
  apply list_elem_of_omap in Hin as (x' & Hx' & Hfx').
  apply list_elem_of_fmap. exists x'. split; [|done].
  rewrite <- (Hfg _ _ E), Hy'. by apply Hfg.
Qed.

(** The bootstrap view has one entry per trip when trip ids are unique
    (primary key of [trips]). *)
Lemma fetchBusLocations_ids_NoDup env gps_env db prev :
  NoDup (Db.trip_id <$> Db.trips db) →
  NoDup (id <$> prev) →
  NoDup (id <$> fetchBusLocations env gps_env db prev).
Proof.
  intros Hpk Hprev. unfold fetchBusLocations, Db.select_trips.
  destruct (Db.reachable env); [|done].
  destruct (Z.of_nat _ =? 0); [done|].
  apply (NoDup_omap_ids _ Db.j_id).
  - intros x y Hxy. destruct (Db.latest_gps _ _ _); [|done]. by inversion Hxy.
  - rewrite <- list_fmap_compose.
    apply (sublist_NoDup _ (Db.trip_id <$> Db.trips db)); [done|].
    apply (fmap_sublist Db.trip_id), sublist_filter.
Qed.

(** C10.  From a view without two entries of the same trip, the updater
    either replaces the entry of the incoming trip in place or appends one
    entry for a trip the view did not have, and neither that step nor any
    sequence of deliveries produces two entries of the same trip. *)
Theorem view_trip_ids_stay_unique prev :
  NoDup (id <$> prev) →
  (∀ newLoc,
      NoDup (id <$> setBusLocations_update newLoc prev)
      ∧ ((∃ k old, prev !! k = Some old ∧ id old = id newLoc
                   ∧ setBusLocations_update newLoc prev = <[k := newLoc]> prev)
         ∨ ((id newLoc ∉ id <$> prev)
            ∧ setBusLocations_update newLoc prev = prev ++ [newLoc])))
  ∧ ∀ evs, NoDup (id <$> deliver evs prev).
Proof.
  intros Hnd. split.
  - intros newLoc. rewrite setBusLocations_update_upsert.
    split; [by apply upsert_ids_NoDup | apply upsert_shape].
  - intros evs. by apply deliver_ids_NoDup.
Qed.

Lemma view_trip_ids_stay_unique_witness :
  NoDup (id <$> Fixture.view1)
  ∧ NoDup (id <$> setBusLocations_update (newLocation Fixture.other
                                             (Db.join Fixture.db2 Fixture.trip2))
                    Fixture.view1)
  ∧ NoDup (id <$> deliver Fixture.deliveries Fixture.view1).
Proof.
  assert (H : NoDup (id <$> Fixture.view1)) by (apply NoDup_singleton).
  split; [exact H|]. split.
  - exact (proj1 (proj1 (view_trip_ids_stay_unique Fixture.view1 H)
                    (newLocation Fixture.other (Db.join Fixture.db2 Fixture.trip2)))).
  - exact (proj2 (view_trip_ids_stay_unique Fixture.view1 H) Fixture.deliveries).
Defined.

End BusMapClaims.

(** ** Location ingest: the success callback *)

Section Ingest.
Import Driver.

Lemma on_position_accepted trip coords user env st db db' :
  Db.insert_gps user env (id trip) (latitude coords) (longitude coords)
    (or_zero (speed coords)) (or_zero (heading coords)) (or_zero (accuracy coords)) db
  = Db.Ok db' →
  on_position trip coords user env st db
  = (setGpsUpdateCount (λ prev, prev + 1) st, db',
     [console_log "📡 Sending GPS update:"; console_log "✅ GPS update sent successfully"])
  ∧ Db.gps_updates db'
    = Db.gps_updates db
      ++ [Db.mkGps (Db.fresh_uuid env) (id trip) (latitude coords) (longitude coords)
            (Some (or_zero (speed coords))) (Some (or_zero (heading coords)))
            (Some (or_zero (accuracy coords))) (Db.clock env)].
Proof.
  intros H. unfold on_position. rewrite H. split; [reflexivity|].
  unfold Db.insert_gps in H.
  repeat match type of H with
         | (if ?c then _ else _) = _ => destruct c; [discriminate|]
         end.
  by inversion H.
Qed.

Lemma on_position_rejected trip coords user env st db e :
  Db.insert_gps user env (id trip) (latitude coords) (longitude coords)
    (or_zero (speed coords)) (or_zero (heading coords)) (or_zero (accuracy coords)) db
  = Db.Err e →
  on_position trip coords user env st db
  = (st, db, [console_log "📡 Sending GPS update:";
              console_error "❌ Error sending GPS update:"]).
Proof. intros H. unfold on_position. by rewrite H. Qed.

(** C9.  When the submission is accepted, the persisted row is the last of
    [gps_updates], and it holds zero for each of speed, heading and
    accuracy that the position did not report. *)
Theorem absent_fields_stored_as_zero trip coords user env st db db' :
  Db.insert_gps user env (id trip) (latitude coords) (longitude coords)
    (or_zero (speed coords)) (or_zero (heading coords)) (or_zero (accuracy coords)) db
  = Db.Ok db' →
  (on_position trip coords user env st db).1.2 = db'
  ∧ ∃ row, Db.gps_updates db' = Db.gps_updates db ++ [row]
           ∧ Db.gps_trip_id row = id trip
           ∧ Db.latitude row = latitude coords
           ∧ Db.longitude row = longitude coords
           ∧ (speed coords = JNull → Db.speed row = Some 0)
           ∧ (heading coords = JNull → Db.heading row = Some 0)
           ∧ (accuracy coords = JNull → Db.accuracy row = Some 0).
Proof.
  intros H. destruct (on_position_accepted trip coords user env st db db' H) as [-> ->].
  split; [reflexivity|]. eexists. split; [reflexivity|]. simpl.
  repeat split; by intros ->.
Qed.

Lemma absent_fields_stored_as_zero_witness :
  Db.insert_gps (Some "driver-1") (Fixture.env "gps-1" 3000) "trip-1"
    4000000000 (-7500000000) 0 0 500 Fixture.db1
  = Db.Ok (Db.set_gps_updates Fixture.db1
             [Db.mkGps "gps-1" "trip-1" 4000000000 (-7500000000) (Some 0) (Some 0)
                (Some 500) 3000])
  ∧ ∃ row, [Db.mkGps "gps-1" "trip-1" 4000000000 (-7500000000) (Some 0) (Some 0)
              (Some 500) 3000] = [row]
           ∧ Db.speed row = Some 0 ∧ Db.heading row = Some 0.
Proof.
  assert (H : Db.insert_gps (Some "driver-1") (Fixture.env "gps-1" 3000)
                (id Fixture.active1) (latitude Fixture.fix1) (longitude Fixture.fix1)
                (or_zero (speed Fixture.fix1)) (or_zero (heading Fixture.fix1))
                (or_zero (accuracy Fixture.fix1)) Fixture.db1
              = Db.Ok (Db.set_gps_updates Fixture.db1
                         [Db.mkGps "gps-1" "trip-1" 4000000000 (-7500000000) (Some 0)
                            (Some 0) (Some 500) 3000])) by reflexivity.
  split; [exact H|].
  destruct (absent_fields_stored_as_zero Fixture.active1 Fixture.fix1 (Some "driver-1")
              (Fixture.env "gps-1" 3000) Fixture.st1 Fixture.db1 _ H)
    as (_ & row & Hrow & _ & _ & _ & Hs & Hh & _).
  exists row. split; [exact Hrow|]. split; [by apply Hs | by apply Hh].
Defined.

(** C4, as the spec states it, fails: a fix at latitude 95 degrees, outside
    [-90, 90], submitted for the driver's active trip is persisted and
    reported as sent. *)
Lemma latitude_95_is_stored :
  90 * 10 ^ 8 < latitude Fixture.fix95
  ∧ on_position Fixture.active1 Fixture.fix95 (Some "driver-1")
      (Fixture.env "gps-9" 3000) Fixture.st1 Fixture.db1
    = (Driver.mkState "bus-12" "route-1" (Some Fixture.active1) (Some 1) 1,
       Db.set_gps_updates Fixture.db1
         [Db.mkGps "gps-9" "trip-1" 9500000000 0 (Some 0) (Some 0) (Some 500) 3000],
       [console_log "📡 Sending GPS update:";
        console_log "✅ GPS update sent successfully"]).
Proof. split; [reflexivity | vm_compute; reflexivity]. Qed.

(** C4, amended: there is no [ValidationError] and no range check.  A
    sample is persisted whenever its values fit their columns (latitude below
    100 degrees and longitude below 1000 degrees in absolute value) and the
    request is otherwise acceptable: it reaches the server, the trip belongs
    to the caller and the row id is new.  A latitude or longitude beyond its
    column is rejected by the database; the error is logged and nothing is
    persisted. *)
Theorem coordinates_bounded_by_columns_only trip coords user env st db :
  (Z.abs (latitude coords) < 10 ^ 10 →
   Z.abs (longitude coords) < 10 ^ 11 →
   Z.abs (or_zero (speed coords)) < 10 ^ 5 →
   Z.abs (or_zero (heading coords)) < 10 ^ 5 →
   Z.abs (or_zero (accuracy coords)) < 10 ^ 6 →
   Db.reachable env = true →
   existsb (λ tr, str_eq (Db.trip_id tr) (id trip)
                  && Db.is_caller user (Db.trip_driver_id tr)) (Db.trips db) = true →
   existsb (λ g, str_eq (Db.gps_id g) (Db.fresh_uuid env)) (Db.gps_updates db) = false →
   on_position trip coords user env st db
   = (setGpsUpdateCount (λ prev, prev + 1) st,
      Db.set_gps_updates db
        (Db.gps_updates db
         ++ [Db.mkGps (Db.fresh_uuid env) (id trip) (latitude coords) (longitude coords)
               (Some (or_zero (speed coords))) (Some (or_zero (heading coords)))
               (Some (or_zero (accuracy coords))) (Db.clock env)]),
      [console_log "📡 Sending GPS update:";
       console_log "✅ GPS update sent successfully"]))
  ∧ (10 ^ 10 ≤ Z.abs (latitude coords) ∨ 10 ^ 11 ≤ Z.abs (longitude coords) →
     on_position trip coords user env st db
     = (st, db, [console_log "📡 Sending GPS update:";
                 console_error "❌ Error sending GPS update:"])).
Proof.
  split.
  - intros Hlat Hlng Hs Hh Ha Hr Hown Hnew.
    unfold on_position, Db.insert_gps, Db.numeric_fits.
    rewrite Hr, Hown, Hnew. simpl.
    apply Z.ltb_lt in Hlat, Hlng, Hs, Hh, Ha.
    by rewrite Hlat, Hlng, Hs, Hh, Ha.
  - intros Hout. unfold on_position, Db.insert_gps, Db.numeric_fits.
    destruct (Db.reachable env); simpl; [|reflexivity].
    assert (E : (Z.abs (latitude coords) <? 10 ^ 10)
                && (Z.abs (longitude coords) <? 10 ^ 11) = false).
    { apply andb_false_iff. destruct Hout as [H|H]; [left|right]; by apply Z.ltb_ge. }
    rewrite E. reflexivity.
Qed.

Lemma coordinates_bounded_by_columns_only_witness :
  Z.abs 9500000000 < 10 ^ 10
  ∧ on_position Fixture.active1 Fixture.fix95 (Some "driver-1")
      (Fixture.env "gps-9" 3000) Fixture.st1 Fixture.db1
    = (Driver.mkState "bus-12" "route-1" (Some Fixture.active1) (Some 1) 1,
       Db.set_gps_updates Fixture.db1
         [Db.mkGps "gps-9" "trip-1" 9500000000 0 (Some 0) (Some 0) (Some 500) 3000],
       [console_log "📡 Sending GPS update:";
        console_log "✅ GPS update sent successfully"]).
Proof.
  split; [reflexivity|].
  refine (proj1 (coordinates_bounded_by_columns_only Fixture.active1 Fixture.fix95
                   (Some "driver-1") (Fixture.env "gps-9" 3000) Fixture.st1 Fixture.db1)
            _ _ _ _ _ _ _ _); reflexivity.
Defined.

End Ingest.

(** ** The sampling scheduler *)

Section Scheduler.
Import Driver.

Lemma clearInterval_only i p d c w :
  timers w = [mkTimer i p d c] → timers (clearInterval i w) = [].
Proof.
  intros H. unfold clearInterval. simpl. rewrite H.
  rewrite filter_cons, decide_False; [done|]. simpl. by intros ?.
Qed.

Lemma clearInterval_none i w : timers w = [] → timers (clearInterval i w) = [].
Proof. intros H. unfold clearInterval. simpl. by rewrite H. Qed.

(** The effect, run for a component that holds [trip] while no timer other
    than the one its cleanup clears is set: it sets the 5000 ms interval and
    calls [sendGPSUpdate] at once. *)
Lemma tracking_effect_starts w trip :
  activeTrip (state w) = Some trip →
  0 < next_timer_id w →
  timers w = [] ∨ (∃ i p d c, timers w = [mkTimer i p d c] ∧ cleanup w = Some i ∧ 0 < i) →
  ∃ w', tracking_effect w
        = (w', console_log "📍 Starting GPS tracking..."
               :: sendGPSUpdate (Some trip) (geolocation w))
        ∧ tracking w' trip (now w + 5000)
        ∧ now w' = now w ∧ db w' = db w ∧ user w' = user w
        ∧ geolocation w' = geolocation w
        ∧ inflight w'
          = inflight w ++ requested (sendGPSUpdate (Some trip) (geolocation w)).
Proof.
  intros Hact Hid Htm.
  set (w1 := match cleanup w with
             | Some interval => if truthy interval then clearInterval interval w else w
             | None => w
             end).
  assert (H1 : timers w1 = [] ∧ state w1 = state w ∧ now w1 = now w ∧ db w1 = db w
               ∧ user w1 = user w ∧ geolocation w1 = geolocation w
               ∧ next_timer_id w1 = next_timer_id w ∧ inflight w1 = inflight w).
  { subst w1. destruct Htm as [Hnil|(i & p & d & c & Htm & Hc & Hi)].
    - destruct (cleanup w) as [j|]; [destruct (truthy j)|];
        rewrite ?clearInterval_none; done.
    - rewrite Hc. unfold truthy. destruct (i =? 0) eqn:E; [apply Z.eqb_eq in E; lia|].
      cbn [negb]. by rewrite (clearInterval_only i p d c w Htm). }
  destruct H1 as (Ht & Hs & Hn & Hd & Hu & Hg & Hnx & Hin).
  unfold tracking_effect. fold w1. rewrite Hs, Hact.
  unfold setInterval. simpl. rewrite Ht, Hs, Hn, Hd, Hu, Hg, Hnx, Hin. simpl.
  eexists. split; [reflexivity|]. split.
  - unfold tracking. simpl. split; [done|]. split; [lia|].
    exists (next_timer_id w). repeat split; try done; lia.
  - simpl. by repeat split.
Qed.

(** The effect, run for a component that holds no trip while the timer of
    the previous run is set: the timer is cleared. *)
Lemma tracking_effect_stops w i p d c :
  activeTrip (state w) = None →
  timers w = [mkTimer i p d c] → cleanup w = Some i → 0 < i < next_timer_id w →
  ∃ w', tracking_effect w = (w', [])
        ∧ idle w'
        ∧ now w' = now w ∧ db w' = db w ∧ user w' = user w
        ∧ geolocation w' = geolocation w ∧ inflight w' = inflight w.
Proof.
  intros Hact Htm Hc Hi. unfold tracking_effect. rewrite Hc.
  unfold truthy. destruct (i =? 0) eqn:E; [apply Z.eqb_eq in E; lia|]. simpl.
  rewrite Hact.
  pose proof (clearInterval_only i p d c w Htm) as Hcl.
  destruct (gpsInterval (state w)) as [g|]; [destruct (negb (g =? 0))|];
    (eexists; split; [reflexivity|]); unfold idle; simpl;
    rewrite ?Hact; repeat split; try done; try lia.
  - unfold clearInterval in Hcl. simpl in Hcl. by rewrite Hcl.
Qed.

Lemma insert_gps_trips caller env tid lat lng spd hdg acc db db' :
  Db.insert_gps caller env tid lat lng spd hdg acc db = Db.Ok db' →
  Db.trips db' = Db.trips db.
Proof.
  unfold Db.insert_gps. intros H.
  repeat match type of H with
         | (if ?c then _ else _) = _ => destruct c; [discriminate|]
         end.
  by inversion H.
Qed.

Lemma on_position_quiet trip coords user env st db st' db' outs :
  on_position trip coords user env st db = (st', db', outs) →
  activeTrip st' = activeTrip st ∧ gpsInterval st' = gpsInterval st
  ∧ Db.trips db' = Db.trips db ∧ requested outs = [].
Proof.
  unfold on_position. intros H.
  destruct (Db.insert_gps _ _ _ _ _ _ _ _ _) as [d|e] eqn:E; inversion H; subst.
  - repeat split; try done. by apply insert_gps_trips in E.
  - by repeat split.
Qed.

Lemma requests_app tr1 tr2 : requests (tr1 ++ tr2) = requests tr1 ++ requests tr2.
Proof. apply omap_app. Qed.

Lemma requests_none (t : Z) outs :
  requested outs = [] → requests ((λ o, (t, o)) <$> outs) = [].
Proof.
  induction outs as [|o outs IH]; [done|]. simpl.
  destruct o; simpl; done.
Qed.

(** One turn of the loop while tracking: every quiet event leaves the timer
    as it is, except the tick itself, which happens exactly when the timer
    is due, requests a position for the trip and moves the timer on by
    5000 ms. *)
Lemma quiet_step w trip d ev w' outs :
  tracking w trip d → geolocation w = true → quiet ev →
  step ev w = Some (w', outs) →
  geolocation w' = true ∧ user w' = user w ∧ Db.trips (db w') = Db.trips (db w)
  ∧ ((tracking w' trip d ∧ requested outs = [])
     ∨ (ev = TimerFires ∧ now w' = d
        ∧ outs = [getCurrentPosition trip geo_options]
        ∧ tracking w' trip (d + 5000))).
Proof.
  intros (Hact & Hnow & i & Hi & Htm & Hc & Hg) Hgeo Hq Hstep.
  destruct ev as [env|bus|route|env|env today|ms| |k coords env|k]; simpl in Hq; try done.
  - (* SelectBus *)
    inversion Hstep; subst; clear Hstep. simpl.
    repeat split; try done. left. split; [|done].
    unfold tracking. simpl. split; [done|]. split; [done|]. by exists i.
  - (* SelectRoute *)
    inversion Hstep; subst; clear Hstep. simpl.
    repeat split; try done. left. split; [|done].
    unfold tracking. simpl. split; [done|]. split; [done|]. by exists i.
  - (* Elapse *)
    simpl in Hstep. rewrite Htm in Hstep. simpl in Hstep.
    destruct (0 <=? ms) eqn:E1; [|done]. destruct (now w + ms <=? d) eqn:E2; [|done].
    simpl in Hstep. inversion Hstep; subst; clear Hstep. simpl.
    repeat split; try done. left. split; [|done].
    unfold tracking. simpl. split; [done|]. split; [by apply Z.leb_le|]. by exists i.
  - (* TimerFires *)
    simpl in Hstep. rewrite Htm in Hstep. simpl in Hstep.
    destruct (d =? now w) eqn:E; [|done]. apply Z.eqb_eq in E.
    simpl in Hstep. rewrite Z.eqb_refl, Hgeo in Hstep.
    inversion Hstep; subst; clear Hstep. simpl.
    split; [done|]. split; [done|]. split; [done|].
    right. split; [done|]. split; [done|]. split; [done|].
    unfold tracking. simpl. split; [done|]. split; [lia|]. by exists i.
  - (* PositionArrives *)
    simpl in Hstep. destruct (inflight w !! k) as [lost|]; [|done].
    destruct (on_position lost coords (user w) env (state w) (db w))
      as [[st' db'] outs'] eqn:E.
    apply on_position_quiet in E as (Ha & Hgi & Htr & Hreq).
    inversion Hstep; subst; clear Hstep. simpl.
    repeat split; try done. left. split; [|done].
    unfold tracking. simpl. split; [congruence|]. split; [done|].
    exists i. repeat split; try done; try lia. congruence.
  - (* PositionFails *)
    simpl in Hstep. destruct (inflight w !! k) as [lost|]; [|done].
    inversion Hstep; subst; clear Hstep. simpl.
    repeat split; try done. left. split; [|done].
    unfold tracking. simpl. split; [done|]. split; [done|]. by exists i.
Qed.

(** Any quiet run while tracking: the positions requested are those of the
    ticks at [d], [d + 5000], ..., one per period with none missing, each for
    the trip and with the options of [sendGPSUpdate]. *)
Lemma quiet_run trip evs :
  ∀ w d w' tr,
    tracking w trip d → geolocation w = true → Forall quiet evs →
    run evs w = Some (w', tr) →
    ∃ m, tracking w' trip (d + 5000 * Z.of_nat m)
         ∧ requests tr = (λ t, (t, trip, geo_options)) <$> every 5000 d m
         ∧ geolocation w' = true ∧ user w' = user w
         ∧ Db.trips (db w') = Db.trips (db w).
Proof.
  induction evs as [|ev evs IH]; intros w d w' tr Htr Hgeo Hq Hrun.
  - inversion Hrun; subst. exists 0%nat. rewrite Z.mul_0_r, Z.add_0_r.
    split; [done|]. by repeat split.
  - apply Forall_cons in Hq as [Hq Hqs]. simpl in Hrun.
    destruct (step ev w) as [[w1 outs]|] eqn:Hstep; [|done].
    destruct (run evs w1) as [[w2 tr2]|] eqn:Hrun2; [|done].
    inversion Hrun; subst; clear Hrun.
    destruct (quiet_step w trip d ev w1 outs Htr Hgeo Hq Hstep)
      as (Hgeo1 & Hu1 & Hdb1 & [[Htr1 Hreq]|(-> & Hn1 & -> & Htr1)]).
    + destruct (IH w1 d w' tr2 Htr1 Hgeo1 Hqs Hrun2) as (m & Hm & Hreqs & ? & ? & ?).
      exists m. rewrite requests_app, (requests_none _ _ Hreq). simpl.
      split; [done|]. repeat split; try done; congruence.
    + destruct (IH w1 (d + 5000) w' tr2 Htr1 Hgeo1 Hqs Hrun2) as (m & Hm & Hreqs & ? & ? & ?).
      exists (S m). rewrite requests_app. simpl. rewrite Hn1.
      replace (d + 5000 * Z.of_nat (S m)) with (d + 5000 + 5000 * Z.of_nat m) by lia.
      split; [done|]. split; [|repeat split; try done; congruence].
      by rewrite Hreqs.
Qed.

Lemma insert_trip_Ok caller env bus route driver st db data db' :
  Db.insert_trip caller env bus route driver st db = Db.Ok (data, db') →
  let row := Db.mkTrip (Db.fresh_uuid env) bus route driver st (Db.clock env) None in
  db' = Db.set_trips db (Db.trips db ++ [row])
  ∧ data = Db.join db' row
  ∧ Db.has_trip db (Db.fresh_uuid env) = false
  ∧ Db.is_caller caller driver = true.
Proof.
  unfold Db.insert_trip. intros H.
  destruct (Db.reachable env); [|done]. simpl in H.
  destruct (Db.is_caller caller driver); [|done]. simpl in H.
  destruct (Db.has_trip db (Db.fresh_uuid env)); [done|].
  destruct (negb _); [done|]. by inversion H.
Qed.

Lemma handleStartTrip_cases user env st db st' db' outs :
  handleStartTrip user env st db = (st', db', outs) →
  (st' = st ∧ db' = db ∧ toast toast_trip_started ∉ outs)
  ∨ (∃ u data,
        user = Some u
        ∧ Db.insert_trip user env (selectedBus st) (selectedRoute st) u Db.active db
          = Db.Ok (data, db')
        ∧ st' = setActiveTrip (Some (toActiveTrip data)) st
        ∧ outs = [console_log "🚀 Starting new trip..."; toast toast_trip_started]).
Proof.
  unfold handleStartTrip. intros H.
  destruct (str_falsy (selectedBus st) || str_falsy (selectedRoute st)).
  { inversion H; subst. left. repeat split; try done.
    intros Hin. apply list_elem_of_singleton in Hin. discriminate. }
  destruct user as [u|].
  2:{ inversion H; subst. left. repeat split; try done. apply not_elem_of_nil. }
  destruct (Db.insert_trip _ _ _ _ _ _ _) as [[data d]|e] eqn:E.
  - inversion H; subst. right. by exists u, data.
  - inversion H; subst. left. repeat split; try done.
    rewrite !not_elem_of_cons. repeat split; try discriminate. apply not_elem_of_nil.
Qed.

(** Pressing "Start Trip" on an idle dashboard: when the trip is started,
    the effect runs in the same turn. *)
Lemma click_start_idle w env w' outs trip :
  idle w →
  step (ClickStart env) w = Some (w', outs) →
  activeTrip (state w') = Some trip →
  tracking w' trip (now w + 5000)
  ∧ now w' = now w ∧ user w' = user w ∧ geolocation w' = geolocation w
  ∧ outs = [console_log "🚀 Starting new trip..."; toast toast_trip_started;
            console_log "📍 Starting GPS tracking..."]
           ++ sendGPSUpdate (Some trip) (geolocation w)
  ∧ ∃ u data,
      user w = Some u
      ∧ Db.insert_trip (user w) env (selectedBus (state w)) (selectedRoute (state w)) u
          Db.active (db w) = Db.Ok (data, db w')
      ∧ trip = toActiveTrip data.
Proof.
  intros (Hact & Htm & Hid) Hstep Htrip. simpl in Hstep.
  unfold start_form_rendered in Hstep. rewrite Hact in Hstep.
  cbn [andb] in Hstep. destruct (negb (start_disabled (state w))); [|done].
  destruct (handleStartTrip (user w) env (state w) (db w)) as [[st' db'] outs0] eqn:E.
  destruct (handleStartTrip_cases _ _ _ _ _ _ _ E)
    as [(-> & -> & _)|(u & data & Hu & Hins & -> & ->)].
  - rewrite Hact in Hstep. inversion Hstep; subst. simpl in Htrip. congruence.
  - simpl in Hstep. unfold after_setActiveTrip in Hstep.
    destruct (tracking_effect_starts
                (set_db db' (set_state (setActiveTrip (Some (toActiveTrip data)) (state w)) w))
                (toActiveTrip data)) as (w1 & Heff & Htr & Hn & Hd & Hus & Hg & _);
      [done | done | by left |].
    rewrite Heff in Hstep. inversion Hstep; subst; clear Hstep.
    destruct Htr as (Ha & Hrest). rewrite Ha in Htrip. inversion Htrip; subst.
    simpl in *. split; [by split|]. repeat split; try done.
    exists u, data. by rewrite Hd.
Qed.

(** While tracking, the timer's next tick can always happen: time reaches
    its due date and the callback requests a position. *)
Lemma tracking_tick w trip d :
  tracking w trip d → geolocation w = true →
  ∃ w1 w2, step (Elapse (d - now w)) w = Some (w1, [])
           ∧ step TimerFires w1 = Some (w2, [getCurrentPosition trip geo_options])
           ∧ now w2 = d
           ∧ tracking w2 trip (d + 5000) ∧ geolocation w2 = true.
Proof.
  intros (Hact & Hnow & i & Hi & Htm & Hc & Hg) Hgeo.
  eexists. eexists. split; [|split].
  - simpl. rewrite Htm. simpl.
    replace (0 <=? d - now w) with true by (symmetry; apply Z.leb_le; lia).
    replace (now w + (d - now w) <=? d) with true by (symmetry; apply Z.leb_le; lia).
    reflexivity.
  - simpl. rewrite Htm. simpl.
    replace (d =? now w + (d - now w)) with true by (symmetry; apply Z.eqb_eq; lia).
    simpl. rewrite Z.eqb_refl, Hgeo. reflexivity.
  - simpl. split; [lia|]. split; [|done].
    unfold tracking. simpl. split; [done|]. split; [lia|]. by exists i.
Qed.

Lemma ticks_run trip n :
  ∀ w d, tracking w trip d → d = now w + 5000 → geolocation w = true →
         ∃ w' tr, run (ticks n) w = Some (w', tr)
                  ∧ requests tr = (λ t, (t, trip, geo_options)) <$> every 5000 d n.
Proof.
  induction n as [|n IH]; intros w d Htr Hd Hgeo.
  - by exists w, [].
  - destruct (tracking_tick w trip d Htr Hgeo) as (w1 & w2 & H1 & H2 & Hn2 & Htr2 & Hgeo2).
    destruct (IH w2 (d + 5000) Htr2 ltac:(lia) Hgeo2) as (w' & tr & Hrun & Hreq).
    replace (d - now w) with 5000 in H1 by lia.
    exists w'. eexists. cbn [ticks run]. rewrite H1. cbn [run]. rewrite H2, Hrun.
    split; [reflexivity|]. simpl. rewrite Hn2. by rewrite Hreq.
Qed.

(** C7.  A trip started from an idle dashboard of a device with
    geolocation: the first position is requested in the turn that starts
    the trip; every request carries [timeout = 5000] and [maximumAge = 0];
    the interval is 5000 ms.  As long as the trip is neither ended nor the
    component remounted, whatever else happens, the later requests are
    those of the ticks 5000, 10000, ... ms after the start, none missing;
    and each of these ticks does happen. *)
Theorem scheduler_fires_every_5_seconds w env w0 outs trip :
  idle w → geolocation w = true →
  step (ClickStart env) w = Some (w0, outs) →
  activeTrip (state w0) = Some trip →
  now w0 = now w
  ∧ requests ((λ o, (now w0, o)) <$> outs) = [(now w, trip, geo_options)]
  ∧ timeout geo_options = 5000 ∧ maximumAge geo_options = 0
  ∧ (∃ i, timers w0 = [mkTimer i 5000 (now w + 5000) (Some trip)])
  ∧ (∀ evs w' tr,
        Forall quiet evs → run evs w0 = Some (w', tr) →
        ∃ m, requests tr
             = (λ t, (t, trip, geo_options)) <$> every 5000 (now w + 5000) m
             ∧ now w' ≤ now w + 5000 + 5000 * Z.of_nat m)
  ∧ ∀ n, ∃ w' tr,
        run (ticks n) w0 = Some (w', tr)
        ∧ requests tr = (λ t, (t, trip, geo_options)) <$> every 5000 (now w + 5000) n.
Proof.
  intros Hidle Hgeo Hstep Htrip.
  destruct (click_start_idle w env w0 outs trip Hidle Hstep Htrip)
    as (Htr & Hn & Hu & Hg & -> & _).
  split; [done|]. split; [by rewrite Hn, Hgeo|]. split; [done|]. split; [done|].
  split; [|split].
  - destruct Htr as (_ & _ & i & _ & Htm & _). by exists i.
  - intros evs w' tr Hq Hrun.
    destruct (quiet_run trip evs w0 (now w + 5000) w' tr Htr ltac:(congruence) Hq Hrun)
      as (m & (_ & Hle & _) & Hreq & _).
    exists m. split; [done | lia].
  - intros n. apply ticks_run; [done | lia | congruence].
Qed.

(** C8.  While tracking, a position request that fails is reported by the
    destructive toast "Location Error" and changes nothing else: the timer
    stays set with its due date, time reaches it, and the next tick fires
    and requests a position. *)
Theorem failed_fix_keeps_scheduler_running w trip d k lost :
  tracking w trip d → geolocation w = true →
  inflight w !! k = Some lost →
  ∃ w1, step (PositionFails k) w
        = Some (w1, [console_error "❌ Geolocation error:"; toast toast_location_error])
        ∧ destructive toast_location_error = true
        ∧ state w1 = state w ∧ timers w1 = timers w ∧ now w1 = now w
        ∧ tracking w1 trip d
        ∧ ∃ w2 w3, step (Elapse (d - now w1)) w1 = Some (w2, [])
                   ∧ step TimerFires w2 = Some (w3, [getCurrentPosition trip geo_options])
                   ∧ now w3 = d.
Proof.
  intros Htr Hgeo Hk.
  assert (Hstep : step (PositionFails k) w
                  = Some (set_inflight (delete k (inflight w)) (set_state (state w) w),
                          [console_error "❌ Geolocation error:";
                           toast toast_location_error])).
  { simpl. by rewrite Hk. }
  eexists. split; [exact Hstep|]. split; [done|]. split; [done|]. split; [done|].
  split; [done|].
  destruct (quiet_step w trip d (PositionFails k) _ _ Htr Hgeo I Hstep)
    as (Hgeo1 & _ & _ & [[Htr1 _]|(? & _)]); [|done].
  split; [done|].
  destruct (tracking_tick _ trip d Htr1 Hgeo1) as (w2 & w3 & H2 & H3 & Hn3 & _).
  by exists w2, w3.
Qed.

Lemma scheduler_fires_every_5_seconds_witness :
  idle Fixture.w_idle
  ∧ geolocation Fixture.w_idle = true
  ∧ step (ClickStart (Fixture.env "trip-1" 1000)) Fixture.w_idle
    = Some (Fixture.w_started,
            [console_log "🚀 Starting new trip..."; toast toast_trip_started;
             console_log "📍 Starting GPS tracking...";
             getCurrentPosition Fixture.active1 geo_options])
  ∧ activeTrip (state Fixture.w_started) = Some Fixture.active1
  ∧ ∃ w' tr, run (ticks 3) Fixture.w_started = Some (w', tr)
             ∧ requests tr = [(6000, Fixture.active1, geo_options);
                              (11000, Fixture.active1, geo_options);
                              (16000, Fixture.active1, geo_options)].
Proof.
  assert (H1 : idle Fixture.w_idle) by (repeat split; reflexivity).
  assert (H2 : geolocation Fixture.w_idle = true) by reflexivity.
  assert (H3 : step (ClickStart (Fixture.env "trip-1" 1000)) Fixture.w_idle
               = Some (Fixture.w_started,
                       [console_log "🚀 Starting new trip..."; toast toast_trip_started;
                        console_log "📍 Starting GPS tracking...";
                        getCurrentPosition Fixture.active1 geo_options]))
    by (vm_compute; reflexivity).
  assert (H4 : activeTrip (state Fixture.w_started) = Some Fixture.active1)
    by (vm_compute; reflexivity).
  split; [exact H1|]. split; [exact H2|]. split; [exact H3|]. split; [exact H4|].
  exact (proj2 (proj2 (proj2 (proj2 (proj2 (proj2
           (scheduler_fires_every_5_seconds _ _ _ _ _ H1 H2 H3 H4)))))) 3%nat).
Defined.

Lemma failed_fix_keeps_scheduler_running_witness :
  tracking Fixture.w_started Fixture.active1 6000
  ∧ geolocation Fixture.w_started = true
  ∧ inflight Fixture.w_started !! 0%nat = Some Fixture.active1
  ∧ ∃ w1, step (PositionFails 0) Fixture.w_started
          = Some (w1, [console_error "❌ Geolocation error:"; toast toast_location_error])
          ∧ ∃ w2 w3, step (Elapse (6000 - now w1)) w1 = Some (w2, [])
                     ∧ step TimerFires w2
                       = Some (w3, [getCurrentPosition Fixture.active1 geo_options])
                     ∧ now w3 = 6000.
Proof.
  assert (H1 : tracking Fixture.w_started Fixture.active1 6000).
  { split; [reflexivity|]. split; [by vm_compute|].
    exists 1. repeat split; reflexivity. }
  assert (H2 : geolocation Fixture.w_started = true) by reflexivity.
  assert (H3 : inflight Fixture.w_started !! 0%nat = Some Fixture.active1) by reflexivity.
  split; [exact H1|]. split; [exact H2|]. split; [exact H3|].
  destruct (failed_fix_keeps_scheduler_running _ _ _ _ _ H1 H2 H3)
    as (w1 & Hs & _ & _ & _ & _ & _ & Hnext).
  exists w1. split; [exact Hs | exact Hnext].
Defined.

End Scheduler.

(** ** The trip lifecycle *)

Section Lifecycle.
Import Driver.

Lemma handleEndTrip_cases user env today st db trip st' db' outs :
  activeTrip st = Some trip →
  handleEndTrip user env today st db = (st', db', outs) →
  (st' = st ∧ db' = db
   ∧ outs = [console_log "🛑 Ending trip..."; console_error "❌ Error ending trip:";
             toast toast_end_error])
  ∨ (Db.update_trip user env (id trip) Db.completed today db = Db.Ok db'
     ∧ st' = setGpsUpdateCount (λ _, 0) (setActiveTrip None st)
     ∧ outs = [console_log "🛑 Ending trip..."; toast toast_trip_completed]).
Proof.
  unfold handleEndTrip. intros -> H.
  destruct (Db.update_trip _ _ _ _ _ _) as [d|e]; inversion H; subst; [by right | by left].
Qed.

(** Pressing "End Trip" while tracking: when the trip is ended, the effect
    clears the timer in the same turn. *)
Lemma click_end_tracking w trip d env today w' outs :
  tracking w trip d →
  step (ClickEnd env today) w = Some (w', outs) →
  activeTrip (state w') = None →
  idle w'
  ∧ Db.update_trip (user w) env (id trip) Db.completed today (db w) = Db.Ok (db w')
  ∧ outs = [console_log "🛑 Ending trip..."; toast toast_trip_completed]
  ∧ now w' = now w ∧ user w' = user w ∧ geolocation w' = geolocation w
  ∧ inflight w' = inflight w.
Proof.
  intros (Hact & Hnow & i & Hi & Htm & Hc & Hg) Hstep Hnone. simpl in Hstep.
  unfold end_button_rendered in Hstep. rewrite Hact in Hstep.
  destruct (handleEndTrip (user w) env today (state w) (db w)) as [[st' db'] outs0] eqn:E.
  destruct (handleEndTrip_cases _ _ _ _ _ _ _ _ _ Hact E)
    as [(-> & -> & ->)|(Hupd & -> & ->)].
  - rewrite Hact in Hstep. inversion Hstep; subst. simpl in Hnone. congruence.
  - simpl in Hstep. unfold after_setActiveTrip in Hstep.
    destruct (tracking_effect_stops
                (set_db db' (set_state
                               (setGpsUpdateCount (λ _, 0) (setActiveTrip None (state w))) w))
                i 5000 d (Some trip)) as (w1 & Heff & Hidle & Hn & Hd & Hu & Hgeo & Hin);
      [done | done | done | done |].
    rewrite Heff in Hstep. inversion Hstep; subst; clear Hstep.
    simpl in Hn, Hd, Hu, Hgeo, Hin. rewrite Hd.
    split; [done|]. by repeat split.
Qed.

(** Once idle, the dashboard stays idle under every quiet event: nothing
    requests a position, no tick can happen, and only a position request
    that was already pending can still write to the database. *)
Lemma idle_quiet_step w ev w' outs :
  idle w → quiet ev → step ev w = Some (w', outs) →
  idle w' ∧ requested outs = [] ∧ ev ≠ TimerFires
  ∧ Db.trips (db w') = Db.trips (db w)
  ∧ ((∀ k coords env, ev ≠ PositionArrives k coords env) → db w' = db w).
Proof.
  intros (Hact & Htm & Hid) Hq Hstep.
  destruct ev as [env|bus|route|env|env today|ms| |k coords env|k]; simpl in Hq; try done.
  - inversion Hstep; subst. by repeat split.
  - inversion Hstep; subst. by repeat split.
  - simpl in Hstep. destruct (_ && _); [|done]. inversion Hstep; subst. by repeat split.
  - simpl in Hstep. by rewrite Htm in Hstep.
  - simpl in Hstep. destruct (inflight w !! k) as [lost|]; [|done].
    destruct (on_position lost coords (user w) env (state w) (db w))
      as [[st' db'] outs'] eqn:E.
    apply on_position_quiet in E as (Ha & Hgi & Htr & Hreq).
    inversion Hstep; subst; clear Hstep. simpl.
    split; [unfold idle; simpl; split; [congruence | done]|].
    repeat split; try done.
    intros Hne. by destruct (Hne k coords env).
  - simpl in Hstep. destruct (inflight w !! k) as [lost|]; [|done].
    inversion Hstep; subst. by repeat split.
Qed.

Lemma idle_quiet_run evs :
  ∀ w w' tr,
    idle w → Forall quiet evs → run evs w = Some (w', tr) →
    idle w' ∧ requests tr = [] ∧ (TimerFires ∉ evs)
    ∧ Db.trips (db w') = Db.trips (db w)
    ∧ (Forall (λ ev, ∀ k coords env, ev ≠ PositionArrives k coords env) evs →
       db w' = db w).
Proof.
  induction evs as [|ev evs IH]; intros w w' tr Hidle Hq Hrun.
  - inversion Hrun; subst.
    split; [done|]. split; [done|]. split; [apply not_elem_of_nil|]. by split.
  - apply Forall_cons in Hq as [Hq Hqs]. simpl in Hrun.
    destruct (step ev w) as [[w1 outs]|] eqn:Hstep; [|done].
    destruct (run evs w1) as [[w2 tr2]|] eqn:Hrun2; [|done].
    inversion Hrun; subst; clear Hrun.
    destruct (idle_quiet_step w ev w1 outs Hidle Hq Hstep) as (Hidle1 & Hreq & Hne & Ht & Hdb).
    destruct (IH w1 w' tr2 Hidle1 Hqs Hrun2) as (Hidle2 & Hreq2 & Hnot & Ht2 & Hdb2).
    split; [done|]. split; [by rewrite requests_app, (requests_none _ _ Hreq), Hreq2|].
    split; [by apply not_elem_of_cons|]. split; [congruence|].
    intros Hall. apply Forall_cons in Hall as [H1 H2].
    rewrite (Hdb2 H2). by apply Hdb.
Qed.

Lemma existsb_fmap_preserved {X : Type} (p : X → bool) (f : X → X) (l : list X) :
  (∀ x, p (f x) = p x) → existsb p (f <$> l) = existsb p l.
Proof.
  intros H. induction l as [|x l IH]; [done|].
  rewrite fmap_cons. cbn [existsb]. by rewrite H, IH.
Qed.

(** The policy of [gps_updates] looks at the owner of the trip and not at
    its status: ending a trip does not change whether a sample for it is
    accepted. *)
Lemma insert_gps_ignores_status caller env tid lat lng spd hdg acc db
    caller' env' tid' st today db' :
  Db.update_trip caller' env' tid' st today db = Db.Ok db' →
  match Db.insert_gps caller env tid lat lng spd hdg acc db with
  | Db.Ok _ => ∃ d, Db.insert_gps caller env tid lat lng spd hdg acc db' = Db.Ok d
  | Db.Err e => Db.insert_gps caller env tid lat lng spd hdg acc db' = Db.Err e
  end.
Proof.
  unfold Db.update_trip. destruct (Db.reachable env'); [|done]. simpl.
  intros H. inversion H; subst; clear H.
  unfold Db.insert_gps. simpl.
  rewrite existsb_fmap_preserved; [|intros tr; by destruct (str_eq (Db.trip_id tr) tid' && _)].
  destruct (negb (Db.reachable env)); [done|].
  destruct (negb (_ && _ && _ && _ && _)); [done|].
  destruct (negb (existsb _ (Db.trips db))); [done|].
  destruct (existsb _ (Db.gps_updates db)); [done|]. by eexists.
Qed.

(** C2, as the spec states it, fails.  [trip-1] has been ended at 6100
    (status [completed], the dashboard holds no trip), its stored latest
    sample is [gps-1].  Calling [sendGPSUpdate] now reports nothing at all;
    and the fix of the request that was pending when the trip ended is
    inserted, reported as sent, and becomes the stored latest sample. *)
Lemma sample_after_end_is_stored :
  Db.trip_status <$> Db.trips (db Fixture.w_ended) = [Db.completed]
  ∧ sendGPSUpdate (activeTrip (state Fixture.w_ended)) (geolocation Fixture.w_ended) = []
  ∧ Db.gps_id <$> Db.latest (Db.gps_updates (db Fixture.w_ended)) = Some "gps-1"
  ∧ ∃ w', step (PositionArrives 0 Fixture.fix2 (Fixture.env "gps-2" 6200)) Fixture.w_ended
          = Some (w', [console_log "📡 Sending GPS update:";
                       console_log "✅ GPS update sent successfully"])
          ∧ Db.latest (Db.gps_updates (db w'))
            = Some (Db.mkGps "gps-2" "trip-1" 4001000000 (-7501000000) (Some 1250)
                      (Some 9000) (Some 500) 6200).
Proof.
  split; [vm_compute; reflexivity|]. split; [vm_compute; reflexivity|].
  split; [vm_compute; reflexivity|].
  eexists. split; vm_compute; reflexivity.
Qed.

(** C2, amended: there is no [InvalidStateError] and the handler returns
    nothing.  Once [handleEndTrip] has completed, the interval is cleared
    and the dashboard holds no trip: [sendGPSUpdate] requests no position
    and reports nothing, no tick can fire, and in whatever follows without a
    new start no position is requested; the database is written only by
    position requests that were already pending when the trip ended. *)
Theorem ended_trip_sends_nothing w trip d env today w' outs :
  tracking w trip d →
  step (ClickEnd env today) w = Some (w', outs) →
  activeTrip (state w') = None →
  timers w' = []
  ∧ (∀ geo, sendGPSUpdate (activeTrip (state w')) geo = [])
  ∧ step TimerFires w' = None
  ∧ ∀ evs w'' tr,
      Forall quiet evs → run evs w' = Some (w'', tr) →
      requests tr = [] ∧ (TimerFires ∉ evs)
      ∧ activeTrip (state w'') = None ∧ timers w'' = []
      ∧ (Forall (λ ev, ∀ k coords e, ev ≠ PositionArrives k coords e) evs →
         db w'' = db w').
Proof.
  intros Htr Hstep Hnone.
  destruct (click_end_tracking w trip d env today w' outs Htr Hstep Hnone)
    as (Hidle & _).
  pose proof Hidle as (Hact & Htm & Hid).
  split; [done|]. split; [by rewrite Hact|]. split; [simpl; by rewrite Htm|].
  intros evs w'' tr Hq Hrun.
  destruct (idle_quiet_run evs w' w'' tr Hidle Hq Hrun)
    as ((Hact' & Htm' & _) & Hreq & Hnot & _ & Hdb).
  by repeat split.
Qed.

Lemma tracking_effect_frame w w' outs :
  tracking_effect w = (w', outs) →
  user w' = user w ∧ db w' = db w ∧ now w' = now w ∧ geolocation w' = geolocation w.
Proof.
  unfold tracking_effect, setInterval, clearInterval, emit. intros H.
  destruct (cleanup w) as [c|]; [destruct (truthy c)|];
    simpl in H;
    (destruct (activeTrip (state w)) as [trip|];
     [|destruct (gpsInterval (state w)) as [g|]; [destruct (truthy g)|]]);
    inversion H; subst; by repeat split.
Qed.

Lemma step_frame ev w w' outs :
  step ev w = Some (w', outs) → user w' = user w ∧ geolocation w' = geolocation w.
Proof.
  destruct ev as [env|bus|route|env|env today|ms| |k coords env|k]; simpl; intros H.
  - destruct (checkActiveTrip _ _ _); [|by inversion H].
    unfold after_setActiveTrip in H.
    destruct (tracking_effect _) as [w1 o1] eqn:E. inversion H; subst.
    by apply tracking_effect_frame in E as (-> & _ & _ & ->).
  - by inversion H.
  - by inversion H.
  - destruct (start_form_rendered _ && _); [|done].
    destruct (handleStartTrip _ _ _ _) as [[st' db'] o].
    destruct (activeTrip st'); [|by inversion H].
    unfold after_setActiveTrip in H.
    destruct (tracking_effect _) as [w1 o1] eqn:E. inversion H; subst.
    by apply tracking_effect_frame in E as (-> & _ & _ & ->).
  - destruct (end_button_rendered _); [|done].
    destruct (handleEndTrip _ _ _ _ _) as [[st' db'] o].
    destruct (activeTrip st'); [by inversion H|].
    unfold after_setActiveTrip in H.
    destruct (tracking_effect _) as [w1 o1] eqn:E. inversion H; subst.
    by apply tracking_effect_frame in E as (-> & _ & _ & ->).
  - destruct (_ && _); [|done]. by inversion H.
  - destruct (List.find _ _); [|done]. by inversion H.
  - destruct (inflight w !! k); [|done].
    destruct (on_position _ _ _ _ _ _) as [[st' db'] o]. by inversion H.
  - destruct (inflight w !! k); [|done]. by inversion H.
Qed.

Lemma active_trips_of_trips u db db' :
  Db.trips db' = Db.trips db → active_trips_of u db' = active_trips_of u db.
Proof. unfold active_trips_of. by intros ->. Qed.

Lemma has_trip_false db tid :
  Db.has_trip db tid = false → tid ∉ Db.trip_id <$> Db.trips db.
Proof.
  unfold Db.has_trip. intros H Hin.
  apply list_elem_of_fmap in Hin as (tr & -> & Hin).
  assert (existsb (λ tr0, str_eq (Db.trip_id tr0) (Db.trip_id tr)) (Db.trips db) = true);
    [|congruence].
  apply existsb_exists. exists tr. split; [by apply list_elem_of_In | apply str_eq_refl].
Qed.

Lemma checkActiveTrip_active u env db :
  checkActiveTrip (Some u) env db
  = if Db.reachable env then
      match active_trips_of u db with
      | [row] => Some (toActiveTrip (Db.join db row))
      | _ => None
      end
    else None.
Proof.
  unfold checkActiveTrip, Db.select_trip_single, Db.select_trips.
  destruct (Db.reachable env); [|reflexivity].
  fold (active_trips_of u db).
  by destruct (active_trips_of u db) as [|row [|row' rest]].
Qed.

Lemma active_trips_of_insert u db row :
  Db.trip_driver_id row = u → Db.trip_status row = Db.active →
  active_trips_of u (Db.set_trips db (Db.trips db ++ [row])) = active_trips_of u db ++ [row].
Proof.
  intros Hd Hs. unfold active_trips_of. simpl. rewrite filter_app. f_equal.
  rewrite filter_cons, decide_True; [done|].
  by rewrite Hd, Hs, str_eq_refl.
Qed.

(** Ending the driver's only active trip leaves the driver without one. *)
Lemma active_trips_of_end u env tid today db db' row :
  Db.update_trip (Some u) env tid Db.completed today db = Db.Ok db' →
  active_trips_of u db = [row] → Db.trip_id row = tid →
  active_trips_of u db' = []
  ∧ Db.trip_id <$> Db.trips db' = Db.trip_id <$> Db.trips db.
Proof.
  unfold Db.update_trip. destruct (Db.reachable env); [|done]. simpl.
  intros H Hrow Hid. inversion H; subst; clear H. simpl. split.
  - unfold active_trips_of. simpl.
    destruct (filter _ _) as [|x rest] eqn:E; [done|]. exfalso.
    assert (Hx : x ∈ x :: rest) by apply list_elem_of_here.
    rewrite <- E in Hx. apply list_elem_of_filter in Hx as [Hp Hx].
    apply list_elem_of_fmap in Hx as (tr & -> & Htr).
    destruct (str_eq (Db.trip_id tr) (Db.trip_id row)
              && str_eq u (Db.trip_driver_id tr)) eqn:Hc.
    + simpl in Hp. by rewrite andb_false_r in Hp.
    + assert (Hin : tr ∈ active_trips_of u db).
      { apply list_elem_of_filter. by split. }
      rewrite Hrow in Hin. apply list_elem_of_singleton in Hin. subst tr.
      apply andb_prop in Hp as [Hp _]. apply str_eq_true in Hp.
      rewrite str_eq_refl, <- Hp, str_eq_refl in Hc. discriminate.
  - rewrite <- list_fmap_compose. apply list_fmap_ext. intros k tr _. simpl.
    by destruct (_ && _).
Qed.

(** Every event keeps the session invariant. *)
Lemma session_step u ev w w' outs :
  session_inv u w → step ev w = Some (w', outs) → session_inv u w'.
Proof.
  intros (Hu & Hnd & Hshape) Hstep.
  pose proof (step_frame _ _ _ _ Hstep) as [Hu' _].
  split; [congruence|].
  destruct ev as [env|bus|route|env|env today|ms| |k coords env|k].
  - (* Mounted *)
    simpl in Hstep. rewrite Hu, checkActiveTrip_active in Hstep.
    destruct Hshape as [[Hidle Hnone]|(trip & d & row & Htr & Hone & Hid)].
    + rewrite Hnone in Hstep. destruct (Db.reachable env); inversion Hstep; subst;
        (split; [done|]); by left.
    + rewrite Hone in Hstep. destruct (Db.reachable env);
        [|inversion Hstep; subst; split; [done|]; right; by exists trip, d, row].
      unfold after_setActiveTrip in Hstep.
      destruct Htr as (Hact & Hnow & i & Hi & Htm & Hc & Hg).
      destruct (tracking_effect_starts
                  (set_state (setActiveTrip (Some (toActiveTrip (Db.join (db w) row)))
                                (state w)) w)
                  (toActiveTrip (Db.join (db w) row)))
        as (w1 & Heff & Htr1 & _ & Hd1 & _);
        [done | simpl; lia | right; exists i, 5000, d, (Some trip); simpl;
                             repeat split; [done | done | lia] |].
      rewrite Heff in Hstep. inversion Hstep; subst; clear Hstep.
      simpl in Hd1. rewrite Hd1. split; [done|]. right.
      by exists (toActiveTrip (Db.join (db w) row)), (now w + 5000), row.
  - (* SelectBus *)
    inversion Hstep; subst; clear Hstep. simpl. split; [done|].
    destruct Hshape as [[(Ha & Ht & Hn) Hnone]|(trip & d & row & Htr & Hone & Hid)].
    + by left.
    + right. exists trip, d, row. split; [|done].
      destruct Htr as (Hact & Hnow & i & Hi & Htm & Hc & Hg).
      split; [done|]. split; [done|]. by exists i.
  - (* SelectRoute *)
    inversion Hstep; subst; clear Hstep. simpl. split; [done|].
    destruct Hshape as [[(Ha & Ht & Hn) Hnone]|(trip & d & row & Htr & Hone & Hid)].
    + by left.
    + right. exists trip, d, row. split; [|done].
      destruct Htr as (Hact & Hnow & i & Hi & Htm & Hc & Hg).
      split; [done|]. split; [done|]. by exists i.
  - (* ClickStart *)
    destruct Hshape as [[Hidle Hnone]|(trip & d & row & (Hact & _) & _)].
    2:{ simpl in Hstep. unfold start_form_rendered in Hstep. by rewrite Hact in Hstep. }
    destruct (activeTrip (state w')) as [trip|] eqn:Hact'.
    + destruct (click_start_idle w env w' outs trip Hidle Hstep Hact')
        as (Htr & _ & _ & _ & _ & u0 & data & Hu0 & Hins & ->).
      rewrite Hu in Hu0. inversion Hu0; subst u0; clear Hu0.
      apply insert_trip_Ok in Hins as (Hdb & -> & Hfresh & _). simpl in Hdb.
      rewrite Hdb. simpl. split.
      * rewrite fmap_app. apply NoDup_app. split; [done|]. split; [|apply NoDup_singleton].
        intros x Hx Hx'. apply list_elem_of_singleton in Hx'. simpl in Hx'. subst x.
        by apply has_trip_false in Hfresh.
      * right. eexists _, (now w + 5000), _. split; [exact Htr|]. split.
        -- rewrite active_trips_of_insert, Hnone; done.
        -- by rewrite Hdb.
    + simpl in Hstep. destruct Hidle as (Hact & Htm & Hid).
      unfold start_form_rendered in Hstep. rewrite Hact in Hstep.
      cbn [andb] in Hstep. destruct (negb (start_disabled (state w))); [|done].
      destruct (handleStartTrip (user w) env (state w) (db w)) as [[st' db'] o] eqn:E.
      destruct (handleStartTrip_cases _ _ _ _ _ _ _ E)
        as [(-> & -> & _)|(u0 & data & _ & _ & -> & ->)].
      * rewrite Hact in Hstep. inversion Hstep; subst; clear Hstep. simpl.
        split; [done|]. left. by split.
      * simpl in Hstep. unfold after_setActiveTrip in Hstep.
        destruct (tracking_effect_starts
                    (set_db db' (set_state (setActiveTrip (Some (toActiveTrip data))
                                              (state w)) w))
                    (toActiveTrip data)) as (w1 & Heff & (Ha1 & _) & _);
          [done | done | by left |].
        rewrite Heff in Hstep. inversion Hstep; subst. congruence.
  - (* ClickEnd *)
    destruct Hshape as [[(Hact & _) _]|(trip & d & row & Htr & Hone & Hid)].
    { simpl in Hstep. unfold end_button_rendered in Hstep. by rewrite Hact in Hstep. }
    destruct (activeTrip (state w')) as [trip'|] eqn:Hact'.
    + simpl in Hstep. pose proof Htr as (Hact & Hnow & i & Hi & Htm & Hc & Hg).
      unfold end_button_rendered in Hstep. rewrite Hact in Hstep.
      destruct (handleEndTrip (user w) env today (state w) (db w)) as [[st' db'] o] eqn:E.
      destruct (handleEndTrip_cases _ _ _ _ _ _ _ _ _ Hact E)
        as [(-> & -> & ->)|(Hupd & -> & ->)].
      * rewrite Hact in Hstep. inversion Hstep; subst; clear Hstep. simpl.
        split; [done|]. right. exists trip, d, row. split; [|done].
        split; [done|]. split; [done|]. by exists i.
      * simpl in Hstep. unfold after_setActiveTrip in Hstep.
        destruct (tracking_effect_stops
                    (set_db db' (set_state (setGpsUpdateCount (λ _, 0)
                                              (setActiveTrip None (state w))) w))
                    i 5000 d (Some trip)) as (w1 & Heff & (Ha1 & _) & _);
          [done | done | done | done |].
        rewrite Heff in Hstep. inversion Hstep; subst. congruence.
    + destruct (click_end_tracking w trip d env today w' outs Htr Hstep Hact')
        as (Hidle & Hupd & _).
      rewrite Hu in Hupd.
      destruct (active_trips_of_end u env (id trip) today (db w) (db w') row Hupd Hone Hid)
        as [Hnone Hids].
      split; [by rewrite Hids|]. left. by split.
  - (* Elapse *)
    destruct Hshape as [[Hidle Hnone]|(trip & d & row & Htr & Hone & Hid)].
    + destruct (idle_quiet_step w (Elapse ms) w' outs Hidle I Hstep)
        as (Hidle' & _ & _ & Ht & _).
      rewrite Ht, (active_trips_of_trips u _ _ Ht). split; [done|]. left. by split.
    + simpl in Hstep. destruct (_ && _) eqn:E; [|done]. inversion Hstep; subst; clear Hstep.
      simpl. split; [done|]. right. exists trip, d, row. split; [|done].
      destruct Htr as (Hact & Hnow & i & Hi & Htm & Hc & Hg).
      rewrite Htm in E. simpl in E. rewrite andb_true_r in E.
      apply andb_prop in E as [_ E]. apply Z.leb_le in E.
      split; [done|]. split; [done|]. by exists i.
  - (* TimerFires *)
    destruct Hshape as [[Hidle Hnone]|(trip & d & row & Htr & Hone & Hid)].
    + by destruct (idle_quiet_step w TimerFires w' outs Hidle I Hstep) as (_ & _ & ? & _).
    + simpl in Hstep. destruct Htr as (Hact & Hnow & i & Hi & Htm & Hc & Hg).
      rewrite Htm in Hstep. simpl in Hstep. destruct (d =? now w) eqn:E; [|done].
      inversion Hstep; subst; clear Hstep. simpl. split; [done|]. right.
      exists trip, (d + 5000), row. split; [|done].
      split; [done|]. split; [simpl; lia|]. exists i. simpl. rewrite Z.eqb_refl.
      repeat split; try done; lia.
  - (* PositionArrives *)
    simpl in Hstep. destruct (inflight w !! k) as [lost|]; [|done].
    destruct (on_position lost coords (user w) env (state w) (db w))
      as [[st' db'] outs'] eqn:E.
    apply on_position_quiet in E as (Ha & Hgi & Ht & _).
    inversion Hstep; subst; clear Hstep. simpl.
    rewrite Ht, (active_trips_of_trips u _ _ Ht). split; [done|].
    destruct Hshape as [[(Hact & Htm & Hn) Hnone]|(trip & d & row & Htr & Hone & Hid)].
    + left. split; [|done]. split; [simpl; congruence | done].
    + right. exists trip, d, row. split; [|done].
      destruct Htr as (Hact & Hnow & i & Hi & Htm & Hc & Hg).
      split; [simpl; congruence|]. split; [done|]. exists i. simpl.
      repeat split; try done; try lia. congruence.
  - (* PositionFails *)
    simpl in Hstep. destruct (inflight w !! k) as [lost|]; [|done].
    inversion Hstep; subst; clear Hstep. simpl. split; [done|].
    destruct Hshape as [[(Hact & Htm & Hn) Hnone]|(trip & d & row & Htr & Hone & Hid)].
    + by left.
    + right. exists trip, d, row. split; [|done].
      destruct Htr as (Hact & Hnow & i & Hi & Htm & Hc & Hg).
      split; [done|]. split; [done|]. by exists i.
Qed.

Lemma session_run u evs :
  ∀ w w' tr, session_inv u w → run evs w = Some (w', tr) → session_inv u w'.
Proof.
  induction evs as [|ev evs IH]; intros w w' tr Hinv Hrun.
  - by inversion Hrun; subst.
  - simpl in Hrun.
    destruct (step ev w) as [[w1 outs]|] eqn:Hstep; [|done].
    destruct (run evs w1) as [[w2 tr2]|] eqn:Hrun2; [|done].
    inversion Hrun; subst. eapply IH; [|done]. by eapply session_step.
Qed.

Lemma handleStartTrip_succeeds u env st db :
  can_start env u st db →
  handleStartTrip (Some u) env st db
  = (setActiveTrip
       (Some (toActiveTrip
                (Db.join (Db.set_trips db (Db.trips db ++ [started_row env u st]))
                   (started_row env u st)))) st,
     Db.set_trips db (Db.trips db ++ [started_row env u st]),
     [console_log "🚀 Starting new trip..."; toast toast_trip_started]).
Proof.
  intros (Hb & Hr & Hre & Hfresh & Hbus & Hroute & Hprof).
  unfold handleStartTrip, str_falsy.
  apply str_eq_false in Hb, Hr. rewrite Hb, Hr. simpl.
  unfold Db.insert_trip. rewrite Hre, Hfresh, Hbus, Hroute, Hprof. simpl.
  by rewrite str_eq_refl.
Qed.

Lemma click_start_succeeds u env w :
  idle w → user w = Some u → can_start env u (state w) (db w) →
  ∃ w' trip outs,
    step (ClickStart env) w = Some (w', outs)
    ∧ toast toast_trip_started ∈ outs
    ∧ tracking w' trip (now w + 5000)
    ∧ id trip = Db.fresh_uuid env
    ∧ Db.trips (db w') = Db.trips (db w) ++ [started_row env u (state w)].
Proof.
  intros Hidle Hu Hcan. pose proof Hidle as (Hact & Htm & Hid).
  simpl. unfold start_form_rendered, start_disabled, str_falsy. rewrite Hact, Hu.
  pose proof Hcan as (Hb & Hr & _). apply str_eq_false in Hb, Hr. rewrite Hb, Hr.
  rewrite (handleStartTrip_succeeds u env (state w) (db w) Hcan). simpl.
  unfold after_setActiveTrip.
  match goal with
  | |- context [tracking_effect ?w0] =>
      destruct (tracking_effect_starts w0
                  (toActiveTrip
                     (Db.join (Db.set_trips (db w)
                                 (Db.trips (db w) ++ [started_row env u (state w)]))
                        (started_row env u (state w)))))
        as (w1 & Heff & Htr & _ & Hd & _); [done | done | by left |]
  end.
  rewrite Heff. eexists _, _, _. split; [reflexivity|]. split.
  - apply list_elem_of_further, list_elem_of_here.
  - split; [exact Htr|]. split; [reflexivity|]. by rewrite Hd.
Qed.

(** A session that starts on a database where its driver has at most one
    active trip, and whose [checkActiveTrip] is answered, satisfies the
    invariant. *)
Lemma mounted_session_inv u geo db t0 env :
  NoDup (Db.trip_id <$> Db.trips db) →
  (length (active_trips_of u db) ≤ 1)%nat →
  Db.reachable env = true →
  ∃ w outs, step (Mounted env) (mount (Some u) geo db t0) = Some (w, outs)
            ∧ session_inv u w.
Proof.
  intros Hnd Hlen Hre. unfold step.
  change (user (mount (Some u) geo db t0)) with (Some u).
  change (Driver.db (mount (Some u) geo db t0)) with db.
  rewrite checkActiveTrip_active, Hre.
  destruct (active_trips_of u db) as [|row [|row' rest]] eqn:E.
  - eexists _, _. split; [reflexivity|]. split; [done|]. split; [done|].
    left. split; [|done]. repeat split; done.
  - unfold after_setActiveTrip.
    match goal with
    | |- context [tracking_effect ?w0] =>
        destruct (tracking_effect_starts w0 (toActiveTrip (Db.join db row)))
          as (w1 & Heff & Htr & _ & Hd & Hu & _); [done | done | by left |]
    end.
    rewrite Heff. eexists _, _. split; [reflexivity|].
    simpl in Hd, Hu. split; [done|]. rewrite Hd. split; [done|]. right.
    exists (toActiveTrip (Db.join db row)), (t0 + 5000), row. by rewrite E.
  - simpl in Hlen. lia.
Qed.

(** C1, as the spec states it, fails: [driver-1] has the active trip
    [trip-1]; "Start Trip" pressed on a second dashboard of the driver
    reports "Trip Started!" and the driver has two active trips. *)
Lemma second_start_creates_second_active_trip :
  Db.trip_id <$> active_trips_of "driver-1" (db Fixture.w_second) = ["trip-1"]
  ∧ ∃ w', step (ClickStart (Fixture.env "trip-9" 2000)) Fixture.w_second
          = Some (w', [console_log "🚀 Starting new trip..."; toast toast_trip_started;
                       console_log "📍 Starting GPS tracking...";
                       getCurrentPosition
                         (mkActive "trip-9" "12" "Downtown Loop" 2000) geo_options])
          ∧ Db.trip_id <$> active_trips_of "driver-1" (db w') = ["trip-1"; "trip-9"].
Proof.
  split; [vm_compute; reflexivity|]. eexists. split; vm_compute; reflexivity.
Qed.

(** C1, amended.  [handleStartTrip] has no [ConflictError] and does not
    look at the driver's trips: with a bus and a route selected, a signed-in
    driver and a row the database accepts, it inserts a new active trip.
    What keeps a driver at one active trip is the dashboard: the start form
    is rendered only while the dashboard holds no trip, hence in a session
    that satisfies the session invariant (it handles its events one at a
    time and is the only writer of its driver's trips) the driver has at
    most one active trip after any sequence of events.  After
    [handleEndTrip] completes, "Start Trip" succeeds again. *)
Theorem one_active_trip_per_session u :
  (∀ env st db,
      can_start env u st db →
      ∃ st' db', handleStartTrip (Some u) env st db
                 = (st', db', [console_log "🚀 Starting new trip...";
                               toast toast_trip_started])
                 ∧ Db.trips db' = Db.trips db ++ [started_row env u st]
                 ∧ active_trips_of u db' = active_trips_of u db ++ [started_row env u st])
  ∧ (∀ w env, activeTrip (state w) ≠ None → step (ClickStart env) w = None)
  ∧ (∀ w evs w' tr,
        session_inv u w → run evs w = Some (w', tr) →
        (length (active_trips_of u (db w')) ≤ 1)%nat)
  ∧ (∀ w trip d env today w1 outs env',
        tracking w trip d → user w = Some u →
        step (ClickEnd env today) w = Some (w1, outs) →
        activeTrip (state w1) = None →
        can_start env' u (state w1) (db w1) →
        ∃ w2 trip2 outs2,
          step (ClickStart env') w1 = Some (w2, outs2)
          ∧ toast toast_trip_started ∈ outs2
          ∧ activeTrip (state w2) = Some trip2
          ∧ id trip2 = Db.fresh_uuid env').
Proof.
  split; [|split; [|split]].
  - intros env st db Hcan. eexists _, _.
    split; [by apply handleStartTrip_succeeds|]. split; [done|].
    by apply active_trips_of_insert.
  - intros w env Hact. simpl. unfold start_form_rendered.
    by destruct (activeTrip (state w)).
  - intros w evs w' tr Hinv Hrun.
    destruct (session_run u evs w w' tr Hinv Hrun)
      as (_ & _ & [[_ ->]|(trip & d & row & _ & -> & _)]); simpl; lia.
  - intros w trip d env today w1 outs env' Htr Hu Hstep Hnone Hcan.
    destruct (click_end_tracking w trip d env today w1 outs Htr Hstep Hnone)
      as (Hidle & _ & _ & _ & Hu1 & _).
    destruct (click_start_succeeds u env' w1 Hidle ltac:(congruence) Hcan)
      as (w2 & trip2 & outs2 & Hs & Hin & (Hact2 & _) & Hid2 & _).
    by exists w2, trip2, outs2.
Qed.

Lemma one_active_trip_per_session_witness :
  session_inv "driver-1" Fixture.w_idle
  ∧ (length (active_trips_of "driver-1"
               (db (Fixture.after
                      [ClickStart (Fixture.env "trip-1" 1000);
                       Elapse 5000; TimerFires;
                       ClickEnd (Fixture.env "none" 6100) 6100;
                       ClickStart (Fixture.env "trip-2" 7000)] Fixture.w_idle))) ≤ 1)%nat.
Proof.
  assert (H : session_inv "driver-1" Fixture.w_idle).
  { split; [reflexivity|]. split; [apply NoDup_nil_2|]. left.
    split; [|reflexivity]. repeat split; reflexivity. }
  split; [exact H|].
  refine (proj1 (proj2 (proj2 (one_active_trip_per_session "driver-1")))
            Fixture.w_idle
            [ClickStart (Fixture.env "trip-1" 1000); Elapse 5000; TimerFires;
             ClickEnd (Fixture.env "none" 6100) 6100;
             ClickStart (Fixture.env "trip-2" 7000)] _ _ H _).
  vm_compute. reflexivity.
Defined.

Lemma ended_trip_sends_nothing_witness :
  tracking Fixture.w_started Fixture.active1 6000
  ∧ step (ClickEnd (Fixture.env "none" 1500) 1500) Fixture.w_started
    = Some (Fixture.after [ClickEnd (Fixture.env "none" 1500) 1500] Fixture.w_started,
            [console_log "🛑 Ending trip..."; toast toast_trip_completed])
  ∧ activeTrip (state (Fixture.after [ClickEnd (Fixture.env "none" 1500) 1500]
                         Fixture.w_started)) = None
  ∧ step TimerFires (Fixture.after [ClickEnd (Fixture.env "none" 1500) 1500]
                       Fixture.w_started) = None.
Proof.
  assert (H1 : tracking Fixture.w_started Fixture.active1 6000).
  { split; [reflexivity|]. split; [by vm_compute|].
    exists 1. repeat split; reflexivity. }
  assert (H2 : step (ClickEnd (Fixture.env "none" 1500) 1500) Fixture.w_started
               = Some (Fixture.after [ClickEnd (Fixture.env "none" 1500) 1500]
                         Fixture.w_started,
                       [console_log "🛑 Ending trip..."; toast toast_trip_completed]))
    by (vm_compute; reflexivity).
  assert (H3 : activeTrip (state (Fixture.after [ClickEnd (Fixture.env "none" 1500) 1500]
                                    Fixture.w_started)) = None)
    by (vm_compute; reflexivity).
  split; [exact H1|]. split; [exact H2|]. split; [exact H3|].
  exact (proj1 (proj2 (proj2 (ended_trip_sends_nothing _ _ _ _ _ _ _ H1 H2 H3)))).
Defined.

End Lifecycle.

(** ** What passengers see when a trip ends *)

Section TripEnds.

(** The map's subscription delivers no change of [trips]: whatever happens
    to a trip, the view stays as it is. *)
Lemma busmap_ignores_trip_changes env db old new view :
  BusMap.on_change env db (Db.TripUpdated old new) view = view
  ∧ BusMap.on_change env db (Db.TripInserted new) view = view.
Proof. by split. Qed.

(** A refetch that finds no active trip returns before [setBusLocations]:
    the last markers stay. *)
Lemma fetchBusLocations_keeps_view_when_none_active env gps_env db view :
  Forall (λ tr, Db.trip_status tr ≠ Db.active) (Db.trips db) →
  BusMap.fetchBusLocations env gps_env db view = view.
Proof.
  intros Hall. unfold BusMap.fetchBusLocations, Db.select_trips.
  destruct (Db.reachable env); [|done].
  replace (filter _ (Db.trips db)) with (@nil Db.TripRow); [done|].
  symmetry. induction Hall as [|tr trs Htr _ IH]; [done|].
  rewrite filter_cons, decide_False; [done|].
  by destruct (Db.trip_status tr).
Qed.

(** The route list of the passenger dashboard, in contrast, is refetched on
    every change of a trip of the selected route, and the refetch lists
    active trips only. *)
Lemma passenger_refetch_drops_ended env selectedRoute db old new prev tid :
  Db.reachable env = true →
  selectedRoute ≠ EmptyString →
  Db.trip_route_id new = selectedRoute →
  (∀ tr, tr ∈ Db.trips db → Db.trip_id tr = tid → Db.trip_status tr ≠ Db.active) →
  tid ∉ Passenger.trip_id
        <$> Passenger.on_change env selectedRoute db (Db.TripUpdated old new) prev.
Proof.
  intros Hre Hsel Hroute Hended.
  unfold Passenger.on_change, str_falsy.
  apply str_eq_false in Hsel. rewrite Hsel, Hroute, str_eq_refl.
  unfold Passenger.fetchActiveBuses, Db.select_trips. rewrite Hre.
  rewrite <- !list_fmap_compose. intros Hin.
  apply list_elem_of_fmap in Hin as (tr & Hid & Hin). simpl in Hid.
  apply list_elem_of_filter in Hin as [Hp Hin].
  apply andb_prop in Hp as [_ Hp].
  apply (Hended tr Hin); [done|]. by destruct (Db.trip_status tr).
Qed.

(** C5 at the failing input.  A passenger's map shows [trip-1]; its driver
    ends the trip.  The change of the trip leaves the map view as it is, a
    refetch of the map leaves it as it is too (no active trip is left), and
    the marker of the ended trip stays; the route list of the same passenger
    drops the trip on the same change. *)
Theorem ended_trip_stays_on_map :
  BusMap.on_change (Fixture.env "none" 6200) (Driver.db Fixture.w_ended)
    (Db.TripUpdated Fixture.trip1 Fixture.ended1) Fixture.view1
  = Fixture.view1
  ∧ BusMap.entry "trip-1"
      (BusMap.on_change (Fixture.env "none" 6200) (Driver.db Fixture.w_ended)
         (Db.TripUpdated Fixture.trip1 Fixture.ended1) Fixture.view1)
    = Some (BusMap.mkLoc "trip-1" "12" 4000000000 (-7500000000) "trip-1" "Downtown Loop")
  ∧ BusMap.fetchBusLocations (Fixture.env "none" 6200) (λ _, Fixture.env "none" 6200)
      (Driver.db Fixture.w_ended) Fixture.view1
    = Fixture.view1
  ∧ Passenger.on_change (Fixture.env "none" 6200) "route-1" (Driver.db Fixture.w_ended)
      (Db.TripUpdated Fixture.trip1 Fixture.ended1) Fixture.list1
    = [].
Proof. repeat split; vm_compute; reflexivity. Qed.

End TripEnds.

(** * Further properties *)

(** ** Resuming a trip after a reload *)

Section Resume.
Import Driver.

(** X1.  [checkActiveTrip] hands a trip to the dashboard exactly when the
    query gets through and the signed-in driver has one active trip, and
    the trip is that row, with "Unknown" for a bus or route the driver may
    not see.  Without a user, with no active trip and with two or more it
    hands over nothing. *)
Theorem checkActiveTrip_resumes_single_trip u env db :
  checkActiveTrip None env db = None
  ∧ (is_Some (checkActiveTrip (Some u) env db)
     ↔ Db.reachable env = true ∧ length (active_trips_of u db) = 1%nat)
  ∧ ∀ trip, checkActiveTrip (Some u) env db = Some trip →
            ∃ row, active_trips_of u db = [row]
                   ∧ row ∈ Db.trips db
                   ∧ Db.trip_driver_id row = u
                   ∧ Db.trip_status row = Db.active
                   ∧ id trip = Db.trip_id row
                   ∧ started_at trip = Db.started_at row
                   ∧ bus_number trip
                     = str_or (Db.visible_bus db (Db.trip_bus_id row)) "Unknown"
                   ∧ route_name trip
                     = str_or (Db.visible_route db (Db.trip_route_id row)) "Unknown".
Proof.
  split; [reflexivity|]. rewrite checkActiveTrip_active. split.
  - destruct (Db.reachable env); [|split; [by intros [? ?] | by intros [? _]]].
    destruct (active_trips_of u db) as [|row [|row' rest]]; simpl.
    + split; [by intros [? ?] | by intros [_ ?]].
    + split; [done | by eexists].
    + split; [by intros [? ?] | by intros [_ ?]].
  - intros trip. destruct (Db.reachable env); [|done].
    destruct (active_trips_of u db) as [|row [|row' rest]] eqn:E; try done.
    intros H. inversion H; subst; clear H. exists row.
    assert (Hin : row ∈ active_trips_of u db) by (rewrite E; apply list_elem_of_here).
    apply list_elem_of_filter in Hin as [Hp Hin].
    apply andb_prop in Hp as [Hd Hs]. apply str_eq_true in Hd.
    repeat split; try done. by destruct (Db.trip_status row).
Qed.

(** X2.  A dashboard mounted while its driver has one active trip resumes
    it as soon as [checkActiveTrip] answers: it holds the trip, sets the
    5000 ms interval, and calls [sendGPSUpdate] in the same turn; the
    database is not written. *)
Theorem reload_resumes_tracking u geo db t0 env row :
  Db.reachable env = true →
  active_trips_of u db = [row] →
  ∃ w, step (Mounted env) (mount (Some u) geo db t0)
       = Some (w, console_log "📍 Starting GPS tracking..."
                  :: sendGPSUpdate (Some (toActiveTrip (Db.join db row))) geo)
       ∧ tracking w (toActiveTrip (Db.join db row)) (t0 + 5000)
       ∧ Driver.db w = db
       ∧ inflight w = requested (sendGPSUpdate (Some (toActiveTrip (Db.join db row))) geo).
Proof.
  intros Hre Hrow. unfold step.
  change (user (mount (Some u) geo db t0)) with (Some u).
  change (Driver.db (mount (Some u) geo db t0)) with db.
  rewrite checkActiveTrip_active, Hre, Hrow.
  unfold after_setActiveTrip.
  match goal with
  | |- context [tracking_effect ?w0] =>
      destruct (tracking_effect_starts w0 (toActiveTrip (Db.join db row)))
        as (w1 & Heff & Htr & _ & Hd & _ & _ & Hin); [done | done | by left |]
  end.
  rewrite Heff. by exists w1.
Qed.

Lemma reload_resumes_tracking_witness :
  Db.reachable (Fixture.env "none" 2000) = true
  ∧ active_trips_of "driver-1" Fixture.db1 = [Fixture.trip1]
  ∧ ∃ w, step (Mounted (Fixture.env "none" 2000))
           (mount (Some "driver-1") true Fixture.db1 2000)
         = Some (w, [console_log "📍 Starting GPS tracking...";
                     getCurrentPosition Fixture.active1 geo_options])
         ∧ tracking w Fixture.active1 7000.
Proof.
  assert (H1 : Db.reachable (Fixture.env "none" 2000) = true) by reflexivity.
  assert (H2 : active_trips_of "driver-1" Fixture.db1 = [Fixture.trip1]) by reflexivity.
  split; [exact H1|]. split; [exact H2|].
  destruct (reload_resumes_tracking "driver-1" true Fixture.db1 2000
              (Fixture.env "none" 2000) Fixture.trip1 H1 H2) as (w & Hs & Htr & _).
  exists w. split; [exact Hs | exact Htr].
Defined.

End Resume.

(** ** Starting and ending a trip: what changes and what does not *)

Section Handlers.
Import Driver.

(** X3.  [handleStartTrip] succeeds exactly when a driver is signed in, a
    bus and a route are selected, the request gets through, the new id is
    unused and bus, route and profile exist.  Then it appends one active
    trip of that driver with the selected bus and route, started at the
    server's clock, and hands it to the dashboard.  In every other case the
    component and the database are left as they were and no "Trip
    Started!" is shown. *)
Theorem handleStartTrip_outcomes user env st db :
  (∃ u, user = Some u ∧ can_start env u st db
        ∧ handleStartTrip user env st db
          = (setActiveTrip
               (Some (toActiveTrip
                        (Db.join (Db.set_trips db (Db.trips db ++ [started_row env u st]))
                           (started_row env u st)))) st,
             Db.set_trips db (Db.trips db ++ [started_row env u st]),
             [console_log "🚀 Starting new trip..."; toast toast_trip_started]))
  ∨ ((∀ u, user = Some u → ¬ can_start env u st db)
     ∧ (handleStartTrip user env st db).1 = (st, db)
     ∧ toast toast_trip_started ∉ (handleStartTrip user env st db).2).
Proof.
  destruct (handleStartTrip user env st db) as [[st' db'] outs] eqn:E.
  destruct (handleStartTrip_cases _ _ _ _ _ _ _ E)
    as [(-> & -> & Hno)|(u & data & -> & Hins & -> & ->)].
  - right. split; [|by split]. intros u -> Hcan.
    rewrite (handleStartTrip_succeeds u env st db Hcan) in E.
    inversion E; subst. apply Hno. apply list_elem_of_further, list_elem_of_here.
  - left. exists u. split; [done|].
    assert (Hcan : can_start env u st db).
    { unfold handleStartTrip in E.
      destruct (str_falsy (selectedBus st) || str_falsy (selectedRoute st)) eqn:Hsel;
        [by inversion E|].
      apply orb_false_elim in Hsel as [Hb Hr].
      unfold Db.insert_trip in Hins.
      destruct (Db.reachable env) eqn:Hre; [|done]. cbn [negb] in Hins.
      destruct (Db.is_caller (Some u) u); [|done]. cbn [negb] in Hins.
      destruct (Db.has_trip db (Db.fresh_uuid env)) eqn:Hf; [done|].
      destruct (existsb _ (Db.buses db)) eqn:H1; [|done].
      destruct (existsb _ (Db.routes db)) eqn:H2; [|done].
      destruct (existsb _ (Db.profiles db)) eqn:H3; [|done].
      repeat split; try done; by apply str_eq_false. }
    split; [done|]. by rewrite <- (handleStartTrip_succeeds u env st db Hcan).
Qed.

(** The rows [UPDATE ... WHERE id = tid] may write for [caller]. *)
Lemma update_trip_rows caller env tid st today db db' :
  Db.update_trip caller env tid st today db = Db.Ok db' →
  Db.buses db' = Db.buses db ∧ Db.routes db' = Db.routes db
  ∧ Db.profiles db' = Db.profiles db ∧ Db.gps_updates db' = Db.gps_updates db
  ∧ length (Db.trips db') = length (Db.trips db)
  ∧ ∀ k tr, Db.trips db !! k = Some tr →
            Db.trips db' !! k
            = Some (if str_eq (Db.trip_id tr) tid && Db.is_caller caller (Db.trip_driver_id tr)
                    then Db.mkTrip (Db.trip_id tr) (Db.trip_bus_id tr) (Db.trip_route_id tr)
                           (Db.trip_driver_id tr) st (Db.started_at tr) (Some today)
                    else tr).
Proof.
  unfold Db.update_trip. destruct (Db.reachable env); [|done]. simpl.
  intros H. inversion H; subst; clear H. simpl.
  repeat split; try done; [by rewrite length_fmap|].
  intros k tr Hk. by rewrite list_lookup_fmap, Hk.
Qed.

(** X4.  [handleEndTrip] writes nothing but the dashboard's own trip: the
    samples, buses, routes, profiles and the number of trips stay, and every
    trip row stays as it was unless it has the id of the dashboard's trip and
    belongs to the caller, in which case it becomes [completed] with
    [completed_at] the client's clock and keeps its id, bus, route, driver
    and start.  The dashboard lets go of its trip and resets its counter
    exactly when it shows "Trip Completed!"; otherwise it is unchanged. *)
Theorem handleEndTrip_ends_own_trip_only user env today st db st' db' outs :
  handleEndTrip user env today st db = (st', db', outs) →
  Db.buses db' = Db.buses db ∧ Db.routes db' = Db.routes db
  ∧ Db.profiles db' = Db.profiles db ∧ Db.gps_updates db' = Db.gps_updates db
  ∧ length (Db.trips db') = length (Db.trips db)
  ∧ (∀ k tr, Db.trips db !! k = Some tr →
             Db.trips db' !! k = Some tr
             ∨ (∃ trip, activeTrip st = Some trip
                        ∧ Db.trip_id tr = id trip
                        ∧ Db.is_caller user (Db.trip_driver_id tr) = true
                        ∧ Db.trips db' !! k
                          = Some (Db.mkTrip (Db.trip_id tr) (Db.trip_bus_id tr)
                                    (Db.trip_route_id tr) (Db.trip_driver_id tr)
                                    Db.completed (Db.started_at tr) (Some today))))
  ∧ ((toast toast_trip_completed ∈ outs
      ∧ activeTrip st' = None ∧ gpsUpdateCount st' = 0
      ∧ selectedBus st' = selectedBus st ∧ selectedRoute st' = selectedRoute st)
     ∨ ((toast toast_trip_completed ∉ outs) ∧ st' = st ∧ db' = db)).
Proof.
  intros H. destruct (activeTrip st) as [trip|] eqn:Hact.
  - destruct (handleEndTrip_cases _ _ _ _ _ _ _ _ _ Hact H)
      as [(-> & -> & ->)|(Hupd & -> & ->)].
    + repeat split; try done; [by left|]. right. split; [|done].
      rewrite !not_elem_of_cons. repeat split; try discriminate. apply not_elem_of_nil.
    + destruct (update_trip_rows _ _ _ _ _ _ _ Hupd) as (Hb & Hr & Hp & Hg & Hl & Hrows).
      split; [done|]. split; [done|]. split; [done|]. split; [done|]. split; [done|].
      split.
      * intros k tr Hk. specialize (Hrows k tr Hk).
        destruct (str_eq (Db.trip_id tr) (id trip)
                  && Db.is_caller user (Db.trip_driver_id tr)) eqn:Hc; [|by left].
        apply andb_prop in Hc as [Hid Hown]. apply str_eq_true in Hid.
        right. by exists trip.
      * left. split; [apply list_elem_of_further, list_elem_of_here | done].
  - unfold handleEndTrip in H. rewrite Hact in H. inversion H; subst.
    repeat split; try done; [by left|]. right. split; [apply not_elem_of_nil | done].
Qed.

Lemma handleEndTrip_ends_own_trip_only_witness :
  handleEndTrip (Some "driver-1") (Fixture.env "none" 6100) 6100 Fixture.st1 Fixture.db2
  = (mkState "bus-12" "route-1" None (Some 1) 0,
     Db.set_trips Fixture.db0 [Fixture.ended1; Fixture.trip2],
     [console_log "🛑 Ending trip..."; toast toast_trip_completed])
  ∧ Db.gps_updates (Db.set_trips Fixture.db0 [Fixture.ended1; Fixture.trip2])
    = Db.gps_updates Fixture.db2.
Proof.
  assert (H : handleEndTrip (Some "driver-1") (Fixture.env "none" 6100) 6100
                Fixture.st1 Fixture.db2
              = (mkState "bus-12" "route-1" None (Some 1) 0,
                 Db.set_trips Fixture.db0 [Fixture.ended1; Fixture.trip2],
                 [console_log "🛑 Ending trip..."; toast toast_trip_completed]))
    by (vm_compute; reflexivity).
  split; [exact H|].
  exact (proj1 (proj2 (proj2 (proj2
           (handleEndTrip_ends_own_trip_only _ _ _ _ _ _ _ _ H))))).
Defined.

End Handlers.

(** ** What a dashboard session writes *)

Section Writes.
Import Driver.

Lemma tracking_effect_count w w' outs :
  tracking_effect w = (w', outs) →
  gpsUpdateCount (state w') = gpsUpdateCount (state w)
  ∧ selectedBus (state w') = selectedBus (state w)
  ∧ selectedRoute (state w') = selectedRoute (state w).
Proof.
  unfold tracking_effect, setInterval, clearInterval, emit. intros H.
  destruct (cleanup w) as [c|]; [destruct (truthy c)|];
    simpl in H;
    (destruct (activeTrip (state w)) as [trip|];
     [|destruct (gpsInterval (state w)) as [g|]; [destruct (truthy g)|]]);
    inversion H; subst; by repeat split.
Qed.

(** The writes of one turn of the loop: none, the insert of
    [handleStartTrip], the update of [handleEndTrip], or the insert of the
    success callback; with what each does to the counter. *)
Lemma step_writes ev w w' outs :
  step ev w = Some (w', outs) →
  (db w' = db w ∧ gpsUpdateCount (state w') = gpsUpdateCount (state w))
  ∨ (∃ env u data,
        ev = ClickStart env ∧ user w = Some u
        ∧ Db.insert_trip (Some u) env (selectedBus (state w)) (selectedRoute (state w)) u
            Db.active (db w) = Db.Ok (data, db w')
        ∧ gpsUpdateCount (state w') = gpsUpdateCount (state w))
  ∨ (∃ env today trip,
        ev = ClickEnd env today ∧ activeTrip (state w) = Some trip
        ∧ Db.update_trip (user w) env (id trip) Db.completed today (db w) = Db.Ok (db w')
        ∧ gpsUpdateCount (state w') = 0)
  ∨ (∃ k coords env trip,
        ev = PositionArrives k coords env ∧ inflight w !! k = Some trip
        ∧ Db.insert_gps (user w) env (id trip) (latitude coords) (longitude coords)
            (or_zero (speed coords)) (or_zero (heading coords))
            (or_zero (accuracy coords)) (db w) = Db.Ok (db w')
        ∧ gpsUpdateCount (state w') = gpsUpdateCount (state w) + 1).
Proof.
  destruct ev as [env|bus|route|env|env today|ms| |k coords env|k]; simpl; intros H.
  - destruct (checkActiveTrip _ _ _); [|inversion H; by left].
    unfold after_setActiveTrip in H.
    destruct (tracking_effect _) as [w1 o1] eqn:E. inversion H; subst.
    pose proof (tracking_effect_frame _ _ _ E) as (_ & -> & _).
    pose proof (tracking_effect_count _ _ _ E) as (-> & _). by left.
  - inversion H. by left.
  - inversion H. by left.
  - destruct (start_form_rendered _ && _); [|done].
    destruct (handleStartTrip _ _ _ _) as [[st' db'] o] eqn:Es.
    destruct (handleStartTrip_cases _ _ _ _ _ _ _ Es)
      as [(-> & -> & _)|(u & data & Hu & Hins & -> & ->)].
    + destruct (activeTrip (state w)); [|inversion H; by left].
      unfold after_setActiveTrip in H.
      destruct (tracking_effect _) as [w1 o1] eqn:E. inversion H; subst.
      pose proof (tracking_effect_frame _ _ _ E) as (_ & -> & _).
      pose proof (tracking_effect_count _ _ _ E) as (-> & _). by left.
    + simpl in H. unfold after_setActiveTrip in H.
      destruct (tracking_effect _) as [w1 o1] eqn:E. inversion H; subst.
      pose proof (tracking_effect_frame _ _ _ E) as (_ & Hd & _).
      pose proof (tracking_effect_count _ _ _ E) as (Hc & _).
      right. left. exists env, u, data. simpl in Hd, Hc.
      rewrite Hd, Hc, <- Hu. by repeat split.
  - destruct (end_button_rendered _) eqn:Hr; [|done].
    unfold end_button_rendered in Hr.
    destruct (activeTrip (state w)) as [trip|] eqn:Hact; [|done].
    destruct (handleEndTrip _ _ _ _ _) as [[st' db'] o] eqn:Ee.
    destruct (handleEndTrip_cases _ _ _ _ _ _ _ _ _ Hact Ee)
      as [(-> & -> & ->)|(Hupd & -> & ->)].
    + rewrite Hact in H. inversion H. by left.
    + simpl in H. unfold after_setActiveTrip in H.
      destruct (tracking_effect _) as [w1 o1] eqn:E. inversion H; subst.
      pose proof (tracking_effect_frame _ _ _ E) as (_ & Hd & _).
      pose proof (tracking_effect_count _ _ _ E) as (Hc & _).
      right. right. left. exists env, today, trip. simpl in Hd, Hc.
      rewrite Hd, Hc. by repeat split.
  - destruct (_ && _); [|done]. inversion H. by left.
  - destruct (List.find _ _); [|done]. inversion H. by left.
  - destruct (inflight w !! k) as [trip|] eqn:Hk; [|done].
    unfold on_position in H.
    destruct (Db.insert_gps _ _ _ _ _ _ _ _ _) as [d|e] eqn:Ei; inversion H; subst.
    + right. right. right. exists k, coords, env, trip. by repeat split.
    + by left.
  - destruct (inflight w !! k); [|done]. inversion H. by left.
Qed.

Lemma str_eq_sym a b : str_eq a b = str_eq b a.
Proof. apply String.eqb_sym. Qed.

Lemma others_insert u caller env bus route st db data db' :
  Db.insert_trip caller env bus route u st db = Db.Ok (data, db') →
  Session.others u db' = Session.others u db
  ∧ Db.gps_updates db' = Db.gps_updates db
  ∧ Db.buses db' = Db.buses db ∧ Db.routes db' = Db.routes db
  ∧ Db.profiles db' = Db.profiles db
  ∧ ∀ tid, Session.owns u db tid = true → Session.owns u db' tid = true.
Proof.
  intros H. apply insert_trip_Ok in H as (-> & _ & _ & _).
  unfold Session.others, Session.owns. simpl. split.
  - rewrite filter_app, filter_cons, decide_False, filter_nil, app_nil_r; [done|].
    simpl. by rewrite str_eq_refl.
  - repeat split; try done. intros tid Hown. rewrite existsb_app, Hown. done.
Qed.

Lemma others_update u env tid st today db db' :
  Db.update_trip (Some u) env tid st today db = Db.Ok db' →
  Session.others u db' = Session.others u db
  ∧ ∀ t0, Session.owns u db t0 = true → Session.owns u db' t0 = true.
Proof.
  unfold Db.update_trip. destruct (Db.reachable env); [|done]. simpl.
  intros H. inversion H; subst; clear H.
  unfold Session.others, Session.owns. simpl. split.
  - induction (Db.trips db) as [|tr trs IH]; [done|].
    rewrite fmap_cons, !filter_cons, IH.
    destruct (str_eq (Db.trip_id tr) tid && str_eq u (Db.trip_driver_id tr)) eqn:E;
      [|done].
    apply andb_prop in E as [_ E]. rewrite str_eq_sym in E. simpl.
    rewrite !decide_False; [done | by rewrite E | by rewrite E].
  - intros t0. rewrite existsb_fmap_preserved; [done|].
    intros tr. by destruct (str_eq (Db.trip_id tr) tid && _).
Qed.

(** What one turn of the loop writes, for the signed-in driver [u]. *)
Lemma step_own u ev w w' outs :
  user w = Some u → step ev w = Some (w', outs) →
  Session.others u (db w') = Session.others u (db w)
  ∧ Db.buses (db w') = Db.buses (db w) ∧ Db.routes (db w') = Db.routes (db w)
  ∧ Db.profiles (db w') = Db.profiles (db w)
  ∧ (∀ tid, Session.owns u (db w) tid = true → Session.owns u (db w') tid = true)
  ∧ ∃ new, Db.gps_updates (db w') = Db.gps_updates (db w) ++ new
           ∧ Forall (λ g, Session.owns u (db w') (Db.gps_trip_id g) = true) new.
Proof.
  intros Hu Hstep.
  destruct (step_writes _ _ _ _ Hstep)
    as [[-> _]|[(env & u0 & data & _ & Hu0 & Hins & _)
               |[(env & today & trip & _ & _ & Hupd & _)
                |(k & coords & env & trip & _ & _ & Hins & _)]]].
  - repeat split; try done. exists []. by rewrite app_nil_r.
  - rewrite Hu in Hu0. inversion Hu0; subst u0.
    destruct (others_insert _ _ _ _ _ _ _ _ _ Hins) as (Ho & Hg & Hb & Hr & Hp & Hown).
    repeat split; try done. exists []. by rewrite app_nil_r.
  - rewrite Hu in Hupd.
    destruct (others_update _ _ _ _ _ _ _ Hupd) as (Ho & Hown).
    destruct (update_trip_rows _ _ _ _ _ _ _ Hupd) as (Hb & Hr & Hp & Hg & _).
    repeat split; try done. exists []. by rewrite app_nil_r.
  - pose proof (insert_gps_trips _ _ _ _ _ _ _ _ _ _ Hins) as Ht.
    unfold Db.insert_gps in Hins.
    destruct (negb (Db.reachable env)); [done|].
    destruct (negb (_ && _ && _ && _ && _)); [done|].
    destruct (negb (existsb _ (Db.trips (db w)))) eqn:Hown; [done|].
    destruct (existsb _ (Db.gps_updates (db w))); [done|].
    inversion Hins as [Hdb]. rewrite <- Hdb in *. simpl in *.
    unfold Session.others, Session.owns. simpl.
    repeat split; try done. eexists. split; [reflexivity|].
    apply Forall_singleton. simpl.
    apply negb_false_iff in Hown. rewrite Hu in Hown. simpl in Hown.
    rewrite <- Hown. clear. induction (Db.trips (db w)) as [|tr trs IH]; [done|].
    simpl. by rewrite IH, (str_eq_sym u).
Qed.

(** X5.  Whatever happens in a dashboard session of driver [u], it never
    creates, changes or removes a trip of another driver, never touches
    buses, routes and profiles, never removes or changes a stored sample, and
    every sample it stores is attached to a trip that exists and belongs to
    [u]. *)
Theorem session_writes_own_rows_only u evs :
  ∀ w w' tr,
    user w = Some u → run evs w = Some (w', tr) →
    Session.others u (db w') = Session.others u (db w)
    ∧ Db.buses (db w') = Db.buses (db w) ∧ Db.routes (db w') = Db.routes (db w)
    ∧ Db.profiles (db w') = Db.profiles (db w)
    ∧ ∃ new, Db.gps_updates (db w') = Db.gps_updates (db w) ++ new
             ∧ Forall (λ g, Session.owns u (db w') (Db.gps_trip_id g) = true) new.
Proof.
  assert (Hgen : ∀ w w' tr,
             user w = Some u → run evs w = Some (w', tr) →
             Session.others u (db w') = Session.others u (db w)
             ∧ Db.buses (db w') = Db.buses (db w) ∧ Db.routes (db w') = Db.routes (db w)
             ∧ Db.profiles (db w') = Db.profiles (db w)
             ∧ (∀ tid, Session.owns u (db w) tid = true
                       → Session.owns u (db w') tid = true)
             ∧ ∃ new, Db.gps_updates (db w') = Db.gps_updates (db w) ++ new
                      ∧ Forall (λ g, Session.owns u (db w') (Db.gps_trip_id g) = true) new).
  { induction evs as [|ev evs IH]; intros w w' tr Hu Hrun.
    - inversion Hrun; subst. repeat split; try done. exists []. by rewrite app_nil_r.
    - simpl in Hrun.
      destruct (step ev w) as [[w1 outs]|] eqn:Hstep; [|done].
      destruct (run evs w1) as [[w2 tr2]|] eqn:Hrun2; [|done].
      inversion Hrun; subst; clear Hrun.
      destruct (step_own u ev w w1 outs Hu Hstep)
        as (Ho & Hb & Hr & Hp & Hown & new1 & Hg1 & Hall1).
      pose proof (step_frame _ _ _ _ Hstep) as [Hu1 _].
      destruct (IH w1 w' tr2 ltac:(congruence) Hrun2)
        as (Ho2 & Hb2 & Hr2 & Hp2 & Hown2 & new2 & Hg2 & Hall2).
      split; [congruence|]. split; [congruence|]. split; [congruence|].
      split; [congruence|]. split; [by intros tid ?; apply Hown2, Hown|].
      exists (new1 ++ new2). split; [by rewrite Hg2, Hg1, app_assoc|].
      apply Forall_app. split; [|done].
      eapply Forall_impl; [exact Hall1|]. intros g. apply Hown2. }
  intros w w' tr Hu Hrun.
  destruct (Hgen w w' tr Hu Hrun) as (? & ? & ? & ? & _ & ?). by repeat split.
Qed.

Lemma session_writes_own_rows_only_witness :
  user (set_db Fixture.db2 Fixture.w_idle) = Some "driver-1"
  ∧ Session.others "driver-1"
      (db (Fixture.after [ClickStart (Fixture.env "trip-9" 1000);
                          PositionArrives 0 Fixture.fix1 (Fixture.env "gps-9" 1100);
                          ClickEnd (Fixture.env "none" 1200) 1200]
             (set_db Fixture.db2 Fixture.w_idle)))
    = [Fixture.trip2].
Proof.
  assert (H : user (set_db Fixture.db2 Fixture.w_idle) = Some "driver-1") by reflexivity.
  split; [exact H|].
  refine (proj1 (session_writes_own_rows_only "driver-1"
                   [ClickStart (Fixture.env "trip-9" 1000);
                    PositionArrives 0 Fixture.fix1 (Fixture.env "gps-9" 1100);
                    ClickEnd (Fixture.env "none" 1200) 1200]
                   (set_db Fixture.db2 Fixture.w_idle) _ _ H _)).
  vm_compute. reflexivity.
Defined.

(** X6.  As long as "End Trip" is not pressed, the counter the driver sees
    grows by exactly the number of samples the database has stored: every
    accepted insert counts once, a rejected one not at all, and nothing else
    moves the counter. *)
Theorem counter_counts_stored_samples evs :
  ∀ w w' tr,
    Forall Session.not_end evs → run evs w = Some (w', tr) →
    gpsUpdateCount (state w') - gpsUpdateCount (state w)
    = Z.of_nat (length (Db.gps_updates (db w')))
      - Z.of_nat (length (Db.gps_updates (db w))).
Proof.
  induction evs as [|ev evs IH]; intros w w' tr Hq Hrun.
  - inversion Hrun; subst. lia.
  - apply Forall_cons in Hq as [Hq Hqs]. simpl in Hrun.
    destruct (step ev w) as [[w1 outs]|] eqn:Hstep; [|done].
    destruct (run evs w1) as [[w2 tr2]|] eqn:Hrun2; [|done].
    inversion Hrun; subst; clear Hrun.
    specialize (IH w1 w' tr2 Hqs Hrun2).
    destruct (step_writes _ _ _ _ Hstep)
      as [[Hd Hc]|[(env & u0 & data & _ & _ & Hins & Hc)
                 |[(env & today & trip & -> & _)
                  |(k & coords & env & trip & _ & _ & Hins & Hc)]]].
    + rewrite Hd in IH. lia.
    + apply insert_trip_Ok in Hins as (Hd & _). rewrite Hd in IH. simpl in IH. lia.
    + done.
    + unfold Db.insert_gps in Hins.
      destruct (negb (Db.reachable env)); [done|].
      destruct (negb (_ && _ && _ && _ && _)); [done|].
      destruct (negb (existsb _ (Db.trips (db w)))); [done|].
      destruct (existsb _ (Db.gps_updates (db w))); [done|].
      inversion Hins as [Hdb]. rewrite <- Hdb in IH. simpl in IH.
      rewrite length_app in IH. simpl in IH. lia.
Qed.

Lemma counter_counts_stored_samples_witness :
  Forall Session.not_end [PositionArrives 0 Fixture.fix1 (Fixture.env "gps-1" 1100);
                          Elapse 5000; TimerFires;
                          PositionArrives 0 Fixture.fix95 (Fixture.env "gps-1" 6100);
                          Elapse 5000; TimerFires; PositionFails 0]
  ∧ gpsUpdateCount
      (state (Fixture.after [PositionArrives 0 Fixture.fix1 (Fixture.env "gps-1" 1100);
                             Elapse 5000; TimerFires;
                             PositionArrives 0 Fixture.fix95 (Fixture.env "gps-1" 6100);
                             Elapse 5000; TimerFires; PositionFails 0] Fixture.w_started))
    - 0
    = Z.of_nat
        (length
           (Db.gps_updates
              (db (Fixture.after
                     [PositionArrives 0 Fixture.fix1 (Fixture.env "gps-1" 1100);
                      Elapse 5000; TimerFires;
                      PositionArrives 0 Fixture.fix95 (Fixture.env "gps-1" 6100);
                      Elapse 5000; TimerFires; PositionFails 0] Fixture.w_started))))
      - 0.
Proof.
  assert (H : Forall Session.not_end
                [PositionArrives 0 Fixture.fix1 (Fixture.env "gps-1" 1100);
                 Elapse 5000; TimerFires;
                 PositionArrives 0 Fixture.fix95 (Fixture.env "gps-1" 6100);
                 Elapse 5000; TimerFires; PositionFails 0]) by (repeat constructor).
  split; [exact H|].
  refine (counter_counts_stored_samples _ Fixture.w_started _ _ H _).
  vm_compute. reflexivity.
Defined.

End Writes.

(** ** One interval at a time *)

Section Interval.
Import Driver.

Lemma shape_step ev w w' outs :
  idle w ∨ (∃ trip d, tracking w trip d ∧ d ≤ now w + 5000) →
  step ev w = Some (w', outs) →
  idle w' ∨ (∃ trip d, tracking w' trip d ∧ d ≤ now w' + 5000).
Proof.
  intros Hshape Hstep.
  destruct ev as [env|bus|route|env|env today|ms| |k coords env|k].
  - (* Mounted *)
    simpl in Hstep.
    destruct (checkActiveTrip (user w) env (db w)) as [trip'|];
      [|by inversion Hstep; subst].
    unfold after_setActiveTrip in Hstep.
    destruct (tracking_effect_starts
                (set_state (setActiveTrip (Some trip') (state w)) w) trip')
      as (w1 & Heff & Htr1 & Hn1 & _).
    { done. }
    { destruct Hshape as [(_ & _ & Hid)|(trip & d & (_ & _ & i & Hi & _) & _)];
        simpl; lia. }
    { destruct Hshape as [(_ & Htm & _)|(trip & d & (_ & _ & i & Hi & Htm & Hc & _) & _)].
      - by left.
      - right. exists i, 5000, d, (Some trip). simpl. repeat split; try done. lia. }
    rewrite Heff in Hstep. inversion Hstep; subst; clear Hstep.
    right. exists trip', (now w + 5000). split; [done|]. simpl in Hn1. lia.
  - (* SelectBus *)
    inversion Hstep; subst; clear Hstep.
    destruct Hshape as [(Ha & Ht & Hn)|(trip & d & (Hact & Hnow & i & Hi & Htm & Hc & Hg) & Hd)].
    + by left.
    + right. exists trip, d. split; [|done]. split; [done|]. split; [done|]. by exists i.
  - (* SelectRoute *)
    inversion Hstep; subst; clear Hstep.
    destruct Hshape as [(Ha & Ht & Hn)|(trip & d & (Hact & Hnow & i & Hi & Htm & Hc & Hg) & Hd)].
    + by left.
    + right. exists trip, d. split; [|done]. split; [done|]. split; [done|]. by exists i.
  - (* ClickStart *)
    destruct Hshape as [Hidle|(trip & d & (Hact & _) & _)].
    2:{ simpl in Hstep. unfold start_form_rendered in Hstep. by rewrite Hact in Hstep. }
    destruct (activeTrip (state w')) as [trip|] eqn:Hact'.
    + destruct (click_start_idle w env w' outs trip Hidle Hstep Hact')
        as (Htr & Hn & _).
      right. exists trip, (now w + 5000). split; [done | lia].
    + simpl in Hstep. destruct Hidle as (Hact & Htm & Hid).
      unfold start_form_rendered in Hstep. rewrite Hact in Hstep.
      cbn [andb] in Hstep. destruct (negb (start_disabled (state w))); [|done].
      destruct (handleStartTrip (user w) env (state w) (db w)) as [[st' db'] o] eqn:E.
      destruct (handleStartTrip_cases _ _ _ _ _ _ _ E)
        as [(-> & -> & _)|(u0 & data & _ & _ & -> & ->)].
      * rewrite Hact in Hstep. inversion Hstep; subst; clear Hstep. by left.
      * simpl in Hstep. unfold after_setActiveTrip in Hstep.
        destruct (tracking_effect_starts
                    (set_db db' (set_state (setActiveTrip (Some (toActiveTrip data))
                                              (state w)) w))
                    (toActiveTrip data)) as (w1 & Heff & (Ha1 & _) & _);
          [done | done | by left |].
        rewrite Heff in Hstep. inversion Hstep; subst. congruence.
  - (* ClickEnd *)
    destruct Hshape as [(Hact & _)|(trip & d & Htr & Hd)].
    { simpl in Hstep. unfold end_button_rendered in Hstep. by rewrite Hact in Hstep. }
    destruct (activeTrip (state w')) as [trip'|] eqn:Hact'.
    + simpl in Hstep. pose proof Htr as (Hact & Hnow & i & Hi & Htm & Hc & Hg).
      unfold end_button_rendered in Hstep. rewrite Hact in Hstep.
      destruct (handleEndTrip (user w) env today (state w) (db w)) as [[st' db'] o] eqn:E.
      destruct (handleEndTrip_cases _ _ _ _ _ _ _ _ _ Hact E)
        as [(-> & -> & ->)|(Hupd & -> & ->)].
      * rewrite Hact in Hstep. inversion Hstep; subst; clear Hstep.
        right. exists trip, d. split; [|done].
        split; [done|]. split; [done|]. by exists i.
      * simpl in Hstep. unfold after_setActiveTrip in Hstep.
        destruct (tracking_effect_stops
                    (set_db db' (set_state (setGpsUpdateCount (λ _, 0)
                                              (setActiveTrip None (state w))) w))
                    i 5000 d (Some trip)) as (w1 & Heff & (Ha1 & _) & _);
          [done | done | done | done |].
        rewrite Heff in Hstep. inversion Hstep; subst. congruence.
    + left. by destruct (click_end_tracking w trip d env today w' outs Htr Hstep Hact').
  - (* Elapse *)
    simpl in Hstep. destruct (_ && _) eqn:E; [|done]. inversion Hstep; subst; clear Hstep.
    apply andb_prop in E as [E0 E]. apply Z.leb_le in E0.
    destruct Hshape as [(Ha & Ht & Hn)|(trip & d & (Hact & Hnow & i & Hi & Htm & Hc & Hg) & Hd)].
    + by left.
    + right. exists trip, d. rewrite Htm in E. simpl in E. rewrite andb_true_r in E.
      apply Z.leb_le in E. split; [|simpl; lia].
      split; [done|]. split; [done|]. by exists i.
  - (* TimerFires *)
    simpl in Hstep.
    destruct Hshape as [(Ha & Ht & Hn)|(trip & d & (Hact & Hnow & i & Hi & Htm & Hc & Hg) & Hd)].
    + by rewrite Ht in Hstep.
    + rewrite Htm in Hstep. simpl in Hstep. destruct (d =? now w) eqn:E; [|done].
      apply Z.eqb_eq in E. inversion Hstep; subst; clear Hstep.
      right. exists trip, (now w + 5000). split; [|simpl; lia].
      split; [done|]. split; [simpl; lia|]. exists i. simpl. rewrite Z.eqb_refl.
      repeat split; try done; lia.
  - (* PositionArrives *)
    simpl in Hstep. destruct (inflight w !! k) as [lost|]; [|done].
    destruct (on_position lost coords (user w) env (state w) (db w))
      as [[st' db'] outs'] eqn:E.
    apply on_position_quiet in E as (Ha & Hgi & Ht & _).
    inversion Hstep; subst; clear Hstep.
    destruct Hshape as [(Hact & Htm & Hn)|(trip & d & (Hact & Hnow & i & Hi & Htm & Hc & Hg) & Hd)].
    + left. split; [simpl; congruence | done].
    + right. exists trip, d. split; [|done].
      split; [simpl; congruence|]. split; [done|]. exists i. simpl.
      repeat split; try done; try lia. congruence.
  - (* PositionFails *)
    simpl in Hstep. destruct (inflight w !! k) as [lost|]; [|done].
    inversion Hstep; subst; clear Hstep.
    destruct Hshape as [(Ha & Ht & Hn)|(trip & d & (Hact & Hnow & i & Hi & Htm & Hc & Hg) & Hd)].
    + by left.
    + right. exists trip, d. split; [|done]. split; [done|]. split; [done|]. by exists i.
Qed.

(** X7.  From the moment it is mounted, whatever the driver does and
    whatever arrives, the dashboard never runs two intervals: it holds no
    trip and no timer, or one trip and the one 5000 ms timer whose callback
    closed over that trip and whose next tick is at most 5000 ms away. *)
Theorem one_interval_at_a_time evs u geo db0 t0 w tr :
  run evs (mount u geo db0 t0) = Some (w, tr) →
  Session.one_interval w.
Proof.
  intros Hrun.
  assert (Hgen : ∀ evs w0 w1 tr1,
             idle w0 ∨ (∃ trip d, tracking w0 trip d ∧ d ≤ now w0 + 5000) →
             run evs w0 = Some (w1, tr1) →
             idle w1 ∨ (∃ trip d, tracking w1 trip d ∧ d ≤ now w1 + 5000)).
  { clear. induction evs as [|ev evs IH]; intros w0 w1 tr1 Hs Hrun.
    - by inversion Hrun; subst.
    - simpl in Hrun.
      destruct (step ev w0) as [[w2 outs]|] eqn:Hstep; [|done].
      destruct (run evs w2) as [[w3 tr3]|] eqn:Hrun2; [|done].
      inversion Hrun; subst. eapply IH; [|done]. by eapply shape_step. }
  assert (Hidle : idle (mount u geo db0 t0)) by (repeat split; reflexivity).
  destruct (Hgen evs _ w tr (or_introl Hidle) Hrun)
    as [(Ha & Ht & _)|(trip & d & (Hact & Hnow & i & Hi & Htm & Hc & Hg) & Hd)].
  - by left.
  - right. exists i, d. rewrite Hact. split; [done|]. split; [by eexists | lia].
Qed.

Lemma one_interval_at_a_time_witness :
  run [Mounted (Fixture.env "none" 2000); Elapse 5000; TimerFires;
       Mounted (Fixture.env "none" 7000)]
    (mount (Some "driver-1") true Fixture.db1 2000)
  = Some (Fixture.after [Mounted (Fixture.env "none" 2000); Elapse 5000; TimerFires;
                         Mounted (Fixture.env "none" 7000)]
            (mount (Some "driver-1") true Fixture.db1 2000),
          [(2000, console_log "📍 Starting GPS tracking...");
           (2000, getCurrentPosition Fixture.active1 geo_options);
           (7000, getCurrentPosition Fixture.active1 geo_options);
           (7000, console_log "📍 Starting GPS tracking...");
           (7000, getCurrentPosition Fixture.active1 geo_options)])
  ∧ Session.one_interval
      (Fixture.after [Mounted (Fixture.env "none" 2000); Elapse 5000; TimerFires;
                      Mounted (Fixture.env "none" 7000)]
         (mount (Some "driver-1") true Fixture.db1 2000)).
Proof.
  assert (H : run [Mounted (Fixture.env "none" 2000); Elapse 5000; TimerFires;
                   Mounted (Fixture.env "none" 7000)]
                (mount (Some "driver-1") true Fixture.db1 2000)
              = Some (Fixture.after [Mounted (Fixture.env "none" 2000); Elapse 5000;
                                     TimerFires; Mounted (Fixture.env "none" 7000)]
                        (mount (Some "driver-1") true Fixture.db1 2000),
                      [(2000, console_log "📍 Starting GPS tracking...");
                       (2000, getCurrentPosition Fixture.active1 geo_options);
                       (7000, getCurrentPosition Fixture.active1 geo_options);
                       (7000, console_log "📍 Starting GPS tracking...");
                       (7000, getCurrentPosition Fixture.active1 geo_options)]))
    by (vm_compute; reflexivity).
  split; [exact H|].
  exact (one_interval_at_a_time _ _ _ _ _ _ _ H).
Defined.

End Interval.

(** ** The map: what the view holds *)

Section MapView.
Import BusMap.

Lemma upsert_length newLoc prev :
  (length prev ≤ length (upsert newLoc prev) ≤ S (length prev))%nat.
Proof.
  destruct (upsert_shape newLoc prev) as [(k & old & _ & _ & ->)|[_ ->]].
  - rewrite length_insert. lia.
  - rewrite length_app. simpl. lia.
Qed.

Lemma upsert_keeps tid newLoc prev :
  is_Some (entry tid prev) → is_Some (entry tid (upsert newLoc prev)).
Proof.
  intros H. destruct (decide (id newLoc = tid)) as [<-|Hne].
  - rewrite entry_upsert_same. by eexists.
  - by rewrite entry_upsert_other.
Qed.

(** X8.  The realtime handler never takes a bus off the map: under any
    sequence of changes a trip that has an entry keeps one, and the view
    grows by at most one entry per change and never shrinks. *)
Theorem map_view_never_drops evs :
  ∀ view,
    (length view ≤ length (deliver evs view) ≤ length view + length evs)%nat
    ∧ ∀ tid, is_Some (entry tid view) → is_Some (entry tid (deliver evs view)).
Proof.
  induction evs as [|[[env db] change] evs IH]; intros view.
  - simpl. split; [lia | done].
  - simpl. destruct (IH (on_change env db change view)) as [Hlen Hkeep].
    assert (Hstep : (length view ≤ length (on_change env db change view)
                     ≤ S (length view))%nat
                    ∧ ∀ tid, is_Some (entry tid view)
                             → is_Some (entry tid (on_change env db change view))).
    { destruct change as [g| |]; simpl; try (split; [lia | done]).
      unfold on_gps_insert.
      destruct (Db.select_trip_single env (Db.by_id (Db.gps_trip_id g)) db) as [td|];
        [|split; [lia | done]].
      rewrite setBusLocations_update_upsert.
      split; [apply upsert_length | intros tid; apply upsert_keeps]. }
    destruct Hstep as [Hl1 Hk1]. split; [lia|].
    intros tid H. by apply Hkeep, Hk1.
Qed.

(** [ORDER BY created_at DESC LIMIT 1]: a row of the table that no row is
    newer than; nothing only for the empty table. *)
Lemma latest_spec rows :
  match Db.latest rows with
  | Some g => g ∈ rows ∧ ∀ g', g' ∈ rows → Db.created_at g' ≤ Db.created_at g
  | None => rows = []
  end.
Proof.
  induction rows as [|g rows IH]; [done|]. simpl.
  destruct (Db.latest rows) as [g0|].
  - destruct IH as [Hin Hmax].
    destruct (Db.created_at g <? Db.created_at g0) eqn:E.
    + apply Z.ltb_lt in E. split; [by apply list_elem_of_further|].
      intros g' Hg'. apply elem_of_cons in Hg' as [->|Hg']; [lia | by apply Hmax].
    + apply Z.ltb_ge in E. split; [apply list_elem_of_here|].
      intros g' Hg'. apply elem_of_cons in Hg' as [->|Hg']; [lia|].
      specialize (Hmax g' Hg'). lia.
  - subst rows. split; [apply list_elem_of_here|].
    intros g' Hg'. apply list_elem_of_singleton in Hg'. subst. lia.
Qed.

(** X9.  [fetchBusLocations] leaves the view alone when the trips query
    fails or finds no active trip.  Otherwise the view it sets holds, for
    each entry, an active trip and the position of a stored sample of that
    trip than which no sample of the trip is newer, under the trip's id, with
    the bus number and route name the passenger may see or "Unknown"; and
    every active trip with a readable sample has an entry. *)
Theorem fetchBusLocations_shows_latest env gps_env db prev :
  (Db.reachable env = false ∨ Forall (λ tr, Db.trip_status tr ≠ Db.active) (Db.trips db) →
   fetchBusLocations env gps_env db prev = prev)
  ∧ (Db.reachable env = true →
     ¬ Forall (λ tr, Db.trip_status tr ≠ Db.active) (Db.trips db) →
     (∀ loc, loc ∈ fetchBusLocations env gps_env db prev →
             ∃ tr g, tr ∈ Db.trips db ∧ Db.trip_status tr = Db.active
                     ∧ g ∈ Db.gps_updates db ∧ Db.gps_trip_id g = Db.trip_id tr
                     ∧ (∀ g', g' ∈ Db.gps_updates db → Db.gps_trip_id g' = Db.trip_id tr
                              → Db.created_at g' ≤ Db.created_at g)
                     ∧ id loc = Db.trip_id tr ∧ trip_id loc = Db.trip_id tr
                     ∧ latitude loc = Db.latitude g ∧ longitude loc = Db.longitude g
                     ∧ bus_number loc
                       = str_or (Db.visible_bus db (Db.trip_bus_id tr)) "Unknown"
                     ∧ route_name loc
                       = str_or (Db.visible_route db (Db.trip_route_id tr)) "Unknown Route")
     ∧ (∀ tr g, tr ∈ Db.trips db → Db.trip_status tr = Db.active
                → Db.reachable (gps_env (Db.trip_id tr)) = true
                → g ∈ Db.gps_updates db → Db.gps_trip_id g = Db.trip_id tr
                → Db.trip_id tr ∈ id <$> fetchBusLocations env gps_env db prev)).
Proof.
  split.
  - intros [Hre|Hnone].
    + unfold fetchBusLocations, Db.select_trips. by rewrite Hre.
    + by apply fetchBusLocations_keeps_view_when_none_active.
  - intros Hre Hsome.
    unfold fetchBusLocations, Db.select_trips. rewrite Hre.
    destruct (Z.of_nat _ =? 0) eqn:E.
    { exfalso. apply Hsome. apply Z.eqb_eq in E.
      rewrite length_fmap in E. apply Forall_forall. intros tr Htr Hact.
      assert (Hin : tr ∈ filter (λ tr0, Db.status_eqb (Db.trip_status tr0) Db.active = true)
                         (Db.trips db)).
      { apply list_elem_of_filter. split; [by rewrite Hact | done]. }
      destruct (filter _ (Db.trips db)); [by apply elem_of_nil in Hin | simpl in E; lia]. }
    split.
    + intros loc Hloc.
      apply list_elem_of_omap in Hloc as (j & Hj & Hloc).
      apply list_elem_of_fmap in Hj as (tr & -> & Htr).
      apply list_elem_of_filter in Htr as [Hact Htr]. simpl in Hloc.
      unfold Db.latest_gps in Hloc.
      destruct (Db.reachable (gps_env (Db.trip_id tr))); [|done].
      pose proof (latest_spec (filter (λ g, str_eq (Db.gps_trip_id g) (Db.trip_id tr) = true)
                                 (Db.gps_updates db))) as Hl.
      destruct (Db.latest _) as [g|]; [|done].
      destruct Hl as [Hg Hmax]. apply list_elem_of_filter in Hg as [Hgt Hg].
      apply str_eq_true in Hgt. inversion Hloc; subst loc; clear Hloc.
      exists tr, g. simpl. repeat split; try done.
      * by destruct (Db.trip_status tr).
      * intros g' Hg' Hid. apply Hmax. apply list_elem_of_filter.
        split; [by apply str_eq_true | done].
    + intros tr g Htr Hact Hgre Hg Hid.
      apply list_elem_of_fmap.
      pose proof (latest_spec (filter (λ g0, str_eq (Db.gps_trip_id g0) (Db.trip_id tr) = true)
                                 (Db.gps_updates db))) as Hl.
      destruct (Db.latest _) as [g0|] eqn:El.
      * exists (mkLoc (Db.trip_id tr)
                  (str_or (Db.visible_bus db (Db.trip_bus_id tr)) "Unknown")
                  (Db.latitude g0) (Db.longitude g0) (Db.trip_id tr)
                  (str_or (Db.visible_route db (Db.trip_route_id tr)) "Unknown Route")).
        split; [reflexivity|].
        apply list_elem_of_omap. exists (Db.join db tr). split.
        -- apply list_elem_of_fmap. exists tr. split; [done|].
           apply list_elem_of_filter. split; [by rewrite Hact | done].
        -- simpl. unfold Db.latest_gps. rewrite Hgre, El. reflexivity.
      * exfalso.
        assert (Hin : g ∈ filter (λ g0, str_eq (Db.gps_trip_id g0) (Db.trip_id tr) = true)
                          (Db.gps_updates db)).
        { apply list_elem_of_filter. split; [by apply str_eq_true | done]. }
        rewrite Hl in Hin. by apply elem_of_nil in Hin.
Qed.

End MapView.

(** ** From the driver's fix to the passenger's map *)

Section RoundTrip.

Lemma select_by_id env db tid td :
  Db.select_trip_single env (Db.by_id tid) db = Db.Ok td →
  ∃ tr, tr ∈ Db.trips db ∧ Db.trip_id tr = tid ∧ td = Db.join db tr.
Proof.
  unfold Db.select_trip_single, Db.select_trips.
  destruct (Db.reachable env); [|done].
  destruct (filter _ (Db.trips db)) as [|tr [|tr' rest]] eqn:E; try done.
  simpl. intros H. inversion H; subst. exists tr.
  assert (Hin : tr ∈ filter (λ tr0, Db.by_id tid tr0 = true) (Db.trips db))
    by (rewrite E; apply list_elem_of_here).
  apply list_elem_of_filter in Hin as [Hp Hin]. apply str_eq_true in Hp. done.
Qed.

Lemma insert_gps_Ok caller env tid lat lng spd hdg acc db db' :
  Db.insert_gps caller env tid lat lng spd hdg acc db = Db.Ok db' →
  db' = Db.set_gps_updates db
          (Db.gps_updates db
           ++ [Db.mkGps (Db.fresh_uuid env) tid lat lng (Some spd) (Some hdg) (Some acc)
                 (Db.clock env)]).
Proof.
  unfold Db.insert_gps. intros H.
  repeat match type of H with
         | (if ?c then _ else _) = _ => destruct c; [discriminate|]
         end.
  by inversion H.
Qed.

(** X10.  A fix the database accepted reaches the map: when the change it
    causes is delivered to a passenger whose trip lookup gets through, the
    view holds for the driver's trip the latitude and longitude of that fix,
    with the number of the trip's bus (or "Unknown"), whatever the view held
    before. *)
Theorem stored_fix_reaches_the_map trip coords user env db db' env2 view :
  Db.wf db →
  Db.insert_gps user env (Driver.id trip) (Driver.latitude coords) (Driver.longitude coords)
    (or_zero (Driver.speed coords)) (or_zero (Driver.heading coords))
    (or_zero (Driver.accuracy coords)) db = Db.Ok db' →
  Db.reachable env2 = true →
  ∃ row loc tr,
    last (Db.gps_updates db') = Some row
    ∧ BusMap.entry (Driver.id trip)
        (BusMap.on_change env2 db' (Db.GpsInserted row) view) = Some loc
    ∧ BusMap.trip_id loc = Driver.id trip
    ∧ BusMap.latitude loc = Driver.latitude coords
    ∧ BusMap.longitude loc = Driver.longitude coords
    ∧ tr ∈ Db.trips db ∧ Db.trip_id tr = Driver.id trip
    ∧ BusMap.bus_number loc = str_or (Db.visible_bus db (Db.trip_bus_id tr)) "Unknown"
    ∧ BusMap.route_name loc
      = str_or (Db.visible_route db (Db.trip_route_id tr)) "Unknown Route".
Proof.
  intros Hwf Hins Hre.
  pose proof (insert_gps_wf _ _ _ _ _ _ _ _ _ _ Hwf Hins) as Hwf'.
  pose proof (insert_gps_Ok _ _ _ _ _ _ _ _ _ _ Hins) as Hdb.
  set (row := Db.mkGps (Db.fresh_uuid env) (Driver.id trip) (Driver.latitude coords)
                (Driver.longitude coords) (Some (or_zero (Driver.speed coords)))
                (Some (or_zero (Driver.heading coords)))
                (Some (or_zero (Driver.accuracy coords))) (Db.clock env)) in *.
  assert (Hrow : row ∈ Db.gps_updates db').
  { rewrite Hdb. simpl. apply elem_of_app. right. apply list_elem_of_here. }
  destruct (delivered_applied (env2, db', Db.GpsInserted row)) as [td Htd];
    [simpl; split; [done|]; by split|].
  destruct (select_by_id _ _ _ _ Htd) as (tr & Htr & Hid & ->).
  exists row, (BusMap.newLocation row (Db.join db' tr)), tr.
  split; [rewrite Hdb; simpl; apply last_snoc|]. split.
  - simpl. rewrite (on_gps_insert_found _ _ _ _ _ Htd).
    apply (entry_upsert_same (BusMap.newLocation row (Db.join db' tr))).
  - rewrite Hdb in Htr |- *. by repeat split.
Qed.

Lemma stored_fix_reaches_the_map_witness :
  Db.wf Fixture.db1
  ∧ Db.reachable (Fixture.env "none" 3100) = true
  ∧ ∃ row loc,
      last (Db.gps_updates
              (Db.set_gps_updates Fixture.db1
                 [Db.mkGps "gps-1" "trip-1" 4000000000 (-7500000000) (Some 0) (Some 0)
                    (Some 500) 3000])) = Some row
      ∧ BusMap.entry "trip-1"
          (BusMap.on_change (Fixture.env "none" 3100)
             (Db.set_gps_updates Fixture.db1
                [Db.mkGps "gps-1" "trip-1" 4000000000 (-7500000000) (Some 0) (Some 0)
                   (Some 500) 3000])
             (Db.GpsInserted row) []) = Some loc
      ∧ BusMap.latitude loc = 4000000000
      ∧ BusMap.longitude loc = -7500000000.
Proof.
  assert (H1 : Db.wf Fixture.db1).
  { split; [apply NoDup_singleton|]. intros g Hg. by apply elem_of_nil in Hg. }
  assert (H2 : Db.insert_gps (Some "driver-1") (Fixture.env "gps-1" 3000)
                 (Driver.id Fixture.active1) (Driver.latitude Fixture.fix1)
                 (Driver.longitude Fixture.fix1) (or_zero (Driver.speed Fixture.fix1))
                 (or_zero (Driver.heading Fixture.fix1))
                 (or_zero (Driver.accuracy Fixture.fix1)) Fixture.db1
               = Db.Ok (Db.set_gps_updates Fixture.db1
                          [Db.mkGps "gps-1" "trip-1" 4000000000 (-7500000000) (Some 0)
                             (Some 0) (Some 500) 3000])) by reflexivity.
  assert (H3 : Db.reachable (Fixture.env "none" 3100) = true) by reflexivity.
  split; [exact H1|]. split; [exact H3|].
  destruct (stored_fix_reaches_the_map Fixture.active1 Fixture.fix1 _ _ _ _
              (Fixture.env "none" 3100) [] H1 H2 H3)
    as (row & loc & tr & Hl & He & _ & Hlat & Hlng & _).
  exists row, loc. split; [exact Hl|]. split; [exact He|]. split; [exact Hlat | exact Hlng].
Defined.

Lemma latest_snoc rows g :
  (∀ g', g' ∈ rows → Db.created_at g' < Db.created_at g) →
  Db.latest (rows ++ [g]) = Some g.
Proof.
  induction rows as [|x rows IH]; intros H; [done|]. simpl.
  rewrite IH by (intros g' Hg'; by apply H, list_elem_of_further).
  specialize (H x (list_elem_of_here _ _)).
  by apply Z.ltb_lt in H as ->.
Qed.

Lemma entry_of_member (l : list BusMap.BusLocation) loc :
  NoDup (BusMap.id <$> l) → loc ∈ l → BusMap.entry (BusMap.id loc) l = Some loc.
Proof.
  unfold BusMap.entry. induction l as [|x l IH]; intros Hnd Hin.
  - by apply elem_of_nil in Hin.
  - rewrite fmap_cons in Hnd. apply NoDup_cons in Hnd as [Hx Hnd]. simpl.
    apply elem_of_cons in Hin as [->|Hin]; [by rewrite str_eq_refl|].
    destruct (str_eq (BusMap.id x) (BusMap.id loc)) eqn:E; [|by apply IH].
    apply str_eq_true in E. exfalso. apply Hx. rewrite E.
    apply list_elem_of_fmap. by exists loc.
Qed.

(** X11.  A fix the database accepted for an active trip with a timestamp
    later than the trip's earlier samples is what a map shows that fetches
    afterwards: the one entry of the trip in the fetched view has the
    latitude and longitude of that fix. *)
Theorem stored_fix_is_fetched trip coords user env db db' env2 gps_env prev tr :
  Db.wf db →
  Db.insert_gps user env (Driver.id trip) (Driver.latitude coords) (Driver.longitude coords)
    (or_zero (Driver.speed coords)) (or_zero (Driver.heading coords))
    (or_zero (Driver.accuracy coords)) db = Db.Ok db' →
  tr ∈ Db.trips db → Db.trip_id tr = Driver.id trip → Db.trip_status tr = Db.active →
  (∀ g, g ∈ Db.gps_updates db → Db.gps_trip_id g = Driver.id trip →
        Db.created_at g < Db.clock env) →
  Db.reachable env2 = true → Db.reachable (gps_env (Driver.id trip)) = true →
  ∃ loc, BusMap.entry (Driver.id trip) (BusMap.fetchBusLocations env2 gps_env db' prev)
         = Some loc
         ∧ BusMap.trip_id loc = Driver.id trip
         ∧ BusMap.latitude loc = Driver.latitude coords
         ∧ BusMap.longitude loc = Driver.longitude coords.
Proof.
  intros Hwf Hins Htr Hid Hact Hnew Hre Hgre.
  pose proof (insert_gps_wf _ _ _ _ _ _ _ _ _ _ Hwf Hins) as [Hpk' _].
  pose proof (insert_gps_Ok _ _ _ _ _ _ _ _ _ _ Hins) as Hdb.
  set (row := Db.mkGps (Db.fresh_uuid env) (Driver.id trip) (Driver.latitude coords)
                (Driver.longitude coords) (Some (or_zero (Driver.speed coords)))
                (Some (or_zero (Driver.heading coords)))
                (Some (or_zero (Driver.accuracy coords))) (Db.clock env)) in *.
  set (loc := BusMap.mkLoc (Db.trip_id tr)
                (str_or (Db.visible_bus db' (Db.trip_bus_id tr)) "Unknown")
                (Driver.latitude coords) (Driver.longitude coords) (Db.trip_id tr)
                (str_or (Db.visible_route db' (Db.trip_route_id tr)) "Unknown Route")).
  assert (Htr' : tr ∈ Db.trips db') by (by rewrite Hdb).
  assert (Hf : tr ∈ filter (λ tr0, Db.status_eqb (Db.trip_status tr0) Db.active = true)
                     (Db.trips db'))
    by (apply list_elem_of_filter; split; [by rewrite Hact | done]).
  assert (Hfetch : BusMap.fetchBusLocations env2 gps_env db' prev
                   = BusMap.fetchBusLocations env2 gps_env db' []).
  { unfold BusMap.fetchBusLocations, Db.select_trips. rewrite Hre.
    destruct (Z.of_nat _ =? 0) eqn:E; [|done].
    apply Z.eqb_eq in E. rewrite length_fmap in E.
    destruct (filter _ (Db.trips db')); [by apply elem_of_nil in Hf | simpl in E; lia]. }
  rewrite Hfetch.
  assert (Hin : loc ∈ BusMap.fetchBusLocations env2 gps_env db' []).
  { unfold BusMap.fetchBusLocations, Db.select_trips. rewrite Hre.
    destruct (Z.of_nat _ =? 0) eqn:E.
    { apply Z.eqb_eq in E. rewrite length_fmap in E.
      destruct (filter _ (Db.trips db')); [by apply elem_of_nil in Hf | simpl in E; lia]. }
    apply list_elem_of_omap. exists (Db.join db' tr). split.
    - apply list_elem_of_fmap. by exists tr.
    - simpl. unfold Db.latest_gps. rewrite Hid, Hgre.
      rewrite Hdb. simpl. rewrite filter_app, filter_cons, decide_True, filter_nil
        by (simpl; apply str_eq_refl).
      rewrite latest_snoc.
      + subst loc. simpl. by rewrite Hid, Hdb.
      + intros g' Hg'. apply list_elem_of_filter in Hg' as [Hp Hg'].
        apply str_eq_true in Hp. by apply Hnew. }
  exists loc. rewrite <- Hid. split; [|done].
  apply (entry_of_member _ loc); [|done].
  apply fetchBusLocations_ids_NoDup; [done | apply NoDup_nil_2].
Qed.

Lemma stored_fix_is_fetched_witness :
  Db.wf Fixture.db2
  ∧ Fixture.trip1 ∈ Db.trips Fixture.db2
  ∧ ∃ loc, BusMap.entry "trip-1"
             (BusMap.fetchBusLocations (Fixture.env "none" 3100)
                (λ _, Fixture.env "none" 3100)
                (Db.set_gps_updates Fixture.db2
                   [Db.mkGps "gps-1" "trip-1" 4000000000 (-7500000000) (Some 0) (Some 0)
                      (Some 500) 3000])
                Fixture.view1) = Some loc
           ∧ BusMap.latitude loc = 4000000000
           ∧ BusMap.longitude loc = -7500000000.
Proof.
  assert (H1 : Db.wf Fixture.db2).
  { split; [|intros g Hg; by apply elem_of_nil in Hg].
    apply NoDup_cons. split; [|apply NoDup_singleton].
    intros H. apply list_elem_of_singleton in H. discriminate. }
  assert (H2 : Db.insert_gps (Some "driver-1") (Fixture.env "gps-1" 3000)
                 (Driver.id Fixture.active1) (Driver.latitude Fixture.fix1)
                 (Driver.longitude Fixture.fix1) (or_zero (Driver.speed Fixture.fix1))
                 (or_zero (Driver.heading Fixture.fix1))
                 (or_zero (Driver.accuracy Fixture.fix1)) Fixture.db2
               = Db.Ok (Db.set_gps_updates Fixture.db2
                          [Db.mkGps "gps-1" "trip-1" 4000000000 (-7500000000) (Some 0)
                             (Some 0) (Some 500) 3000])) by reflexivity.
  assert (H3 : Fixture.trip1 ∈ Db.trips Fixture.db2) by apply list_elem_of_here.
  split; [exact H1|]. split; [exact H3|].
  destruct (stored_fix_is_fetched Fixture.active1 Fixture.fix1 _ _ _ _
              (Fixture.env "none" 3100) (λ _, Fixture.env "none" 3100) Fixture.view1
              Fixture.trip1 H1 H2 H3 eq_refl eq_refl)
    as (loc & He & _ & Hlat & Hlng).
  - intros g Hg. by apply elem_of_nil in Hg.
  - reflexivity.
  - reflexivity.
  - exists loc. split; [exact He|]. split; [exact Hlat | exact Hlng].
Defined.

End RoundTrip.

(** ** Signing up, signing in and reaching a dashboard *)

Section Accounts.

Lemma str_falsy_false s : str_falsy s = false ↔ s ≠ EmptyString.
Proof. unfold str_falsy. apply str_eq_false. Qed.

Lemma str_falsy_true s : str_falsy s = true ↔ s = EmptyString.
Proof. unfold str_falsy. apply str_eq_true. Qed.


(** X13.  [handleLogin] calls the authentication service exactly when
    email and password are both filled in, once, with these two; it goes to
    the dashboard exactly when the call succeeds, and every other outcome
    ends in one destructive toast without leaving the page.  After a call
    the page is no longer loading. *)
Theorem handleLogin_guards reply st :
  (Auth.loginEmail st ≠ EmptyString ∧ Auth.loginPassword st ≠ EmptyString
   ∧ Auth.calls (Auth.handleLogin reply st).2
     = [Auth.signInWithPassword (Auth.loginEmail st) (Auth.loginPassword st)]
   ∧ (Auth.handleLogin reply st).1 = Auth.setLoading false st
   ∧ (Auth.navigate "/dashboard" ∈ (Auth.handleLogin reply st).2 ↔ reply = Auth.Succeeded)
   ∧ (reply ≠ Auth.Succeeded →
      ∃ t, Auth.toast t ∈ (Auth.handleLogin reply st).2 ∧ Driver.destructive t = true))
  ∨ ((Auth.loginEmail st = EmptyString ∨ Auth.loginPassword st = EmptyString)
     ∧ (Auth.handleLogin reply st).1 = st
     ∧ (Auth.handleLogin reply st).2 = [Auth.toast Auth.toast_login_missing]).
Proof.
  unfold Auth.handleLogin.
  destruct (str_falsy (Auth.loginEmail st)) eqn:He; simpl.
  { right. apply str_falsy_true in He. by split; [left|]. }
  destruct (str_falsy (Auth.loginPassword st)) eqn:Hp; simpl.
  { right. apply str_falsy_true in Hp. by split; [right|]. }
  left. apply str_falsy_false in He, Hp.
  split; [done|]. split; [done|]. split; [by destruct reply|]. split; [done|]. split.
  - destruct reply; simpl; split; intros H; try done;
      repeat (apply elem_of_cons in H as [H|H]; [discriminate|]);
      try (by apply elem_of_nil in H).
    do 4 apply list_elem_of_further. apply list_elem_of_here.
  - intros Hne. destruct reply as [|message|]; [| |done].
    + exists Auth.toast_unexpected. split; [|done].
      do 3 apply list_elem_of_further. apply list_elem_of_here.
    + eexists. split; [do 3 apply list_elem_of_further; apply list_elem_of_here|].
      by destruct (Auth.includes _ _).
Qed.


Lemma render_role r e :
  Dashboard.render (Dashboard.mkState false (Some (Accounts.role_label r)) e)
  = Dashboard.view_of r.
Proof. by destruct r. Qed.

Lemma own_profiles uid (profiles : list Accounts.Profile) :
  filter (λ p, Db.is_caller (Some uid) (Accounts.id p)
               && str_eq (Accounts.id p) uid = true) profiles
  = filter (λ p, Accounts.id p = uid) profiles.
Proof.
  induction profiles as [|q qs IH]; [done|]. rewrite !filter_cons, IH.
  destruct (decide (Accounts.id q = uid)) as [E|E].
  - rewrite decide_True; [done|]. rewrite E. simpl. by rewrite !str_eq_refl.
  - rewrite decide_False; [done|]. intros H. apply andb_prop in H as [_ H].
    by apply str_eq_true in H.
Qed.




(** X15.  [checkAuth] takes the spinner away exactly when there is a
    session, the profile query gets through and finds the one profile of the
    session's user; the page then shows the dashboard of that profile's role.
    Without a session it asks for the login page; when the profile cannot be
    read it shows a destructive toast and asks for no page, so the spinner
    stays. *)
Theorem checkAuth_outcomes session env profiles :
  (∃ s p, session = Some s ∧ Db.reachable env = true
          ∧ filter (λ p, Accounts.id p = Dashboard.user_id s) profiles = [p]
          ∧ (Dashboard.checkAuth session env profiles Dashboard.initial).1
            = Dashboard.mkState false (Some (Accounts.role_label (Accounts.role p)))
                (Dashboard.or_null (Dashboard.user_email s))
          ∧ Dashboard.render
              (Dashboard.checkAuth session env profiles Dashboard.initial).1
            = Dashboard.view_of (Accounts.role p))
  ∨ (Dashboard.render (Dashboard.checkAuth session env profiles Dashboard.initial).1
     = Dashboard.Spinner
     ∧ ((session = None
         ∧ Dashboard.navigate "/auth"
           ∈ (Dashboard.checkAuth session env profiles Dashboard.initial).2)
        ∨ (∃ s, session = Some s
                ∧ (Db.reachable env = false
                   ∨ length (filter (λ p, Accounts.id p = Dashboard.user_id s) profiles)
                     ≠ 1%nat)
                ∧ Dashboard.toast Dashboard.toast_profile_error
                  ∈ (Dashboard.checkAuth session env profiles Dashboard.initial).2
                ∧ ∀ path, Dashboard.navigate path
                          ∉ (Dashboard.checkAuth session env profiles
                               Dashboard.initial).2))).
Proof.
  assert (Hno : ∀ path a b c,
            Dashboard.navigate path
            ∉ [Dashboard.console_log a; Dashboard.console_log b;
               Dashboard.console_error c;
               Dashboard.toast Dashboard.toast_profile_error]).
  { intros path a b c H.
    repeat (apply elem_of_cons in H as [H|H]; [discriminate|]).
    by apply elem_of_nil in H. }
  destruct session as [s|].
  2:{ right. split; [done|]. left. split; [done|]. simpl.
      do 2 apply list_elem_of_further. apply list_elem_of_here. }
  unfold Dashboard.checkAuth, Accounts.select_role. rewrite own_profiles.
  destruct (Db.reachable env) eqn:Hre.
  - destruct (filter _ profiles) as [|p [|p' rest]] eqn:E; simpl.
    + right. split; [done|]. right. exists s. split; [done|]. split; [by right; rewrite E|].
      split; [do 3 apply list_elem_of_further; apply list_elem_of_here | intros; apply Hno].
    + left. exists s, p. split; [done|]. split; [done|]. split; [done|].
      split; [done|]. apply render_role.
    + right. split; [done|]. right. exists s. split; [done|]. split; [by right; rewrite E|].
      split; [do 3 apply list_elem_of_further; apply list_elem_of_here | intros; apply Hno].
  - right. split; [done|]. right. exists s. split; [done|]. split; [by left|].
    split; [do 3 apply list_elem_of_further; apply list_elem_of_here | intros; apply Hno].
Qed.

End Accounts.

(** ** From the driver's buttons to the passenger's route list *)

Section RouteList.

Lemma fetchActiveBuses_ids env selectedRoute db prev tid :
  Db.reachable env = true →
  tid ∈ Passenger.trip_id <$> Passenger.fetchActiveBuses env selectedRoute db prev
  ↔ ∃ tr, tr ∈ Db.trips db ∧ Db.trip_id tr = tid
          ∧ Db.trip_route_id tr = selectedRoute ∧ Db.trip_status tr = Db.active.
Proof.
  intros Hre. unfold Passenger.fetchActiveBuses, Db.select_trips. rewrite Hre.
  rewrite <- !list_fmap_compose. split.
  - intros Hin. apply list_elem_of_fmap in Hin as (tr & Hid & Hin). simpl in Hid.
    apply list_elem_of_filter in Hin as [Hp Hin].
    apply andb_prop in Hp as [Hr Hs]. apply str_eq_true in Hr.
    exists tr. repeat split; try done. by destruct (Db.trip_status tr).
  - intros (tr & Hin & Hid & Hr & Hs). apply list_elem_of_fmap. exists tr.
    split; [done|]. apply list_elem_of_filter. split; [|done].
    by rewrite Hr, Hs, str_eq_refl.
Qed.

(** X16.  A trip enters the route list of a passenger when its driver
    starts it and leaves it when the driver ends it.  After a successful
    [handleStartTrip], the change of the new trip makes a passenger who has
    the trip's route selected list it, under the drawn id, with the number
    of the selected bus and the name of the route as far as these are
    visible; after [handleEndTrip] on the resulting dashboard the next
    change makes the passenger's list drop that id.  What the list held
    before plays no part. *)
Theorem started_trip_enters_and_leaves_route_list u env env' penv today st db :
  Driver.can_start env u st db →
  Db.reachable env' = true →
  Db.reachable penv = true →
  let started := Driver.handleStartTrip (Some u) env st db in
  let ended := Driver.handleEndTrip (Some u) env' today started.1.1 started.1.2 in
  let row := Driver.started_row env u st in
  let done_row := Db.mkTrip (Db.trip_id row) (Db.trip_bus_id row) (Db.trip_route_id row)
                    (Db.trip_driver_id row) Db.completed (Db.started_at row)
                    (Some today) in
  (∀ prev,
     Passenger.mkBus
       (str_or (Db.visible_bus db (Driver.selectedBus st)) "Unknown")
       (str_or (Db.visible_route db (Driver.selectedRoute st)) "Unknown Route")
       (Db.fresh_uuid env)
     ∈ Passenger.on_change penv (Driver.selectedRoute st) started.1.2
         (Db.TripInserted row) prev)
  ∧ done_row ∈ Db.trips ended.1.2
  ∧ (∀ prev,
       Db.fresh_uuid env
       ∉ Passenger.trip_id
           <$> Passenger.on_change penv (Driver.selectedRoute st) ended.1.2
                 (Db.TripUpdated row done_row) prev).
Proof.
  intros Hcan Hre' Hpre started ended row done_row.
  pose proof Hcan as (Hb & Hr & Hre & Hfresh & Hbus & Hroute & Hprof).
  assert (Hsel : str_falsy (Driver.selectedRoute st) = false)
    by (by apply str_eq_false).
  assert (Hstarted : started
                     = (Driver.setActiveTrip
                          (Some (Driver.toActiveTrip
                                   (Db.join (Db.set_trips db (Db.trips db ++ [row])) row)))
                          st,
                        Db.set_trips db (Db.trips db ++ [row]),
                        [Driver.console_log "🚀 Starting new trip...";
                         Driver.toast Driver.toast_trip_started]))
    by (by apply handleStartTrip_succeeds).
  assert (Hended : Db.trips ended.1.2
                   = (λ tr, if str_eq (Db.trip_id tr) (Db.fresh_uuid env)
                               && Db.is_caller (Some u) (Db.trip_driver_id tr)
                            then Db.mkTrip (Db.trip_id tr) (Db.trip_bus_id tr)
                                   (Db.trip_route_id tr) (Db.trip_driver_id tr)
                                   Db.completed (Db.started_at tr) (Some today)
                            else tr) <$> (Db.trips db ++ [row])).
  { unfold ended. rewrite Hstarted. unfold Driver.handleEndTrip, Db.update_trip.
    simpl. by rewrite Hre'. }
  split; [|split].
  - intros prev. unfold Passenger.on_change. rewrite Hsel. simpl.
    rewrite str_eq_refl, Hstarted. simpl.
    unfold Passenger.fetchActiveBuses, Db.select_trips. rewrite Hpre. simpl.
    rewrite filter_app, !fmap_app. apply elem_of_app. right.
    rewrite filter_cons, decide_True by (simpl; by rewrite str_eq_refl).
    rewrite filter_nil. apply list_elem_of_here.
  - rewrite Hended, fmap_app. apply elem_of_app. right. simpl.
    rewrite !str_eq_refl. simpl. apply list_elem_of_here.
  - intros prev. unfold Passenger.on_change. rewrite Hsel. simpl.
    rewrite str_eq_refl. intros Hin.
    apply fetchActiveBuses_ids in Hin as (tr' & Hin & Hid & _ & Hact); [|done].
    rewrite Hended in Hin. apply list_elem_of_fmap in Hin as (tr & -> & Hin).
    apply elem_of_app in Hin as [Hin|Hin].
    + destruct (str_eq (Db.trip_id tr) (Db.fresh_uuid env)
                && Db.is_caller (Some u) (Db.trip_driver_id tr)); simpl in Hid.
      all: apply not_true_iff_false in Hfresh; apply Hfresh.
      all: apply existsb_exists; exists tr.
      all: split; [by apply list_elem_of_In | by apply str_eq_true].
    + apply list_elem_of_singleton in Hin as ->. simpl in Hact.
      by rewrite !str_eq_refl in Hact.
Qed.

Lemma started_trip_enters_and_leaves_route_list_witness :
  Passenger.mkBus "12" "Downtown Loop" "trip-1"
  ∈ Passenger.on_change (Fixture.env "none" 6200) "route-1"
      (Driver.handleStartTrip (Some "driver-1") (Fixture.env "trip-1" 1000)
         (Driver.mkState "bus-12" "route-1" None None 0) Fixture.db0).1.2
      (Db.TripInserted Fixture.trip1) []
  ∧ "trip-1"
    ∉ Passenger.trip_id
        <$> Passenger.on_change (Fixture.env "none" 6200) "route-1"
              (Driver.handleEndTrip (Some "driver-1") (Fixture.env "none" 6100) 6100
                 (Driver.handleStartTrip (Some "driver-1") (Fixture.env "trip-1" 1000)
                    (Driver.mkState "bus-12" "route-1" None None 0) Fixture.db0).1.1
                 (Driver.handleStartTrip (Some "driver-1") (Fixture.env "trip-1" 1000)
                    (Driver.mkState "bus-12" "route-1" None None 0) Fixture.db0).1.2).1.2
              (Db.TripUpdated Fixture.trip1 Fixture.ended1) Fixture.list1.
Proof.
  assert (Hcan : Driver.can_start (Fixture.env "trip-1" 1000) "driver-1"
                   (Driver.mkState "bus-12" "route-1" None None 0) Fixture.db0)
    by (by repeat split).
  destruct (started_trip_enters_and_leaves_route_list "driver-1"
              (Fixture.env "trip-1" 1000) (Fixture.env "none" 6100)
              (Fixture.env "none" 6200) 6100
              (Driver.mkState "bus-12" "route-1" None None 0) Fixture.db0
              Hcan eq_refl eq_refl) as (Hin & _ & Hout).
  split; [exact (Hin []) | exact (Hout Fixture.list1)].
Defined.

End RouteList.
